(** * The floating-IP pool range engine of galaxy (pkg/ipam/floatingip)

    A shallow embedding of [floatingip.go]: the list of available address
    ranges of a [FloatingIPPool], the release ([InsertIP]) and reservation
    ([RemoveIP]) algorithms with the merge step ([tryMerge]), the decode-time
    validation ([fipCheck]), the configuration codec ([MarshalJSON],
    [UnmarshalJSON]) and the ordering of pools ([Less]).

    Go slices are lists addressed by index (stdpp's lookup, insert, take and
    drop); an index out of range is a run-time panic in Go and [None] here.
    An IPv4 [net.IP] is represented by the 32-bit number its four bytes
    spell in network order. *)

From Stdlib Require Import ZArith Lia Bool Ascii String.
From stdpp Require Import base option list strings.

Open Scope Z_scope.

(** ** Machine integers *)

Definition uint32_modulus : Z := 2 ^ 32.
Definition int64_half : Z := 2 ^ 63.

(** The value of a Go [uint32] expression after wrap-around. *)
Definition u32 (x : Z) : Z := x mod uint32_modulus.

(** The value of a Go [int64] expression after wrap-around. *)
Definition i64 (x : Z) : Z := (x + int64_half) mod (2 * int64_half) - int64_half.

(** An IPv4 address, as a number. *)
Definition is_ip (a : Z) : Prop := 0 <= a < uint32_modulus.

Definition is_ipb (a : Z) : bool := (0 <=? a) && (a <? uint32_modulus).

(** ** The address helpers of [pkg/utils/nets] *)

Module nets.

(** Modelled from the spec: [nets.IPToInt] is missing from the sources;
    the numeric value of an address. The code converts its result to
    [int64] in [Minus] and passes sums of it to [nets.IntToIP]: it is a
    [uint32]. *)
Definition IPToInt (ip : Z) : Z := u32 ip.

(** Modelled from the spec: [nets.IntToIP] is missing from the sources;
    the address of a [uint32] number. *)
Definition IntToIP (n : Z) : Z := u32 n.

(** Modelled from the spec: the type [nets.IPRange] is missing from the
    sources; an inclusive interval [First, Last] of addresses. *)
Record IPRange : Type := mkIPRange { First : Z; Last : Z }.

(** Modelled from the spec: [IPRange.Contains] is missing from the sources;
    true iff [First <= addr <= Last]. *)
Definition Contains (ipr : IPRange) (ip : Z) : bool :=
  (IPToInt (First ipr) <=? IPToInt ip) && (IPToInt ip <=? IPToInt (Last ipr)).

(** Modelled from the spec: [nets.IPtoIPRange] is missing from the sources;
    the singleton range of an address. *)
Definition IPtoIPRange (ip : Z) : IPRange := mkIPRange ip ip.

End nets.

Export nets.

Global Instance IPRange_eq_dec : EqDecision IPRange.
Proof. solve_decision. Defined.

(** Go's [net.IPNet]: an address and a mask, both four bytes. *)
Record IPNet : Type := mkIPNet { net_IP : Z; net_Mask : Z }.

Global Instance IPNet_eq_dec : EqDecision IPNet.
Proof. solve_decision. Defined.

(** Go's [net.IPNet.Contains]: the address and the network agree on every
    bit of the mask. *)
Definition IPNet_Contains (n : IPNet) (ip : Z) : bool :=
  Z.land (net_IP n) (net_Mask n) =? Z.land ip (net_Mask n).

(** Go's [net.IP.Equal] on IPv4 addresses. *)
Definition IP_Equal (a b : Z) : bool := a =? b.

(** ** The pool *)

(** [FloatingIPPool] with the fields of the embedded [nets.SparseSubnet]
    (missing from the sources; the fields are those the methods below read
    and write). The routable subnet and the gateway are set (not [nil]);
    the embedded lock is used by none of the methods below. *)
Record FloatingIPPool : Type := mkPool {
  RoutableSubnet : IPNet;
  IPRanges : list IPRange;
  Gateway : Z;
  Mask : Z;
  Vlan : Z
}.

Definition with_ranges (fip : FloatingIPPool) (rs : list IPRange) : FloatingIPPool :=
  mkPool (RoutableSubnet fip) rs (Gateway fip) (Mask fip) (Vlan fip).

(** Modelled from the spec: [SparseSubnet.IPNet] is missing from the sources;
    the floating-IP subnet is the one defined by [Gateway] and [Mask], as
    [fipCheck] builds it. *)
Definition SparseSubnet_IPNet (fip : FloatingIPPool) : IPNet :=
  mkIPNet (Gateway fip) (Mask fip).

(** [Minus]: how many addresses lie between two addresses, in [int64]. *)
Definition Minus (a b : Z) : Z := i64 (IPToInt a - IPToInt b).

(** [FloatingIPPool.Contains]. *)
Definition pool_Contains (rs : list IPRange) (ip : Z) : bool :=
  existsb (fun ipr => Contains ipr ip) rs.

(** ** [tryMerge] *)

Definition tryMerge (rs : list IPRange) (i : Z) : option (list IPRange) :=
  if (i <? 0) || (i + 1 =? Z.of_nat (length rs)) then Some rs
  else
    let n := Z.to_nat i in
    a ← rs !! n;
    b ← rs !! S n;
    if Minus (First b) (Last a) =? 1 then
      let rs1 := <[n := mkIPRange (First a) (Last b)]> rs in
      if i + 2 <? Z.of_nat (length rs1)
      then Some (take (S n) rs1 ++ drop (S (S n)) rs1)
      else Some (take (S n) rs1)
    else Some rs.

(** ** [InsertIP] *)

(** The loop [for i := range fip.IPRanges] of [InsertIP], entered at index
    [i] with [k] iterations left; falling out of the loop appends the
    address as a new last range. *)
Fixpoint InsertIP_loop (k : nat) (i : nat) (rs : list IPRange) (ip : Z)
  : option (list IPRange * bool) :=
  match k with
  | O => Some (rs ++ [IPtoIPRange ip], true)
  | S k' =>
    r ← rs !! i;
    if Contains r ip then Some (rs, false)
    else
      let ret := Minus (First r) ip in
      if ret >? 1 then
        if (i =? 0)%nat
        then Some ([IPtoIPRange ip] ++ rs, true)
        else Some (take i rs ++ ([IPtoIPRange ip] ++ drop i rs), true)
      else if ret =? 1 then
        rs' ← tryMerge (<[i := mkIPRange ip (Last r)]> rs) (Z.of_nat i - 1);
        Some (rs', true)
      else if Minus (Last r) ip =? -1 then
        rs' ← tryMerge (<[i := mkIPRange (First r) ip]> rs) (Z.of_nat i);
        Some (rs', true)
      else InsertIP_loop k' (S i) rs ip
  end.

Definition InsertIP (fip : FloatingIPPool) (ip : Z) : option (FloatingIPPool * bool) :=
  if negb (IPNet_Contains (SparseSubnet_IPNet fip) ip) then Some (fip, false)
  else if (length (IPRanges fip) =? 0)%nat
  then Some (with_ranges fip (IPRanges fip ++ [IPtoIPRange ip]), true)
  else
    '(rs, ok) ← InsertIP_loop (length (IPRanges fip)) 0 (IPRanges fip) ip;
    Some (with_ranges fip rs, ok).

(** ** [RemoveIP] *)

Fixpoint RemoveIP_loop (k : nat) (i : nat) (rs : list IPRange) (ip : Z)
  : option (list IPRange * bool) :=
  match k with
  | O => Some (rs, false)
  | S k' =>
    ipRange ← rs !! i;
    if Contains ipRange ip then
      let ipn := IPToInt ip in
      if IP_Equal (First ipRange) (Last ipRange) then
        Some (take i rs ++ drop (S i) rs, true)
      else if IP_Equal (First ipRange) ip then
        Some (<[i := mkIPRange (IntToIP (u32 (IPToInt (First ipRange) + 1)))
                               (Last ipRange)]> rs, true)
      else if IP_Equal (Last ipRange) ip then
        Some (<[i := mkIPRange (First ipRange)
                               (IntToIP (u32 (IPToInt (Last ipRange) - 1)))]> rs, true)
      else
        let rs1 := take (S i) rs ++ ([ipRange] ++ drop (S i) rs) in
        a ← rs1 !! i;
        let rs2 := <[i := mkIPRange (First a) (IntToIP (u32 (ipn - 1)))]> rs1 in
        b ← rs2 !! S i;
        Some (<[S i := mkIPRange (IntToIP (u32 (ipn + 1))) (Last b)]> rs2, true)
    else RemoveIP_loop k' (S i) rs ip
  end.

Definition RemoveIP (fip : FloatingIPPool) (ip : Z) : option (FloatingIPPool * bool) :=
  if negb (IPNet_Contains (SparseSubnet_IPNet fip) ip) then Some (fip, false)
  else if (length (IPRanges fip) =? 0)%nat then Some (fip, false)
  else
    '(rs, ok) ← RemoveIP_loop (length (IPRanges fip)) 0 (IPRanges fip) ip;
    Some (with_ranges fip rs, ok).

(** A run of releases and reservations, as a caller issues them. *)
Inductive Op : Type :=
| OpInsert (ip : Z)
| OpRemove (ip : Z).

Definition op_ip (o : Op) : Z :=
  match o with OpInsert ip => ip | OpRemove ip => ip end.

Definition apply_op (fip : FloatingIPPool) (o : Op) : option (FloatingIPPool * bool) :=
  match o with
  | OpInsert ip => InsertIP fip ip
  | OpRemove ip => RemoveIP fip ip
  end.

Fixpoint run_ops (fip : FloatingIPPool) (ops : list Op) : option FloatingIPPool :=
  match ops with
  | [] => Some fip
  | o :: ops' => '(fip', _) ← apply_op fip o; run_ops fip' ops'
  end.

(** ** The invariants of the data model *)

(** An [IPRange] of the data model: two IPv4 addresses, [First <= Last]. *)
Definition wf_range (r : IPRange) : Prop :=
  is_ip (First r) ∧ is_ip (Last r) ∧ First r <= Last r.

(** I1: sorted, strictly ascending by [First]. *)
Definition I1 (rs : list IPRange) : Prop :=
  ∀ (i : nat) a b, rs !! i = Some a → rs !! S i = Some b → First a < First b.

(** I2: consecutive ranges are separated by at least one address. *)
Definition I2 (rs : list IPRange) : Prop :=
  ∀ (i : nat) a b, rs !! i = Some a → rs !! S i = Some b → Last a + 1 < First b.

(** I3: every address of every range is in the subnet of [Gateway]/[Mask]. *)
Definition I3 (fip : FloatingIPPool) : Prop :=
  ∀ r x, r ∈ IPRanges fip → First r <= x <= Last r →
         IPNet_Contains (SparseSubnet_IPNet fip) x = true.

(** I3 as [fipCheck] tests it: both endpoints of every range are in the
    subnet. *)
Definition I3_endpoints (fip : FloatingIPPool) : Prop :=
  ∀ r, r ∈ IPRanges fip →
       IPNet_Contains (SparseSubnet_IPNet fip) (First r) = true ∧
       IPNet_Contains (SparseSubnet_IPNet fip) (Last r) = true.

Definition valid_pool (fip : FloatingIPPool) : Prop :=
  Forall wf_range (IPRanges fip) ∧ I1 (IPRanges fip) ∧ I2 (IPRanges fip) ∧ I3 fip.

(** The mask of a CIDR prefix of [p] bits. *)
Definition cidr_mask (p : Z) : Z := uint32_modulus - 2 ^ (32 - p).

Definition is_cidr_mask (m : Z) : Prop := ∃ p, 0 <= p <= 32 ∧ m = cidr_mask p.

(** The invariants in recursive form: every range is well formed and starts
    above [lo], and the rest lies above the address after its last one. *)
Fixpoint separated (lo : Z) (rs : list IPRange) : Prop :=
  match rs with
  | [] => True
  | r :: rest => lo < First r ∧ wf_range r ∧ separated (Last r + 1) rest
  end.

(** ** The loops as recursion on the list *)

(** [tryMerge] at the head of a list. *)
Definition merge_head (rs : list IPRange) : list IPRange :=
  match rs with
  | a :: b :: rest =>
    if Minus (First b) (Last a) =? 1 then mkIPRange (First a) (Last b) :: rest else rs
  | _ => rs
  end.

(** What the loop of [InsertIP] does to the ranges it has not passed yet. *)
Fixpoint insert_ranges (rs : list IPRange) (ip : Z) : list IPRange * bool :=
  match rs with
  | [] => ([IPtoIPRange ip], true)
  | r :: rest =>
    if Contains r ip then (rs, false)
    else if Minus (First r) ip >? 1 then (IPtoIPRange ip :: rs, true)
    else if Minus (First r) ip =? 1 then (mkIPRange ip (Last r) :: rest, true)
    else if Minus (Last r) ip =? -1 then (merge_head (mkIPRange (First r) ip :: rest), true)
    else let '(rest', ok) := insert_ranges rest ip in (r :: rest', ok)
  end.

(** The four cases of [RemoveIP] on the range that holds the address. *)
Definition remove_from_range (r : IPRange) (ip : Z) : list IPRange :=
  if IP_Equal (First r) (Last r) then []
  else if IP_Equal (First r) ip then
    [mkIPRange (IntToIP (u32 (IPToInt (First r) + 1))) (Last r)]
  else if IP_Equal (Last r) ip then
    [mkIPRange (First r) (IntToIP (u32 (IPToInt (Last r) - 1)))]
  else [mkIPRange (First r) (IntToIP (u32 (IPToInt ip - 1)));
        mkIPRange (IntToIP (u32 (IPToInt ip + 1))) (Last r)].

(** What the loop of [RemoveIP] does to the ranges it has not passed yet. *)
Fixpoint remove_ranges (rs : list IPRange) (ip : Z) : list IPRange * bool :=
  match rs with
  | [] => ([], false)
  | r :: rest =>
    if Contains r ip then (remove_from_range r ip ++ rest, true)
    else let '(rest', ok) := remove_ranges rest ip in (r :: rest', ok)
  end.

(** ** The configuration codec *)

(** The text of a range, as [pkg/utils/nets] prints and parses it.
    [IPRange.String] and [nets.ParseIPRange] are missing from the sources:
    the codec below takes them as an interface; [ParseIPRange] answers
    [None] where the Go function answers [nil]. *)
Class RangeText : Type := {
  IPRange_String : IPRange → string;
  ParseIPRange : string → option IPRange
}.

(** What the spec says of the two: they share one grammar, so that a printed
    range of the data model parses back to itself, and so does the print of
    whatever range a text parses to. *)
Class RangeTextLaws (T : RangeText) : Prop := {
  parse_String : ∀ r, wf_range r → ParseIPRange (IPRange_String r) = Some r;
  parse_canonical : ∀ s r, ParseIPRange s = Some r → ParseIPRange (IPRange_String r) = Some r
}.

(** [FloatingIPPoolConf], the document once [encoding/json] has read it:
    a pointer or [net.IP] field is [None] when the document has no such
    key. *)
Record FloatingIPPoolConf : Type := mkConf {
  conf_RoutableSubnet : option IPNet;
  conf_IPs : list string;
  conf_Subnet : option IPNet;
  conf_Gateway : option Z;
  conf_Vlan : Z
}.

(** The errors [UnmarshalJSON] and [fipCheck] build with [fmt.Errorf], with
    the values their messages name. *)
Inductive error : Type :=
| ErrRoutableSubnetEmpty                      (* "routable subnet is empty" *)
| ErrGatewayEmpty                             (* "gateway is empty" *)
| ErrSubnetEmpty                              (* "subnet is empty" *)
| ErrInvalidIPRange (str : string)            (* "invalid ip range %s" *)
| ErrNotInSubnet (ipr : IPRange) (net : IPNet)  (* "ip range %s not in subnet %s" *)
| ErrMergeOrOrder (prev ipr : IPRange).
    (* "ip range %s and %s can be merge to one or has wrong order" *)

(** Go's [net.IP.Mask]. *)
Definition IP_Mask (ip mask : Z) : Z := Z.land ip mask.

(** [MarshalJSON], up to the document it hands to [json.Marshal]; the loop
    appends the text of each range in turn. *)
Definition MarshalJSON `{T : RangeText} (fip : FloatingIPPool) : FloatingIPPoolConf :=
  mkConf (Some (RoutableSubnet fip))
         (fold_left (fun ips ipr => ips ++ [IPRange_String ipr]) (IPRanges fip) [])
         (Some (SparseSubnet_IPNet fip))
         (Some (Gateway fip))
         (Vlan fip).

(** The loop of [fipCheck], entered at index [i] with [k] iterations left;
    the sum [IPToInt(Last) + 1] is computed in [uint32]. *)
Fixpoint fipCheck_loop (net : IPNet) (rs : list IPRange) (k i : nat)
  : option (option error) :=
  match k with
  | O => Some None
  | S k' =>
    r ← rs !! i;
    if negb (IPNet_Contains net (First r)) || negb (IPNet_Contains net (Last r))
    then Some (Some (ErrNotInSubnet r net))
    else if negb (i =? 0)%nat then
      prev ← rs !! (i - 1)%nat;
      if IPToInt (First r) <=? u32 (IPToInt (Last prev) + 1)
      then Some (Some (ErrMergeOrOrder prev r))
      else fipCheck_loop net rs k' (S i)
    else fipCheck_loop net rs k' (S i)
  end.

Definition fipCheck (fip : FloatingIPPool) : option (option error) :=
  fipCheck_loop (mkIPNet (Gateway fip) (Mask fip)) (IPRanges fip)
                (length (IPRanges fip)) 0.

(** The loop of [UnmarshalJSON] over [conf.IPs]: each parsed range is
    appended to the ranges the pool already has. *)
Fixpoint parse_ranges `{T : RangeText} (rs : list IPRange) (strs : list string)
  : list IPRange * option error :=
  match strs with
  | [] => (rs, None)
  | str :: strs' =>
    match ParseIPRange str with
    | Some ipr => parse_ranges (rs ++ [ipr]) strs'
    | None => (rs, Some (ErrInvalidIPRange str))
    end
  end.

(** [UnmarshalJSON] on the document [json.Unmarshal] has read: the pool as
    the call leaves it, and the error it returns ([None] for [nil]). *)
Definition UnmarshalJSON `{T : RangeText} (fip : FloatingIPPool) (conf : FloatingIPPoolConf)
  : option (FloatingIPPool * option error) :=
  match conf_RoutableSubnet conf with
  | None => Some (fip, Some ErrRoutableSubnetEmpty)
  | Some ipNet =>
    let routable := mkIPNet (IP_Mask (net_IP ipNet) (net_Mask ipNet)) (net_Mask ipNet) in
    let fip1 := mkPool routable (IPRanges fip) (Gateway fip) (Mask fip) (Vlan fip) in
    match conf_Gateway conf with
    | None => Some (fip1, Some ErrGatewayEmpty)
    | Some gw =>
      let fip2 := mkPool routable (IPRanges fip) gw (Mask fip) (Vlan fip) in
      match conf_Subnet conf with
      | None => Some (fip2, Some ErrSubnetEmpty)
      | Some subnet =>
        let '(rs, err) := parse_ranges (IPRanges fip) (conf_IPs conf) in
        let fip3 := mkPool routable rs gw (net_Mask subnet) (conf_Vlan conf) in
        match err with
        | Some e => Some (fip3, Some e)
        | None => e ← fipCheck fip3; Some (fip3, e)
        end
      end
    end
  end.

(** The loop of [fipCheck] as recursion on the list, with the range before
    the current one at hand. *)
Fixpoint check_ranges (net : IPNet) (prev : option IPRange) (rs : list IPRange)
  : option error :=
  match rs with
  | [] => None
  | r :: rest =>
    if negb (IPNet_Contains net (First r)) || negb (IPNet_Contains net (Last r))
    then Some (ErrNotInSubnet r net)
    else
      match prev with
      | Some p =>
        if IPToInt (First r) <=? u32 (IPToInt (Last p) + 1)
        then Some (ErrMergeOrOrder p r)
        else check_ranges net (Some r) rest
      | None => check_ranges net (Some r) rest
      end
  end.

(** A range whose two addresses are IPv4 and whose last address is not the
    highest one, so that the address after it exists. *)
Definition below_top (r : IPRange) : Prop :=
  is_ip (First r) ∧ is_ip (Last r) ∧ Last r + 1 < uint32_modulus.

(** A pool before anything was decoded into it: no ranges yet. *)
Definition fresh_pool : FloatingIPPool := mkPool (mkIPNet 0 0) [] 0 0 0.

(** ** The ordering of pools *)

(** Modelled from the spec: [nets.FirstAndLastIP] is missing from the
    sources; the numeric values of the first and the last address of a
    subnet. *)
Definition FirstAndLastIP (n : IPNet) : Z * Z :=
  let first := IPToInt (Z.land (net_IP n) (net_Mask n)) in
  (first, u32 (Z.lor first (Z.lxor (net_Mask n) (uint32_modulus - 1)))).

(** [FloatingIPSlice]. *)
Definition FloatingIPSlice : Type := list FloatingIPPool.

Definition Len (s : FloatingIPSlice) : nat := length s.

Definition Swap (s : FloatingIPSlice) (i j : nat) : option FloatingIPSlice :=
  si ← s !! i;
  sj ← s !! j;
  Some (<[j := si]> (<[i := sj]> s)).

Definition Less (s : FloatingIPSlice) (i j : nat) : option bool :=
  si ← s !! i;
  sj ← s !! j;
  let '(i1, _) := FirstAndLastIP (RoutableSubnet si) in
  let '(j1, _) := FirstAndLastIP (RoutableSubnet sj) in
  Some (i1 <? j1).

(** Go's [sort.Sort] on a short slice is an insertion sort through [Less]
    and [Swap]: the element at [j] moves down while it is less than the one
    before it. *)
Fixpoint sift_down (s : FloatingIPSlice) (j : nat) : option FloatingIPSlice :=
  match j with
  | O => Some s
  | S j' =>
    lt ← Less s j j';
    if lt : bool then s' ← Swap s j j'; sift_down s' j' else Some s
  end.

Fixpoint insertion_from (k i : nat) (s : FloatingIPSlice) : option FloatingIPSlice :=
  match k with
  | O => Some s
  | S k' => s' ← sift_down s i; insertion_from k' (S i) s'
  end.

Definition Sort (s : FloatingIPSlice) : option FloatingIPSlice :=
  insertion_from (Len s - 1) 1 s.

(** ** Dotted-decimal text *)

(** Modelled from the spec: the text grammar of [IPRange.String] and
    [nets.ParseIPRange], which are missing from the sources. A range prints
    as a single address when [First == Last] and as [first-last] otherwise;
    an address is four decimal bytes separated by dots. *)
Module DottedText.

Definition digit (d : Z) : ascii := ascii_of_nat (Z.to_nat (48 + d)).

Definition byte_String (b : Z) : string :=
  if b <? 10 then String (digit b) EmptyString
  else if b <? 100 then String (digit (b / 10)) (String (digit (b mod 10)) EmptyString)
  else String (digit (b / 100))
         (String (digit (b / 10 mod 10)) (String (digit (b mod 10)) EmptyString)).

Definition dot : ascii := ascii_of_nat 46.
Definition dash : ascii := ascii_of_nat 45.

(** Modelled from the spec: the text of an address, four decimal bytes
    separated by dots (Go's [net.IP.String] on IPv4). *)
Definition IP_String (a : Z) : string :=
  byte_String (a / 2 ^ 24 mod 256) +:+ String dot
    (byte_String (a / 2 ^ 16 mod 256) +:+ String dot
       (byte_String (a / 2 ^ 8 mod 256) +:+ String dot
          (byte_String (a mod 256)))).

Definition digit_value (c : ascii) : option Z :=
  let n := Z.of_nat (nat_of_ascii c) in
  if (48 <=? n) && (n <=? 57) then Some (n - 48) else None.

Fixpoint read_digits (s : string) (acc : Z) : Z * string :=
  match s with
  | String c s' =>
    match digit_value c with
    | Some d => read_digits s' (10 * acc + d)
    | None => (acc, s)
    end
  | EmptyString => (acc, s)
  end.

(** A decimal number of at most 255, at least one digit long. *)
Definition read_byte (s : string) : option (Z * string) :=
  match s with
  | String c _ =>
    match digit_value c with
    | Some _ => let '(n, rest) := read_digits s 0 in
                if n <=? 255 then Some (n, rest) else None
    | None => None
    end
  | EmptyString => None
  end.

Definition expect_dot (s : string) : option string :=
  match s with
  | String c s' => if Ascii.eqb c dot then Some s' else None
  | EmptyString => None
  end.

(** Modelled from the spec: the address a text spells, if any. *)
Definition ParseIP (s : string) : option Z :=
  '(a, s1) ← read_byte s;
  s2 ← expect_dot s1;
  '(b, s3) ← read_byte s2;
  s4 ← expect_dot s3;
  '(c, s5) ← read_byte s4;
  s6 ← expect_dot s5;
  '(d, s7) ← read_byte s6;
  match s7 with
  | EmptyString => Some (((a * 256 + b) * 256 + c) * 256 + d)
  | String _ _ => None
  end.

(** The text before and after the first dash, when there is one. *)
Fixpoint split_dash (s : string) : option (string * string) :=
  match s with
  | EmptyString => None
  | String c s' =>
    if Ascii.eqb c dash then Some (EmptyString, s')
    else '(a, b) ← split_dash s'; Some (String c a, b)
  end.

(** Modelled from the spec: [IPRange.String] is missing from the sources;
    a single address when [First == Last], [first-last] otherwise. *)
Definition String_of_range (r : IPRange) : string :=
  if First r =? Last r then IP_String (First r)
  else IP_String (First r) +:+ String dash (IP_String (Last r)).

(** Modelled from the spec: [nets.ParseIPRange] is missing from the
    sources; a single address or [addr1-addr2]. *)
Definition Parse_range (s : string) : option IPRange :=
  match split_dash s with
  | None => a ← ParseIP s; Some (mkIPRange a a)
  | Some (s1, s2) => a ← ParseIP s1; b ← ParseIP s2; Some (mkIPRange a b)
  end.

(** A text that does not go on with a digit. *)
Definition stops (s : string) : Prop :=
  match s with
  | String c _ => digit_value c = None
  | EmptyString => True
  end.

(** A text without a dash. *)
Fixpoint dashless (s : string) : bool :=
  match s with
  | EmptyString => true
  | String c s' => negb (Ascii.eqb c dash) && dashless s'
  end.

#[export] Instance text : RangeText :=
  {| IPRange_String := String_of_range; ParseIPRange := Parse_range |}.

End DottedText.

(** ** Documents and pools of the examples *)

(** 10.0.1.0/24 and 10.0.2.0/24. *)
Definition net_10_0_1 : IPNet := mkIPNet 167772416 4294967040.
Definition net_10_0_2 : IPNet := mkIPNet 167772672 4294967040.

(** A pool of the subnet 10.0.0.0/24 with gateway 10.0.0.1 that holds
    10.0.0.2-10.0.0.5. *)
Definition pool_10_0_0 : FloatingIPPool :=
  mkPool net_10_0_1 [mkIPRange 167772162 167772165] 167772161 4294967040 7.

(** A document of the same subnet that declares 10.0.0.9 and
    10.0.0.20-10.0.0.30. *)
Definition conf_10_0_0 : FloatingIPPoolConf :=
  mkConf (Some (mkIPNet 167772417 4294967040))
         ["10.0.0.9"; "10.0.0.20-10.0.0.30"]%string
         (Some (mkIPNet 167772160 4294967040)) (Some 167772161) 7.

(** A document whose subnet is 10.0.0.0/24 and whose gateway, 192.168.0.1,
    and range, 192.168.0.5, are of another subnet. *)
Definition conf_other_subnet : FloatingIPPoolConf :=
  mkConf (Some net_10_0_1) ["192.168.0.5"]%string
         (Some (mkIPNet 167772160 4294967040)) (Some 3232235521) 0.

(** A document of the subnet 255.255.255.0/24 that declares
    255.255.255.255 and then 255.255.255.3. *)
Definition conf_wrapped_order : FloatingIPPoolConf :=
  mkConf (Some net_10_0_1) ["255.255.255.255"; "255.255.255.3"]%string
         (Some (mkIPNet 4294967040 4294967040)) (Some 4294967041) 0.

(** Two pools, of the routable subnets 10.0.1.0/24 and 10.0.2.0/24. *)
Definition pool_routable_1 : FloatingIPPool :=
  mkPool net_10_0_1 [mkIPRange 167772162 167772165] 167772161 4294967040 0.
Definition pool_routable_2 : FloatingIPPool :=
  mkPool net_10_0_2 [mkIPRange 167772262 167772265] 167772161 4294967040 0.

(** The numeric value of the first address of the routable subnet of a
    pool. *)
Definition first_address (fip : FloatingIPPool) : Z :=
  (FirstAndLastIP (RoutableSubnet fip)).1.

(** The invariants as a test that computes, for pools whose mask is a CIDR
    prefix: there the subnet is an interval, and a range lies in it as soon
    as its two endpoints do. *)
Fixpoint separatedb (lo : Z) (rs : list IPRange) : bool :=
  match rs with
  | [] => true
  | r :: rest =>
    (lo <? First r) && is_ipb (First r) && is_ipb (Last r) && (First r <=? Last r)
    && separatedb (Last r + 1) rest
  end.

Definition is_cidr_maskb (m : Z) : bool :=
  existsb (fun p => m =? cidr_mask (Z.of_nat p)) (seq 0 33).

Definition endpoints_in (n : IPNet) (r : IPRange) : bool :=
  IPNet_Contains n (First r) && IPNet_Contains n (Last r).

Definition valid_poolb (fip : FloatingIPPool) : bool :=
  separatedb (-1) (IPRanges fip) && is_cidr_maskb (Mask fip) && is_ipb (Gateway fip)
  && forallb (endpoints_in (SparseSubnet_IPNet fip)) (IPRanges fip).

(** Pools of the subnet 0.0.0.0/24 with gateway 0.0.0.1, for the examples. *)
Definition ex_pool (rs : list IPRange) : FloatingIPPool :=
  mkPool (mkIPNet 0 0) rs 1 4294967040 0.

(** ** The number of available addresses *)

Definition range_size (r : IPRange) : Z := Last r - First r + 1.

Fixpoint pool_size (rs : list IPRange) : Z :=
  match rs with
  | [] => 0
  | r :: rest => range_size r + pool_size rest
  end.

(** ** What a call does to the set of available addresses *)

(** Whether address [x] is available after operation [o] on a pool of the
    subnet [net], given whether it was available before: a call on an
    address outside the subnet changes nothing. *)
Definition op_effect (net : IPNet) (o : Op) (x : Z) (before : bool) : bool :=
  if IPNet_Contains net (op_ip o) then
    match o with
    | OpInsert ip => before || (x =? ip)
    | OpRemove ip => before && negb (x =? ip)
    end
  else before.

(** * Proofs *)

(** ** Machine integers *)

Lemma u32_range x : is_ip (u32 x).
Proof. unfold is_ip, u32, uint32_modulus. apply Z.mod_pos_bound. lia. Qed.

Lemma u32_id x : is_ip x → u32 x = x.
Proof. unfold is_ip, u32. intros H. apply Z.mod_small. exact H. Qed.

Lemma i64_small x : - int64_half <= x < int64_half → i64 x = x.
Proof.
  unfold i64. intros H. rewrite Z.mod_small; lia.
Qed.

Lemma Minus_u32 a b : Minus a b = u32 a - u32 b.
Proof.
  unfold Minus, IPToInt. apply i64_small.
  pose proof (u32_range a) as Ha. pose proof (u32_range b) as Hb.
  unfold is_ip, uint32_modulus in *. unfold int64_half. lia.
Qed.

Lemma Minus_ip a b : is_ip a → is_ip b → Minus a b = a - b.
Proof. intros Ha Hb. rewrite Minus_u32, !u32_id; auto. Qed.

Lemma Contains_ip r x :
  is_ip (First r) → is_ip (Last r) → is_ip x →
  Contains r x = true ↔ First r <= x <= Last r.
Proof.
  intros H1 H2 H3. unfold Contains, IPToInt. rewrite !u32_id by assumption.
  rewrite andb_true_iff, !Z.leb_le. tauto.
Qed.

(** ** Slices around an index *)

Section slices.
Context {A : Type}.
Implicit Types (pre rest : list A) (a b x : A).

Lemma lookup_at pre a rest : (pre ++ a :: rest) !! length pre = Some a.
Proof. by apply list_lookup_middle. Qed.

Lemma lookup_after pre a b rest : (pre ++ a :: b :: rest) !! S (length pre) = Some b.
Proof.
  replace (pre ++ a :: b :: rest) with ((pre ++ [a]) ++ b :: rest)
    by (by rewrite <- app_assoc).
  apply list_lookup_middle. rewrite length_app. cbn. lia.
Qed.

Lemma insert_at pre a x rest : <[length pre := x]> (pre ++ a :: rest) = pre ++ x :: rest.
Proof.
  rewrite insert_app_r_alt by lia.
  replace (length pre - length pre)%nat with 0%nat by lia. reflexivity.
Qed.

Lemma insert_after pre a b x rest :
  <[S (length pre) := x]> (pre ++ a :: b :: rest) = pre ++ a :: x :: rest.
Proof.
  rewrite insert_app_r_alt by lia.
  replace (S (length pre) - length pre)%nat with 1%nat by lia. reflexivity.
Qed.

Lemma take_at pre rest : take (length pre) (pre ++ rest) = pre.
Proof. apply take_app_length. Qed.

Lemma drop_at pre rest : drop (length pre) (pre ++ rest) = rest.
Proof. apply drop_app_length. Qed.

Lemma take_after pre a rest : take (S (length pre)) (pre ++ a :: rest) = pre ++ [a].
Proof.
  rewrite take_app_ge by lia.
  replace (S (length pre) - length pre)%nat with 1%nat by lia. reflexivity.
Qed.

Lemma drop_after pre a rest : drop (S (length pre)) (pre ++ a :: rest) = rest.
Proof.
  rewrite drop_app_ge by lia.
  replace (S (length pre) - length pre)%nat with 1%nat by lia. reflexivity.
Qed.

Lemma drop_after2 pre a b rest :
  drop (S (S (length pre))) (pre ++ a :: b :: rest) = rest.
Proof.
  rewrite drop_app_ge by lia.
  replace (S (S (length pre)) - length pre)%nat with 2%nat by lia. reflexivity.
Qed.
End slices.

(** ** The loops and their recursive forms *)

Lemma tryMerge_negative rs i : i < 0 → tryMerge rs i = Some rs.
Proof.
  intros H. unfold tryMerge.
  destruct (Z.ltb_spec i 0) as [_|Hge]; [reflexivity | lia].
Qed.

Lemma tryMerge_at pre suf :
  suf ≠ [] →
  tryMerge (pre ++ suf) (Z.of_nat (length pre)) = Some (pre ++ merge_head suf).
Proof.
  intros Hne. unfold tryMerge.
  destruct (Z.ltb_spec (Z.of_nat (length pre)) 0) as [Hlt|_]; [lia|].
  rewrite Nat2Z.id. cbn [orb].
  destruct suf as [|a [|b rest]]; [congruence| |].
  - rewrite length_app. cbn [length].
    destruct (Z.eqb_spec (Z.of_nat (length pre) + 1) (Z.of_nat (length pre + 1)));
      [reflexivity | lia].
  - rewrite length_app. cbn [length].
    destruct (Z.eqb_spec (Z.of_nat (length pre) + 1)
                (Z.of_nat (length pre + S (S (length rest))))) as [Heq|_]; [lia|].
    rewrite lookup_at, lookup_after.
    cbn [mbind option_bind merge_head].
    destruct (Minus (First b) (Last a) =? 1); [|reflexivity].
    rewrite insert_at, take_after, drop_after2.
    rewrite length_app. cbn [length].
    destruct (Z.ltb_spec (Z.of_nat (length pre) + 2)
                (Z.of_nat (length pre + S (S (length rest))))) as [Hlt|Hge].
    + rewrite <- app_assoc. reflexivity.
    + assert (rest = []) as -> by (destruct rest; [reflexivity | cbn in Hge; lia]).
      reflexivity.
Qed.

(** After a low-side extension the merge with the previous range never
    fires: the loop has already passed that range without extending it. *)
Lemma tryMerge_previous pre r rest ip :
  (∀ p, last pre = Some p → Minus (Last p) ip ≠ -1) →
  tryMerge (pre ++ mkIPRange ip (Last r) :: rest) (Z.of_nat (length pre) - 1)
  = Some (pre ++ mkIPRange ip (Last r) :: rest).
Proof.
  intros Hlast.
  destruct pre as [|p0 pre0 _] using rev_ind.
  - apply tryMerge_negative. cbn. lia.
  - rewrite length_app. cbn [length].
    replace (Z.of_nat (length pre0 + 1) - 1) with (Z.of_nat (length pre0)) by lia.
    rewrite <- app_assoc. cbn [app].
    rewrite tryMerge_at by congruence.
    cbn [merge_head First Last].
    specialize (Hlast p0 (last_snoc _ _)).
    rewrite Minus_u32 in *.
    destruct (Z.eqb_spec (u32 ip - u32 (Last p0)) 1) as [Heq|_]; [lia | reflexivity].
Qed.

Lemma InsertIP_loop_ranges ip suf : ∀ pre,
  (∀ p, last pre = Some p → Minus (Last p) ip ≠ -1) →
  InsertIP_loop (length suf) (length pre) (pre ++ suf) ip
  = Some (pre ++ (insert_ranges suf ip).1, (insert_ranges suf ip).2).
Proof.
  induction suf as [|r rest IH]; intros pre Hlast.
  - cbn. rewrite app_nil_r. reflexivity.
  - cbn [length InsertIP_loop insert_ranges].
    rewrite lookup_at. cbn [mbind option_bind].
    destruct (Contains r ip); [reflexivity|].
    destruct (Minus (First r) ip >? 1).
    { destruct (Nat.eqb_spec (length pre) 0) as [H0|H0].
      - destruct pre; [reflexivity | discriminate].
      - rewrite take_at, drop_at. reflexivity. }
    destruct (Minus (First r) ip =? 1).
    { rewrite insert_at, tryMerge_previous by assumption. reflexivity. }
    destruct (Z.eqb_spec (Minus (Last r) ip) (-1)) as [Hext|Hno].
    { rewrite insert_at, tryMerge_at by congruence. reflexivity. }
    specialize (IH (pre ++ [r])).
    rewrite length_app in IH. cbn [length] in IH.
    replace (length pre + 1)%nat with (S (length pre)) in IH by lia.
    rewrite <- app_assoc in IH. cbn [app] in IH.
    rewrite IH.
    + destruct (insert_ranges rest ip) as [rest' ok]. cbn [fst snd].
      rewrite <- app_assoc. reflexivity.
    + intros p Hp. rewrite last_snoc in Hp. congruence.
Qed.

Lemma RemoveIP_loop_ranges ip suf : ∀ pre,
  RemoveIP_loop (length suf) (length pre) (pre ++ suf) ip
  = Some (pre ++ (remove_ranges suf ip).1, (remove_ranges suf ip).2).
Proof.
  induction suf as [|r rest IH]; intros pre.
  - cbn. rewrite app_nil_r. reflexivity.
  - cbn [length RemoveIP_loop remove_ranges].
    rewrite lookup_at. cbn [mbind option_bind].
    destruct (Contains r ip).
    { unfold remove_from_range. cbn [fst snd].
      destruct (IP_Equal (First r) (Last r)).
      { rewrite take_at, drop_after. reflexivity. }
      destruct (IP_Equal (First r) ip).
      { rewrite insert_at. reflexivity. }
      destruct (IP_Equal (Last r) ip).
      { rewrite insert_at. reflexivity. }
      rewrite take_after, drop_after. rewrite <- app_assoc. cbn [app].
      rewrite lookup_at. cbn [mbind option_bind First].
      rewrite insert_at, lookup_after. cbn [mbind option_bind Last].
      rewrite insert_after. reflexivity. }
    specialize (IH (pre ++ [r])).
    rewrite length_app in IH. cbn [length] in IH.
    replace (length pre + 1)%nat with (S (length pre)) in IH by lia.
    rewrite <- app_assoc in IH. cbn [app] in IH.
    rewrite IH.
    destruct (remove_ranges rest ip) as [rest' ok]. cbn [fst snd].
    rewrite <- app_assoc. reflexivity.
Qed.

(** ** Arithmetic of addresses *)

Ltac ip_facts :=
  repeat match goal with
  | H : wf_range _ |- _ => destruct H as (? & ? & ?)
  | H : separated _ (_ :: _) |- _ => destruct H as (? & ? & ?)
  end.

Ltac ip_norm :=
  rewrite ?Minus_u32 in *;
  unfold Contains, IPToInt, IntToIP, IP_Equal, IPtoIPRange in *;
  cbn [First Last] in *;
  repeat match goal with
  | H : is_ip ?a |- context [u32 ?a] => rewrite (u32_id a H)
  | H : is_ip ?a, H' : context [u32 ?a] |- _ => rewrite (u32_id a H) in H'
  end.

Ltac zbool :=
  repeat match goal with
  | |- context [?a >? ?b] => rewrite (Z.gtb_ltb a b)
  | H : context [?a >? ?b] |- _ => rewrite (Z.gtb_ltb a b) in H
  | H : (_ && _) = true |- _ => apply andb_true_iff in H as [? ?]
  | H : (_ && _) = false |- _ => apply andb_false_iff in H as [?|?]
  | H : (_ =? _) = true |- _ => apply Z.eqb_eq in H
  | H : (_ =? _) = false |- _ => apply Z.eqb_neq in H
  | H : (_ <? _) = true |- _ => apply Z.ltb_lt in H
  | H : (_ <? _) = false |- _ => apply Z.ltb_ge in H
  | H : (_ <=? _) = true |- _ => apply Z.leb_le in H
  | H : (_ <=? _) = false |- _ => apply Z.leb_gt in H
  | |- context [?a <=? ?b] => destruct (Z.leb_spec a b)
  | |- context [?a <? ?b] => destruct (Z.ltb_spec a b)
  | |- context [?a =? ?b] => destruct (Z.eqb_spec a b)
  end;
  cbn [andb orb negb] in *.

Ltac ip_lia :=
  unfold is_ip, wf_range, uint32_modulus, IPtoIPRange in *; cbn [First Last] in *; lia.

Lemma separated_weaken rs : ∀ lo lo', lo' <= lo → separated lo rs → separated lo' rs.
Proof.
  destruct rs as [|r rest]; cbn; [tauto|].
  intros lo lo' Hle (H1 & H2 & H3). repeat split; try apply H2; try assumption; lia.
Qed.

Lemma separated_wf rs : ∀ lo, separated lo rs → Forall wf_range rs.
Proof.
  induction rs as [|r rest IH]; intros lo H; [constructor|].
  destruct H as (_ & Hwf & Hrest). constructor; eauto.
Qed.

(** Every address of a separated list lies above its lower bound. *)
Lemma separated_above rs : ∀ lo x,
  separated lo rs → is_ip x → pool_Contains rs x = true → lo < x.
Proof.
  induction rs as [|r rest IH]; intros lo x Hsep Hx Hin; [discriminate|].
  cbn [pool_Contains existsb] in Hin. ip_facts.
  apply orb_true_iff in Hin as [Hin|Hin].
  - apply Contains_ip in Hin; try assumption. lia.
  - specialize (IH _ _ H1 Hx Hin). ip_lia.
Qed.

Lemma separated_below rs lo x :
  separated lo rs → is_ip x → x <= lo → pool_Contains rs x = false.
Proof.
  intros Hsep Hx Hle. destruct (pool_Contains rs x) eqn:E; [|reflexivity].
  pose proof (separated_above _ _ _ Hsep Hx E). lia.
Qed.

Ltac u32_simpl :=
  repeat match goal with
  | |- context [u32 ?a] => rewrite (u32_id a) by ip_lia
  end.

Ltac sep_solve :=
  try (exfalso; ip_lia);
  unfold IPtoIPRange;
  cbn [separated fst snd]; unfold wf_range; cbn [First Last];
  repeat split;
  try first [ assumption | ip_lia
            | eapply separated_weaken; [|eassumption]; ip_lia ].

(** ** [InsertIP] on a separated list *)

Lemma merge_head_separated lo r rest ip :
  is_ip ip → lo < First r → is_ip (First r) → First r <= ip →
  separated ip rest →
  separated lo (merge_head (mkIPRange (First r) ip :: rest)).
Proof.
  intros Hip Hlo Hf Hle Hrest.
  destruct rest as [|b rest']; cbn [merge_head First Last].
  - sep_solve.
  - ip_facts. ip_norm. zbool; sep_solve.
Qed.

Lemma merge_head_cover r rest ip x :
  is_ip ip → is_ip x → is_ip (First r) → First r <= ip → Forall wf_range rest →
  pool_Contains (merge_head (mkIPRange (First r) ip :: rest)) x
  = pool_Contains (mkIPRange (First r) ip :: rest) x.
Proof.
  intros Hip Hx Hf Hle Hwf.
  destruct rest as [|b rest']; cbn [merge_head First Last]; [reflexivity|].
  apply Forall_cons in Hwf as [Hb _]. ip_facts.
  destruct (Minus (First b) ip =? 1) eqn:E; [|reflexivity].
  cbn [pool_Contains existsb]. rewrite orb_assoc. f_equal.
  ip_norm. zbool; lia.
Qed.

Lemma insert_ranges_separated rs : ∀ lo ip,
  is_ip ip → separated lo rs → lo < ip → separated lo (insert_ranges rs ip).1.
Proof.
  induction rs as [|r rest IH]; intros lo ip Hip Hsep Hlo.
  - cbn [insert_ranges IPtoIPRange]. sep_solve.
  - cbn [insert_ranges]. ip_facts.
    destruct (Contains r ip) eqn:Hc; [sep_solve|].
    destruct (Minus (First r) ip >? 1) eqn:Hgt.
    { ip_norm. zbool; sep_solve. }
    destruct (Minus (First r) ip =? 1) eqn:Hlow.
    { ip_norm. zbool; sep_solve. }
    destruct (Minus (Last r) ip =? -1) eqn:Hhigh.
    { cbn [fst]. ip_norm. zbool; try (exfalso; ip_lia).
      apply merge_head_separated; sep_solve. }
    specialize (IH (Last r + 1) ip Hip H1).
    destruct (insert_ranges rest ip) as [rest' ok]. cbn [fst] in *.
    ip_norm. zbool; sep_solve. apply IH. lia.
Qed.

Lemma insert_ranges_cover rs : ∀ lo ip x,
  is_ip ip → is_ip x → separated lo rs →
  pool_Contains (insert_ranges rs ip).1 x = pool_Contains rs x || (x =? ip).
Proof.
  induction rs as [|r rest IH]; intros lo ip x Hip Hx Hsep.
  - cbn. ip_norm. zbool; lia.
  - cbn [insert_ranges]. ip_facts.
    destruct (Contains r ip) eqn:Hc.
    { cbn [fst pool_Contains existsb]. ip_norm. zbool; try lia; try reflexivity.
      all: rewrite orb_false_r; reflexivity. }
    destruct (Minus (First r) ip >? 1) eqn:Hgt.
    { cbn [fst pool_Contains existsb]. ip_norm.
      destruct (existsb _ rest); zbool; lia. }
    destruct (Minus (First r) ip =? 1) eqn:Hlow.
    { cbn [fst pool_Contains existsb]. ip_norm.
      destruct (existsb _ rest); zbool; lia. }
    destruct (Minus (Last r) ip =? -1) eqn:Hhigh.
    { cbn [fst].
      assert (First r <= ip) by (ip_norm; zbool; lia).
      rewrite merge_head_cover; try assumption.
      2: eapply separated_wf; eassumption.
      cbn [pool_Contains existsb]. ip_norm.
      destruct (existsb _ rest); zbool; lia. }
    specialize (IH (Last r + 1) ip x Hip Hx H1).
    destruct (insert_ranges rest ip) as [rest' ok]. cbn [fst] in *.
    cbn [pool_Contains existsb]. fold (pool_Contains rest' x).
    rewrite IH. fold (pool_Contains rest x).
    rewrite orb_assoc. reflexivity.
Qed.

(** [InsertIP] answers true exactly when the address was not available. *)
Lemma insert_ranges_ok rs : ∀ lo ip,
  is_ip ip → separated lo rs →
  (insert_ranges rs ip).2 = negb (pool_Contains rs ip).
Proof.
  induction rs as [|r rest IH]; intros lo ip Hip Hsep; [reflexivity|].
  cbn [insert_ranges pool_Contains existsb]. ip_facts.
  destruct (Contains r ip) eqn:Hc; [reflexivity|].
  cbn [orb]. fold (pool_Contains rest ip).
  destruct (Minus (First r) ip >? 1) eqn:Hgt.
  { cbn [snd]. rewrite (separated_below rest (Last r + 1) ip); auto.
    ip_norm. zbool; lia. }
  destruct (Minus (First r) ip =? 1) eqn:Hlow.
  { cbn [snd]. rewrite (separated_below rest (Last r + 1) ip); auto.
    ip_norm. zbool; lia. }
  destruct (Minus (Last r) ip =? -1) eqn:Hhigh.
  { cbn [snd]. rewrite (separated_below rest (Last r + 1) ip); auto.
    ip_norm. zbool; lia. }
  specialize (IH (Last r + 1) ip Hip H1).
  destruct (insert_ranges rest ip) as [rest' ok]. exact IH.
Qed.

(** A refused release changes nothing, whatever the list. *)
Lemma insert_ranges_refused rs ip :
  (insert_ranges rs ip).2 = false → (insert_ranges rs ip).1 = rs.
Proof.
  induction rs as [|r rest IH]; cbn [insert_ranges]; [discriminate|].
  destruct (Contains r ip); [reflexivity|].
  destruct (Minus (First r) ip >? 1); [discriminate|].
  destruct (Minus (First r) ip =? 1); [discriminate|].
  destruct (Minus (Last r) ip =? -1); [discriminate|].
  destruct (insert_ranges rest ip) as [rest' ok]. cbn [fst snd] in *.
  intros H. rewrite (IH H). reflexivity.
Qed.

(** ** [RemoveIP] on a separated list *)

Lemma pool_Contains_app l1 l2 x :
  pool_Contains (l1 ++ l2) x = pool_Contains l1 x || pool_Contains l2 x.
Proof. apply existsb_app. Qed.

(** The four cases without wrap-around: the address after [First] and the one
    before [Last] exist whenever the range holds more than one address. *)
Lemma remove_from_range_exact r ip :
  wf_range r → is_ip ip → Contains r ip = true →
  remove_from_range r ip =
    if First r =? Last r then []
    else if First r =? ip then [mkIPRange (ip + 1) (Last r)]
    else if Last r =? ip then [mkIPRange (First r) (ip - 1)]
    else [mkIPRange (First r) (ip - 1); mkIPRange (ip + 1) (Last r)].
Proof.
  intros Hwf Hip Hc. unfold remove_from_range. ip_facts. ip_norm. zbool;
    try reflexivity; try (exfalso; lia); subst; u32_simpl; reflexivity.
Qed.

Lemma remove_ranges_separated rs : ∀ lo ip,
  is_ip ip → separated lo rs → separated lo (remove_ranges rs ip).1.
Proof.
  induction rs as [|r rest IH]; intros lo ip Hip Hsep; [exact I|].
  cbn [remove_ranges]. ip_facts.
  destruct (Contains r ip) eqn:Hc.
  - cbn [fst]. rewrite remove_from_range_exact by (unfold wf_range; auto).
    ip_norm. zbool; cbn [app]; sep_solve.
  - specialize (IH (Last r + 1) ip Hip H1).
    destruct (remove_ranges rest ip) as [rest' ok]. cbn [fst] in *. sep_solve.
Qed.

Lemma remove_ranges_cover rs : ∀ lo ip x,
  is_ip ip → is_ip x → separated lo rs →
  pool_Contains (remove_ranges rs ip).1 x = pool_Contains rs x && negb (x =? ip).
Proof.
  induction rs as [|r rest IH]; intros lo ip x Hip Hx Hsep; [reflexivity|].
  cbn [remove_ranges]. ip_facts.
  destruct (Contains r ip) eqn:Hc.
  - cbn [fst]. rewrite remove_from_range_exact by (unfold wf_range; auto).
    assert (Hrest : x = ip → pool_Contains rest x = false).
    { intros ->. apply (separated_below rest (Last r + 1)); auto.
      ip_norm. zbool. lia. }
    rewrite pool_Contains_app. cbn [pool_Contains existsb].
    fold (pool_Contains rest x).
    destruct (pool_Contains rest x) eqn:E.
    + assert (x ≠ ip) by (intros ->; specialize (Hrest eq_refl); discriminate).
      rewrite !orb_true_r. zbool; first [reflexivity | lia].
    + clear Hrest. rewrite !orb_false_r. ip_norm.
      zbool; cbn [pool_Contains existsb]; ip_norm; try lia;
        u32_simpl; zbool; lia.
  - specialize (IH (Last r + 1) ip x Hip Hx H1).
    destruct (remove_ranges rest ip) as [rest' ok]. cbn [fst] in *.
    cbn [pool_Contains existsb]. fold (pool_Contains rest' x) (pool_Contains rest x).
    rewrite IH. destruct (pool_Contains rest x); ip_norm; zbool; lia.
Qed.

(** [RemoveIP] answers true exactly when the address was available. *)
Lemma remove_ranges_ok rs ip : (remove_ranges rs ip).2 = pool_Contains rs ip.
Proof.
  induction rs as [|r rest IH]; [reflexivity|].
  cbn [remove_ranges pool_Contains existsb].
  destruct (Contains r ip); [reflexivity|].
  destruct (remove_ranges rest ip) as [rest' ok]. exact IH.
Qed.

(** A refused reservation changes nothing, whatever the list. *)
Lemma remove_ranges_refused rs ip :
  (remove_ranges rs ip).2 = false → (remove_ranges rs ip).1 = rs.
Proof.
  induction rs as [|r rest IH]; cbn [remove_ranges]; [reflexivity|].
  destruct (Contains r ip); [discriminate|].
  destruct (remove_ranges rest ip) as [rest' ok]. cbn [fst snd] in *.
  intros H. rewrite (IH H). reflexivity.
Qed.

(** Releasing what was just reserved rebuilds the list. *)
Lemma insert_remove_ranges rs : ∀ lo ip,
  is_ip ip → separated lo rs → pool_Contains rs ip = true →
  insert_ranges (remove_ranges rs ip).1 ip = (rs, true).
Proof.
  induction rs as [|r rest IH]; intros lo ip Hip Hsep Hin; [discriminate|].
  cbn [remove_ranges pool_Contains existsb] in *. ip_facts.
  destruct (Contains r ip) eqn:Hc.
  - cbn [fst]. rewrite remove_from_range_exact by (unfold wf_range; auto).
    destruct r as [f l]. cbn [First Last] in *.
    destruct (Z.eqb_spec f l) as [->|Hfl]; [|destruct (Z.eqb_spec f ip) as [->|Hf];
      [|destruct (Z.eqb_spec l ip) as [->|Hl]]]; cbn [app].
    + (* the singleton was deleted *)
      assert (l = ip) as -> by (ip_norm; zbool; lia).
      destruct rest as [|b rest']; [reflexivity|].
      cbn [insert_ranges]. ip_facts. ip_norm. zbool; try (exfalso; lia); reflexivity.
    + (* shrunk at First *)
      cbn [insert_ranges]. ip_norm.
      u32_simpl. zbool; try (exfalso; lia); reflexivity.
    + (* shrunk at Last *)
      cbn [insert_ranges]. ip_norm.
      u32_simpl. zbool; try (exfalso; lia).
      destruct rest as [|b rest']; cbn [merge_head First Last]; [reflexivity|].
      ip_facts. ip_norm. zbool; try (exfalso; lia); reflexivity.
    + (* split in two *)
      assert (f < ip < l) by (ip_norm; zbool; lia).
      cbn [insert_ranges]. ip_norm.
      u32_simpl. zbool; try (exfalso; lia).
      cbn [merge_head First Last]. ip_norm. u32_simpl.
      zbool; try (exfalso; lia); reflexivity.
  - cbn [orb] in Hin. fold (pool_Contains rest ip) in Hin.
    pose proof (separated_above _ _ _ H1 Hip Hin) as Habove.
    specialize (IH (Last r + 1) ip Hip H1 Hin).
    destruct (remove_ranges rest ip) as [rest' ok]. cbn [fst] in *.
    cbn [insert_ranges]. rewrite Hc, IH.
    ip_norm. zbool; try (exfalso; lia); reflexivity.
Qed.

(** ** The invariants, by index and by recursion *)

Lemma is_ipb_spec a : is_ipb a = true ↔ is_ip a.
Proof.
  unfold is_ipb, is_ip. rewrite andb_true_iff, Z.leb_le, Z.ltb_lt. tauto.
Qed.

Lemma separatedb_spec rs : ∀ lo, separatedb lo rs = true ↔ separated lo rs.
Proof.
  induction rs as [|r rest IH]; intros lo; cbn [separatedb separated]; [tauto|].
  rewrite !andb_true_iff, IH, !is_ipb_spec, Z.ltb_lt, Z.leb_le.
  unfold wf_range. tauto.
Qed.

Lemma separated_I2 rs : ∀ lo, separated lo rs → I2 rs.
Proof.
  induction rs as [|r rest IH]; intros lo Hsep i a b Ha Hb; [discriminate|].
  destruct Hsep as (_ & _ & Hrest).
  destruct i as [|i]; cbn in Ha, Hb.
  - destruct rest as [|r' rest']; [discriminate|].
    injection Ha as <-. injection Hb as <-. destruct Hrest as (H & _). lia.
  - eapply IH; eassumption.
Qed.

Lemma separated_I1 rs : ∀ lo, separated lo rs → I1 rs.
Proof.
  induction rs as [|r rest IH]; intros lo Hsep i a b Ha Hb; [discriminate|].
  destruct Hsep as (_ & Hwf & Hrest).
  destruct i as [|i]; cbn in Ha, Hb.
  - destruct rest as [|r' rest']; [discriminate|].
    injection Ha as <-. injection Hb as <-. destruct Hrest as (H & _).
    unfold wf_range in Hwf. lia.
  - eapply IH; eassumption.
Qed.

Lemma I2_separated rs : Forall wf_range rs → I2 rs → separated (-1) rs.
Proof.
  assert (Hgen : ∀ lo, Forall wf_range rs → I2 rs →
                       (∀ r, head rs = Some r → lo < First r) → separated lo rs).
  { induction rs as [|r rest IH]; intros lo Hwf HI2 Hhd; [exact I|].
    apply Forall_cons in Hwf as [Hr Hrest].
    cbn [separated]. repeat split; try apply Hr.
    - apply Hhd. reflexivity.
    - apply IH; [assumption | |].
      + intros i a b Ha Hb. apply (HI2 (S i) a b); assumption.
      + intros r' Hr'. destruct rest as [|r0 rest0]; [discriminate|].
        injection Hr' as <-. apply (HI2 0%nat r r0); reflexivity. }
  intros Hwf HI2. apply Hgen; try assumption.
  intros r Hr. destruct rs as [|r0 rest0]; [discriminate|].
  injection Hr as <-. apply Forall_cons in Hwf as [(H & _) _].
  unfold is_ip in H. lia.
Qed.

(** The three list invariants of a valid pool are the recursive one. *)
Lemma valid_ranges_separated rs :
  Forall wf_range rs ∧ I1 rs ∧ I2 rs ↔ separated (-1) rs.
Proof.
  split.
  - intros (Hwf & _ & HI2). apply I2_separated; assumption.
  - intros Hsep. repeat split.
    + eapply separated_wf; eassumption.
    + eapply separated_I1; eassumption.
    + eapply separated_I2; eassumption.
Qed.

(** In a valid list no two ranges, consecutive or not, are adjacent or
    overlap, and the first addresses ascend. *)
Lemma separated_first_above rs : ∀ lo r, separated lo rs → r ∈ rs → lo < First r.
Proof.
  induction rs as [|r0 rest IH]; intros lo r Hsep Hin; [inversion Hin|].
  destruct Hsep as (Hlo & Hwf & Hrest).
  apply elem_of_cons in Hin as [->|Hin]; [assumption|].
  specialize (IH _ _ Hrest Hin). unfold wf_range in Hwf. lia.
Qed.

Lemma separated_pairwise rs : ∀ lo (i j : nat) a b,
  separated lo rs → (i < j)%nat → rs !! i = Some a → rs !! j = Some b →
  Last a + 1 < First b ∧ First a < First b.
Proof.
  induction rs as [|r rest IH]; intros lo i j a b Hsep Hij Ha Hb; [discriminate|].
  destruct Hsep as (_ & Hwf & Hrest).
  destruct j as [|j]; [lia|]. cbn in Hb.
  destruct i as [|i]; cbn in Ha.
  - injection Ha as <-.
    assert (Hin : b ∈ rest) by (apply list_elem_of_lookup; eauto).
    pose proof (separated_first_above _ _ _ Hrest Hin). unfold wf_range in Hwf. lia.
  - apply (IH (Last r + 1) i j); try assumption. lia.
Qed.

Lemma valid_pool_pairwise fip (i j : nat) a b :
  valid_pool fip → (i < j)%nat →
  IPRanges fip !! i = Some a → IPRanges fip !! j = Some b →
  Last a + 1 < First b ∧ First a < First b.
Proof.
  intros (Hwf & H1 & H2 & _). apply separated_pairwise with (lo := -1).
  apply valid_ranges_separated. auto.
Qed.

(** An address is available iff some range of the list spans it. *)
Lemma pool_Contains_spec rs x :
  Forall wf_range rs → is_ip x →
  pool_Contains rs x = true ↔ ∃ r, r ∈ rs ∧ First r <= x <= Last r.
Proof.
  intros Hwf Hx. unfold pool_Contains. rewrite existsb_exists.
  split.
  - intros (r & Hin & Hc). exists r. apply list_elem_of_In in Hin.
    split; [assumption|].
    rewrite Forall_forall in Hwf. destruct (Hwf r Hin) as (? & ? & ?).
    apply Contains_ip in Hc; assumption.
  - intros (r & Hin & Hc). exists r. split; [apply list_elem_of_In; assumption|].
    rewrite Forall_forall in Hwf. destruct (Hwf r Hin) as (? & ? & ?).
    apply Contains_ip; assumption.
Qed.

Lemma range_address_is_ip r x : wf_range r → First r <= x <= Last r → is_ip x.
Proof. intros (H1 & H2 & _) H. unfold is_ip in *. lia. Qed.

(** ** Subnets of a CIDR mask *)

Lemma ip_bits_high x i : is_ip x → 32 <= i → Z.testbit x i = false.
Proof.
  intros Hx Hi. rewrite <- (u32_id x Hx). unfold u32, uint32_modulus.
  apply Z.mod_pow2_bits_high. lia.
Qed.

Lemma cidr_mask_shiftl p :
  0 <= p <= 32 → cidr_mask p = Z.shiftl (Z.ones p) (32 - p).
Proof.
  intros Hp. unfold cidr_mask, uint32_modulus.
  rewrite Z.shiftl_mul_pow2 by lia. rewrite Z.ones_equiv.
  replace 32 with (p + (32 - p)) at 1 by lia.
  rewrite Z.pow_add_r by lia. lia.
Qed.

(** Masking with a prefix of [p] bits clears the [32 - p] low bits. *)
Lemma land_cidr_mask x p :
  is_ip x → 0 <= p <= 32 →
  Z.land x (cidr_mask p) = 2 ^ (32 - p) * (x / 2 ^ (32 - p)).
Proof.
  intros Hx Hp. rewrite cidr_mask_shiftl by assumption.
  rewrite Z.mul_comm, <- Z.shiftr_div_pow2, <- Z.shiftl_mul_pow2 by lia.
  apply Z.bits_inj'. intros i Hi.
  rewrite Z.land_spec, !Z.shiftl_spec by assumption.
  destruct (Z.lt_ge_cases i (32 - p)) as [Hlow|Hhigh].
  - rewrite (Z.testbit_neg_r (Z.ones p)), (Z.testbit_neg_r (Z.shiftr x (32 - p))) by lia.
    apply andb_false_r.
  - rewrite Z.shiftr_spec by lia.
    replace (i - (32 - p) + (32 - p)) with i by lia.
    destruct (Z.lt_ge_cases i 32) as [Hin|Hout].
    + rewrite Z.ones_spec_low by lia. apply andb_true_r.
    + rewrite Z.ones_spec_high by lia. rewrite (ip_bits_high x i) by assumption.
      reflexivity.
Qed.

(** The subnet of a CIDR mask is an interval of addresses: what lies between
    two of its addresses is in it. *)
Lemma IPNet_Contains_between gw m lo hi x :
  is_cidr_mask m → is_ip gw → is_ip lo → is_ip hi → lo <= x <= hi →
  IPNet_Contains (mkIPNet gw m) lo = true →
  IPNet_Contains (mkIPNet gw m) hi = true →
  IPNet_Contains (mkIPNet gw m) x = true.
Proof.
  intros (p & Hp & ->) Hgw Hlo Hhi Hx.
  assert (Hxip : is_ip x) by (unfold is_ip in *; lia).
  unfold IPNet_Contains. cbn [net_IP net_Mask].
  rewrite !land_cidr_mask by assumption.
  rewrite !Z.eqb_eq. intros H1 H2.
  assert (Hpos : 0 < 2 ^ (32 - p)) by (apply Z.pow_pos_nonneg; lia).
  assert (Hd1 : lo / 2 ^ (32 - p) <= x / 2 ^ (32 - p)) by (apply Z.div_le_mono; lia).
  assert (Hd2 : x / 2 ^ (32 - p) <= hi / 2 ^ (32 - p)) by (apply Z.div_le_mono; lia).
  nia.
Qed.

Lemma is_cidr_maskb_spec m : is_cidr_maskb m = true → is_cidr_mask m.
Proof.
  unfold is_cidr_maskb. rewrite existsb_exists.
  intros (p & Hin & Heq). apply in_seq in Hin. apply Z.eqb_eq in Heq.
  exists (Z.of_nat p). split; [lia | assumption].
Qed.

(** On a CIDR mask, the endpoint test of [fipCheck] is the invariant I3. *)
Lemma I3_endpoints_I3 fip :
  is_cidr_mask (Mask fip) → is_ip (Gateway fip) → Forall wf_range (IPRanges fip) →
  I3_endpoints fip ↔ I3 fip.
Proof.
  intros Hm Hgw Hwf. split.
  - intros Hend r x Hin Hx. destruct (Hend r Hin) as [H1 H2].
    rewrite Forall_forall in Hwf.
    destruct (Hwf r Hin) as (Hf & Hl & _).
    unfold SparseSubnet_IPNet in *.
    apply (IPNet_Contains_between _ _ (First r) (Last r)); assumption.
  - intros HI3 r Hin.
    rewrite Forall_forall in Hwf.
    destruct (Hwf r Hin) as (Hf & Hl & Hle).
    split; apply (HI3 r); try assumption; lia.
Qed.

Lemma valid_poolb_sound fip : valid_poolb fip = true → valid_pool fip.
Proof.
  unfold valid_poolb. rewrite !andb_true_iff.
  intros (((Hsep & Hm) & Hgw) & Hend).
  apply separatedb_spec in Hsep. apply is_cidr_maskb_spec in Hm.
  apply is_ipb_spec in Hgw.
  pose proof (proj2 (valid_ranges_separated _) Hsep) as (Hwf & H1 & H2).
  repeat split; try assumption.
  apply I3_endpoints_I3; try assumption.
  intros r Hin. rewrite forallb_forall in Hend.
  apply list_elem_of_In in Hin. specialize (Hend r Hin).
  unfold endpoints_in in Hend. apply andb_true_iff in Hend. exact Hend.
Qed.

(** ** The methods of the pool *)

Lemma with_ranges_same fip : with_ranges fip (IPRanges fip) = fip.
Proof. destruct fip. reflexivity. Qed.

Lemma InsertIP_unfold fip ip :
  InsertIP fip ip =
    Some (if IPNet_Contains (SparseSubnet_IPNet fip) ip
          then (with_ranges fip (insert_ranges (IPRanges fip) ip).1,
                (insert_ranges (IPRanges fip) ip).2)
          else (fip, false)).
Proof.
  unfold InsertIP.
  destruct (IPNet_Contains (SparseSubnet_IPNet fip) ip); cbn [negb]; [|reflexivity].
  destruct (IPRanges fip) as [|r rest] eqn:E; [reflexivity|].
  cbn [length Nat.eqb].
  pose proof (InsertIP_loop_ranges ip (r :: rest) []) as H.
  cbn [length app] in H. rewrite H by (intros p Hp; discriminate).
  reflexivity.
Qed.

Lemma RemoveIP_unfold fip ip :
  RemoveIP fip ip =
    Some (if IPNet_Contains (SparseSubnet_IPNet fip) ip
          then (with_ranges fip (remove_ranges (IPRanges fip) ip).1,
                (remove_ranges (IPRanges fip) ip).2)
          else (fip, false)).
Proof.
  unfold RemoveIP.
  destruct (IPNet_Contains (SparseSubnet_IPNet fip) ip); cbn [negb]; [|reflexivity].
  destruct (IPRanges fip) as [|r rest] eqn:E.
  - cbn. rewrite <- E, with_ranges_same. reflexivity.
  - cbn [length Nat.eqb].
    pose proof (RemoveIP_loop_ranges ip (r :: rest) []) as H.
    cbn [length app] in H. rewrite H. reflexivity.
Qed.

Lemma valid_pool_separated fip :
  valid_pool fip ↔ separated (-1) (IPRanges fip) ∧ I3 fip.
Proof.
  unfold valid_pool. rewrite <- valid_ranges_separated. tauto.
Qed.

(** I3 carries over to a list whose addresses were all available before or
    are in the subnet. *)
Lemma I3_with_ranges fip rs :
  Forall wf_range (IPRanges fip) → Forall wf_range rs → I3 fip →
  (∀ x, is_ip x → pool_Contains rs x = true →
        pool_Contains (IPRanges fip) x = true
        ∨ IPNet_Contains (SparseSubnet_IPNet fip) x = true) →
  I3 (with_ranges fip rs).
Proof.
  intros Hwf Hwf' HI3 Hcov r x Hin Hx.
  cbn [with_ranges IPRanges] in Hin.
  change (SparseSubnet_IPNet (with_ranges fip rs)) with (SparseSubnet_IPNet fip).
  assert (Hxip : is_ip x).
  { rewrite Forall_forall in Hwf'. eapply range_address_is_ip; eauto. }
  destruct (Hcov x Hxip) as [Hold|Hnet]; [|  |assumption].
  - apply pool_Contains_spec; eauto.
  - apply pool_Contains_spec in Hold as (r0 & Hin0 & Hx0); try assumption.
    apply (HI3 r0 x); assumption.
Qed.

Lemma InsertIP_valid fip ip :
  valid_pool fip → is_ip ip →
  ∃ fip' ok, InsertIP fip ip = Some (fip', ok) ∧ valid_pool fip'.
Proof.
  intros Hv Hip. rewrite InsertIP_unfold.
  destruct (IPNet_Contains (SparseSubnet_IPNet fip) ip) eqn:Hnet;
    [|exists fip, false; auto].
  eexists _, _. split; [reflexivity|].
  apply valid_pool_separated in Hv as [Hsep HI3].
  assert (Hsep' : separated (-1) (insert_ranges (IPRanges fip) ip).1).
  { apply insert_ranges_separated; try assumption. unfold is_ip in Hip. lia. }
  apply valid_pool_separated. split; [exact Hsep'|].
  apply I3_with_ranges; try assumption; try (eapply separated_wf; eassumption).
  intros x Hx Hc.
  rewrite (insert_ranges_cover _ (-1)) in Hc by assumption.
  apply orb_true_iff in Hc as [Hc|Hc]; [left; assumption|].
  apply Z.eqb_eq in Hc as ->. right. assumption.
Qed.

Lemma RemoveIP_valid fip ip :
  valid_pool fip → is_ip ip →
  ∃ fip' ok, RemoveIP fip ip = Some (fip', ok) ∧ valid_pool fip'.
Proof.
  intros Hv Hip. rewrite RemoveIP_unfold.
  destruct (IPNet_Contains (SparseSubnet_IPNet fip) ip) eqn:Hnet;
    [|exists fip, false; auto].
  eexists _, _. split; [reflexivity|].
  apply valid_pool_separated in Hv as [Hsep HI3].
  assert (Hsep' : separated (-1) (remove_ranges (IPRanges fip) ip).1).
  { apply remove_ranges_separated; assumption. }
  apply valid_pool_separated. split; [exact Hsep'|].
  apply I3_with_ranges; try assumption; try (eapply separated_wf; eassumption).
  intros x Hx Hc.
  rewrite (remove_ranges_cover _ (-1)) in Hc by assumption.
  apply andb_true_iff in Hc as [Hc _]. left. assumption.
Qed.

Lemma run_ops_valid ops : ∀ fip,
  valid_pool fip → Forall (fun o => is_ip (op_ip o)) ops →
  ∃ fip', run_ops fip ops = Some fip' ∧ valid_pool fip'.
Proof.
  induction ops as [|o ops IH]; intros fip Hv Hops.
  - exists fip. split; [reflexivity | assumption].
  - apply Forall_cons in Hops as [Ho Hops].
    assert (Hstep : ∃ fip1 ok, apply_op fip o = Some (fip1, ok) ∧ valid_pool fip1).
    { destruct o as [ip|ip]; cbn [apply_op op_ip] in *.
      - apply InsertIP_valid; assumption.
      - apply RemoveIP_valid; assumption. }
    destruct Hstep as (fip1 & ok & Heq & Hv1).
    destruct (IH fip1 Hv1 Hops) as (fip' & Hrun & Hv').
    exists fip'. split; [|assumption].
    cbn [run_ops]. rewrite Heq. cbn. exact Hrun.
Qed.

(** C1. Invariant preservation: on a pool that satisfies I1, I2 and I3 (with
    ranges of the data model, [First <= Last]), [InsertIP] and [RemoveIP] of
    any address return, and the pool they leave satisfies I1, I2 and I3; so
    does the pool after any sequence of such calls. *)
Theorem InsertIP_RemoveIP_preserve_invariants fip :
  valid_pool fip →
  (∀ ip, is_ip ip →
     (∃ fip' ok, InsertIP fip ip = Some (fip', ok) ∧ valid_pool fip') ∧
     (∃ fip' ok, RemoveIP fip ip = Some (fip', ok) ∧ valid_pool fip')) ∧
  (∀ ops, Forall (fun o => is_ip (op_ip o)) ops →
     ∃ fip', run_ops fip ops = Some fip' ∧ valid_pool fip').
Proof.
  intros Hv. split.
  - intros ip Hip. split.
    + apply InsertIP_valid; assumption.
    + apply RemoveIP_valid; assumption.
  - intros ops Hops. apply run_ops_valid; assumption.
Qed.

Lemma InsertIP_RemoveIP_preserve_invariants_witness :
  valid_pool (ex_pool [mkIPRange 10 20; mkIPRange 30 40]) ∧
  ((∀ ip, is_ip ip →
     (∃ fip' ok, InsertIP (ex_pool [mkIPRange 10 20; mkIPRange 30 40]) ip
                 = Some (fip', ok) ∧ valid_pool fip') ∧
     (∃ fip' ok, RemoveIP (ex_pool [mkIPRange 10 20; mkIPRange 30 40]) ip
                 = Some (fip', ok) ∧ valid_pool fip')) ∧
   (∀ ops, Forall (fun o => is_ip (op_ip o)) ops →
     ∃ fip', run_ops (ex_pool [mkIPRange 10 20; mkIPRange 30 40]) ops = Some fip'
             ∧ valid_pool fip')).
Proof.
  split.
  - apply valid_poolb_sound. vm_compute. reflexivity.
  - apply (InsertIP_RemoveIP_preserve_invariants
             (ex_pool [mkIPRange 10 20; mkIPRange 30 40])).
    apply valid_poolb_sound. vm_compute. reflexivity.
Defined.

(** C2. The available set changes by exactly the address: on a valid pool
    and an address of the subnet, [InsertIP] returns; when it answers true
    the address was not available, and afterwards an address is available
    iff it was before or is the released one. [RemoveIP] returns; when it
    answers true the address was available, and afterwards an address is
    available iff it was before and is not the reserved one. *)
Theorem InsertIP_RemoveIP_exact_set fip ip :
  valid_pool fip → is_ip ip →
  IPNet_Contains (SparseSubnet_IPNet fip) ip = true →
  (∃ fip' ok, InsertIP fip ip = Some (fip', ok) ∧
     (ok = true →
        pool_Contains (IPRanges fip) ip = false ∧
        ∀ x, is_ip x →
          pool_Contains (IPRanges fip') x
          = pool_Contains (IPRanges fip) x || (x =? ip))) ∧
  (∃ fip' ok, RemoveIP fip ip = Some (fip', ok) ∧
     (ok = true →
        pool_Contains (IPRanges fip) ip = true ∧
        ∀ x, is_ip x →
          pool_Contains (IPRanges fip') x
          = pool_Contains (IPRanges fip) x && negb (x =? ip))).
Proof.
  intros Hv Hip Hnet. apply valid_pool_separated in Hv as [Hsep _]. split.
  - rewrite InsertIP_unfold, Hnet. eexists _, _. split; [reflexivity|].
    intros Hok. rewrite (insert_ranges_ok _ (-1)) in Hok by assumption.
    split; [destruct (pool_Contains (IPRanges fip) ip); [discriminate|reflexivity]|].
    intros x Hx. cbn [with_ranges IPRanges].
    apply (insert_ranges_cover _ (-1)); assumption.
  - rewrite RemoveIP_unfold, Hnet. eexists _, _. split; [reflexivity|].
    intros Hok. rewrite remove_ranges_ok in Hok.
    split; [assumption|].
    intros x Hx. cbn [with_ranges IPRanges].
    apply (remove_ranges_cover _ (-1)); assumption.
Qed.

Lemma InsertIP_RemoveIP_exact_set_witness :
  ∃ fip ip,
    valid_pool fip ∧ is_ip ip ∧
    IPNet_Contains (SparseSubnet_IPNet fip) ip = true ∧
    (∃ fip' ok, InsertIP fip ip = Some (fip', ok) ∧
       (ok = true →
          pool_Contains (IPRanges fip) ip = false ∧
          ∀ x, is_ip x →
            pool_Contains (IPRanges fip') x
            = pool_Contains (IPRanges fip) x || (x =? ip))) ∧
    (∃ fip' ok, RemoveIP fip ip = Some (fip', ok) ∧
       (ok = true →
          pool_Contains (IPRanges fip) ip = true ∧
          ∀ x, is_ip x →
            pool_Contains (IPRanges fip') x
            = pool_Contains (IPRanges fip) x && negb (x =? ip))).
Proof.
  exists (ex_pool [mkIPRange 10 20; mkIPRange 30 40]), 21.
  assert (Hv : valid_pool (ex_pool [mkIPRange 10 20; mkIPRange 30 40]))
    by (apply valid_poolb_sound; vm_compute; reflexivity).
  assert (Hip : is_ip 21) by (unfold is_ip, uint32_modulus; lia).
  assert (Hnet : IPNet_Contains
                   (SparseSubnet_IPNet (ex_pool [mkIPRange 10 20; mkIPRange 30 40])) 21
                 = true) by reflexivity.
  split; [exact Hv|]. split; [exact Hip|]. split; [exact Hnet|].
  exact (InsertIP_RemoveIP_exact_set _ _ Hv Hip Hnet).
Defined.

(** C3. A refused call changes nothing: on a valid pool, [InsertIP] answers
    false exactly when the address is outside the subnet or already
    available, [RemoveIP] exactly when it is outside the subnet, the list is
    empty or no range holds it; and the pool a call that answers false
    leaves is the pool it was given. *)
Theorem InsertIP_RemoveIP_refused_unchanged fip ip :
  valid_pool fip → is_ip ip →
  (∃ fip' ok, InsertIP fip ip = Some (fip', ok) ∧
     (ok = false ↔ IPNet_Contains (SparseSubnet_IPNet fip) ip = false
                   ∨ pool_Contains (IPRanges fip) ip = true) ∧
     (ok = false → fip' = fip)) ∧
  (∃ fip' ok, RemoveIP fip ip = Some (fip', ok) ∧
     (ok = false ↔ IPNet_Contains (SparseSubnet_IPNet fip) ip = false
                   ∨ IPRanges fip = []
                   ∨ pool_Contains (IPRanges fip) ip = false) ∧
     (ok = false → fip' = fip)).
Proof.
  intros Hv Hip. apply valid_pool_separated in Hv as [Hsep _]. split.
  - rewrite InsertIP_unfold.
    destruct (IPNet_Contains (SparseSubnet_IPNet fip) ip) eqn:Hnet.
    + eexists _, _. split; [reflexivity|]. split.
      * rewrite (insert_ranges_ok _ (-1)) by assumption.
        destruct (pool_Contains (IPRanges fip) ip); cbn; intuition discriminate.
      * intros Hok. rewrite insert_ranges_refused by assumption.
        apply with_ranges_same.
    + exists fip, false. intuition.
  - rewrite RemoveIP_unfold.
    destruct (IPNet_Contains (SparseSubnet_IPNet fip) ip) eqn:Hnet.
    + eexists _, _. split; [reflexivity|]. split.
      * rewrite remove_ranges_ok.
        destruct (IPRanges fip) as [|r rest]; [cbn; intuition|].
        destruct (pool_Contains (r :: rest) ip); intuition discriminate.
      * intros Hok. rewrite remove_ranges_refused by assumption.
        apply with_ranges_same.
    + exists fip, false. intuition.
Qed.

Lemma InsertIP_RemoveIP_refused_unchanged_witness :
  ∃ fip ip,
    valid_pool fip ∧ is_ip ip ∧
    InsertIP fip ip = Some (fip, false) ∧
    (∃ fip' ok, InsertIP fip ip = Some (fip', ok) ∧
       (ok = false ↔ IPNet_Contains (SparseSubnet_IPNet fip) ip = false
                     ∨ pool_Contains (IPRanges fip) ip = true) ∧
       (ok = false → fip' = fip)) ∧
    (∃ fip' ok, RemoveIP fip ip = Some (fip', ok) ∧
       (ok = false ↔ IPNet_Contains (SparseSubnet_IPNet fip) ip = false
                     ∨ IPRanges fip = []
                     ∨ pool_Contains (IPRanges fip) ip = false) ∧
       (ok = false → fip' = fip)).
Proof.
  exists (ex_pool [mkIPRange 10 20; mkIPRange 30 40]), 15.
  assert (Hv : valid_pool (ex_pool [mkIPRange 10 20; mkIPRange 30 40]))
    by (apply valid_poolb_sound; vm_compute; reflexivity).
  assert (Hip : is_ip 15) by (unfold is_ip, uint32_modulus; lia).
  split; [exact Hv|]. split; [exact Hip|]. split; [reflexivity|].
  exact (InsertIP_RemoveIP_refused_unchanged _ _ Hv Hip).
Defined.

(** C4. Reserving an available address and releasing it again restores the
    list of ranges exactly, whichever of the four cases the reservation
    took. *)
Theorem RemoveIP_then_InsertIP_restores fip ip :
  valid_pool fip → is_ip ip → pool_Contains (IPRanges fip) ip = true →
  ∃ fip1, RemoveIP fip ip = Some (fip1, true) ∧ InsertIP fip1 ip = Some (fip, true).
Proof.
  intros Hv Hip Hin. apply valid_pool_separated in Hv as [Hsep HI3].
  assert (Hnet : IPNet_Contains (SparseSubnet_IPNet fip) ip = true).
  { apply pool_Contains_spec in Hin as (r & Hr & Hx);
      [|eapply separated_wf; eassumption|assumption].
    apply (HI3 r ip); assumption. }
  exists (with_ranges fip (remove_ranges (IPRanges fip) ip).1). split.
  - rewrite RemoveIP_unfold, Hnet, remove_ranges_ok, Hin. reflexivity.
  - rewrite InsertIP_unfold.
    change (SparseSubnet_IPNet (with_ranges fip (remove_ranges (IPRanges fip) ip).1))
      with (SparseSubnet_IPNet fip).
    rewrite Hnet. cbn [with_ranges IPRanges].
    rewrite (insert_remove_ranges _ (-1)) by assumption.
    cbn [fst snd]. destruct fip. reflexivity.
Qed.

Lemma RemoveIP_then_InsertIP_restores_witness :
  ∃ fip ip,
    valid_pool fip ∧ is_ip ip ∧ pool_Contains (IPRanges fip) ip = true ∧
    ∃ fip1, RemoveIP fip ip = Some (fip1, true) ∧ InsertIP fip1 ip = Some (fip, true).
Proof.
  exists (ex_pool [mkIPRange 10 20; mkIPRange 30 40]), 15.
  assert (Hv : valid_pool (ex_pool [mkIPRange 10 20; mkIPRange 30 40]))
    by (apply valid_poolb_sound; vm_compute; reflexivity).
  assert (Hip : is_ip 15) by (unfold is_ip, uint32_modulus; lia).
  assert (Hin : pool_Contains (IPRanges (ex_pool [mkIPRange 10 20; mkIPRange 30 40])) 15
                = true) by reflexivity.
  split; [exact Hv|]. split; [exact Hip|]. split; [exact Hin|].
  exact (RemoveIP_then_InsertIP_restores _ _ Hv Hip Hin).
Defined.

(** ** The range the loops stop at *)

(** In a separated list every range before a given one ends at least two
    addresses below it. *)
Lemma separated_split pre : ∀ lo r post,
  separated lo (pre ++ r :: post) →
  Forall (fun p => wf_range p ∧ Last p + 1 < First r) pre
  ∧ ∃ lo', lo <= lo' ∧ separated lo' (r :: post).
Proof.
  induction pre as [|p pre IH]; intros lo r post Hsep.
  - split; [constructor|]. exists lo. split; [lia | exact Hsep].
  - cbn [app separated] in Hsep. destruct Hsep as (Hlo & Hwf & Hrest).
    destruct (IH _ _ _ Hrest) as (Hpre & lo' & Hle & Hsep').
    split.
    + constructor; [|assumption]. split; [assumption|].
      destruct Hsep' as (H & _). lia.
    + exists lo'. split; [|assumption]. unfold wf_range in Hwf. lia.
Qed.

Lemma insert_ranges_skip ip suf pre :
  is_ip ip →
  Forall (fun p => wf_range p ∧ Last p + 1 < ip) pre →
  insert_ranges (pre ++ suf) ip
  = (pre ++ (insert_ranges suf ip).1, (insert_ranges suf ip).2).
Proof.
  intros Hip. induction pre as [|p pre IH]; intros Hpre.
  - cbn [app]. destruct (insert_ranges suf ip). reflexivity.
  - apply Forall_cons in Hpre as [[Hwf Hp] Hpre].
    cbn [app insert_ranges]. rewrite (IH Hpre). cbn [fst snd].
    ip_facts. ip_norm. zbool; try (exfalso; lia); reflexivity.
Qed.

Lemma remove_ranges_skip ip suf pre :
  is_ip ip →
  Forall (fun p => wf_range p ∧ Last p + 1 < ip) pre →
  remove_ranges (pre ++ suf) ip
  = (pre ++ (remove_ranges suf ip).1, (remove_ranges suf ip).2).
Proof.
  intros Hip. induction pre as [|p pre IH]; intros Hpre.
  - cbn [app]. destruct (remove_ranges suf ip). reflexivity.
  - apply Forall_cons in Hpre as [[Hwf Hp] Hpre].
    cbn [app remove_ranges]. rewrite (IH Hpre). cbn [fst snd].
    ip_facts. ip_norm. zbool; try (exfalso; lia); reflexivity.
Qed.

Lemma Forall_before_weaken (pre : list IPRange) lo ip :
  lo <= ip →
  Forall (fun p => wf_range p ∧ Last p + 1 < lo) pre →
  Forall (fun p => wf_range p ∧ Last p + 1 < ip) pre.
Proof.
  intros Hle Hpre. eapply Forall_impl; [exact Hpre|].
  intros p [Hwf Hp]. split; [assumption | lia].
Qed.

(** The ranges before the one extended on its low side all end at least two
    addresses below the new address, once the last of them does. *)
Lemma before_low_side pre b rest lo ip :
  separated lo (pre ++ b :: rest) → ip + 1 = First b →
  (∀ p, last pre = Some p → Last p + 1 ≠ ip) →
  Forall (fun p => wf_range p ∧ Last p + 1 < ip) pre.
Proof.
  intros Hsep Hext Hprev.
  destruct pre as [|pl pre0 _] using rev_ind; [constructor|].
  rewrite <- app_assoc in Hsep. cbn [app] in Hsep.
  destruct (separated_split _ _ _ _ Hsep) as (Hpre0 & lo' & _ & Hpl).
  destruct Hpl as (_ & Hwf & Hb & _).
  specialize (Hprev pl (last_snoc _ _)).
  apply Forall_app. split.
  - eapply Forall_before_weaken; [|exact Hpre0]. unfold wf_range in Hwf. lia.
  - constructor; [|constructor]. split; [assumption | lia].
Qed.

(** The merge rule of [tryMerge], on addresses. *)
Lemma tryMerge_rule pre a b rest :
  is_ip (Last a) → is_ip (First b) →
  tryMerge (pre ++ a :: b :: rest) (Z.of_nat (length pre))
  = Some (pre ++ (if First b =? Last a + 1
                  then [mkIPRange (First a) (Last b)] else [a; b]) ++ rest).
Proof.
  intros Ha Hb. rewrite tryMerge_at by congruence. cbn [merge_head].
  rewrite Minus_ip by assumption.
  destruct (Z.eqb_spec (First b - Last a) 1), (Z.eqb_spec (First b) (Last a + 1));
    try lia; reflexivity.
Qed.

Lemma InsertIP_high_side fip pre a rest ip :
  valid_pool fip → IPRanges fip = pre ++ a :: rest →
  IPNet_Contains (SparseSubnet_IPNet fip) ip = true → is_ip ip →
  ip = Last a + 1 →
  InsertIP fip ip
  = (rs' ← tryMerge (pre ++ mkIPRange (First a) ip :: rest) (Z.of_nat (length pre));
     Some (with_ranges fip rs', true)).
Proof.
  intros Hv Hrs Hnet Hip Hext.
  apply valid_pool_separated in Hv as [Hsep _]. rewrite Hrs in Hsep.
  destruct (separated_split _ _ _ _ Hsep) as (Hpre & lo' & _ & Ha).
  rewrite InsertIP_unfold, Hnet, Hrs.
  rewrite insert_ranges_skip; [|assumption|].
  2:{ eapply Forall_before_weaken; [|eassumption]. ip_facts. lia. }
  rewrite tryMerge_at by congruence. cbn [mbind option_bind fst snd].
  cbn [insert_ranges]. ip_facts. ip_norm.
  zbool; try (exfalso; lia); reflexivity.
Qed.

Lemma InsertIP_low_side fip pre b rest ip :
  valid_pool fip → IPRanges fip = pre ++ b :: rest →
  IPNet_Contains (SparseSubnet_IPNet fip) ip = true → is_ip ip →
  ip + 1 = First b → (∀ p, last pre = Some p → Last p + 1 ≠ ip) →
  InsertIP fip ip
  = (rs' ← tryMerge (pre ++ mkIPRange ip (Last b) :: rest) (Z.of_nat (length pre) - 1);
     Some (with_ranges fip rs', true))
  ∧ InsertIP fip ip = Some (with_ranges fip (pre ++ mkIPRange ip (Last b) :: rest), true).
Proof.
  intros Hv Hrs Hnet Hip Hext Hprev.
  apply valid_pool_separated in Hv as [Hsep _]. rewrite Hrs in Hsep.
  destruct (separated_split _ _ _ _ Hsep) as (Hpre & lo' & _ & Hb).
  assert (Hres : InsertIP fip ip
                 = Some (with_ranges fip (pre ++ mkIPRange ip (Last b) :: rest), true)).
  { rewrite InsertIP_unfold, Hnet, Hrs.
    rewrite insert_ranges_skip; [|assumption|].
    - cbn [insert_ranges]. ip_facts. ip_norm.
      zbool; try (exfalso; lia); reflexivity.
    - eapply before_low_side; eassumption. }
  split; [|exact Hres].
  rewrite Hres, tryMerge_previous; [reflexivity|].
  intros p Hp. specialize (Hprev p Hp).
  rewrite Forall_forall in Hpre.
  assert (Hin : p ∈ pre).
  { apply last_Some in Hp as [l' ->]. apply elem_of_app. right. constructor. }
  destruct (Hpre p Hin) as [(? & ? & ?) _].
  rewrite Minus_ip by assumption. lia.
Qed.

(** C5. The merge rule. [tryMerge] at index [i] replaces the ranges [a] and
    [b] at [i] and [i+1] by [First a, Last b] exactly when
    [First b = Last a + 1], and leaves the list alone otherwise. [InsertIP]
    applies it in the direction of the extension: after a high-side extension
    of the range at [i], at [i] (with the next range); after a low-side
    extension, at [i-1] (with the previous range, which on a valid pool is
    never adjacent, since the loop would have extended it instead). On
    [10,10] and [12,12], releasing 11 yields the single range [10,12]. *)
Theorem InsertIP_merge_rule :
  (∀ pre a b rest,
     is_ip (Last a) → is_ip (First b) →
     tryMerge (pre ++ a :: b :: rest) (Z.of_nat (length pre))
     = Some (pre ++ (if First b =? Last a + 1
                     then [mkIPRange (First a) (Last b)] else [a; b]) ++ rest)) ∧
  (∀ fip pre a rest ip,
     valid_pool fip → IPRanges fip = pre ++ a :: rest →
     IPNet_Contains (SparseSubnet_IPNet fip) ip = true → is_ip ip →
     ip = Last a + 1 →
     InsertIP fip ip
     = (rs' ← tryMerge (pre ++ mkIPRange (First a) ip :: rest)
                       (Z.of_nat (length pre));
        Some (with_ranges fip rs', true))) ∧
  (∀ fip pre b rest ip,
     valid_pool fip → IPRanges fip = pre ++ b :: rest →
     IPNet_Contains (SparseSubnet_IPNet fip) ip = true → is_ip ip →
     ip + 1 = First b → (∀ p, last pre = Some p → Last p + 1 ≠ ip) →
     InsertIP fip ip
     = (rs' ← tryMerge (pre ++ mkIPRange ip (Last b) :: rest)
                       (Z.of_nat (length pre) - 1);
        Some (with_ranges fip rs', true))
     ∧ InsertIP fip ip
       = Some (with_ranges fip (pre ++ mkIPRange ip (Last b) :: rest), true)) ∧
  InsertIP (ex_pool [mkIPRange 10 10; mkIPRange 12 12]) 11
  = Some (ex_pool [mkIPRange 10 12], true).
Proof.
  split; [|split; [|split]].
  - intros. apply tryMerge_rule; assumption.
  - intros. eapply InsertIP_high_side; eassumption.
  - intros. eapply InsertIP_low_side; eassumption.
  - reflexivity.
Qed.

Lemma InsertIP_merge_rule_witness :
  valid_pool (ex_pool [mkIPRange 10 20; mkIPRange 22 40]) ∧
  InsertIP (ex_pool [mkIPRange 10 20; mkIPRange 22 40]) 21
  = Some (ex_pool [mkIPRange 10 40], true).
Proof.
  assert (Hv : valid_pool (ex_pool [mkIPRange 10 20; mkIPRange 22 40]))
    by (apply valid_poolb_sound; vm_compute; reflexivity).
  assert (Hip : is_ip 21) by (unfold is_ip, uint32_modulus; lia).
  split; [exact Hv|].
  destruct InsertIP_merge_rule as (_ & Hhigh & _).
  rewrite (Hhigh (ex_pool [mkIPRange 10 20; mkIPRange 22 40])
             [] (mkIPRange 10 20) [mkIPRange 22 40] 21 Hv eq_refl eq_refl Hip eq_refl).
  reflexivity.
Defined.

(** C6. The four cases of [RemoveIP]: on a valid pool, reserving an address
    of the range [R] deletes [R] when it is that single address, moves
    [First] up when the address is [First], moves [Last] down when it is
    [Last], and otherwise splits [R] in two around the address; the ranges
    before and after [R] stay as they are. On [10,20], reserving 15 yields
    [10,14] and [16,20], reserving 10 yields [11,20], reserving 20 yields
    [10,19]. *)
Theorem RemoveIP_four_cases fip pre R post ip :
  valid_pool fip → IPRanges fip = pre ++ R :: post →
  First R <= ip <= Last R →
  RemoveIP fip ip
  = Some (with_ranges fip
            (pre ++ (if First R =? Last R then []
                     else if ip =? First R then [mkIPRange (ip + 1) (Last R)]
                     else if ip =? Last R then [mkIPRange (First R) (ip - 1)]
                     else [mkIPRange (First R) (ip - 1);
                           mkIPRange (ip + 1) (Last R)]) ++ post), true)
  ∧ RemoveIP (ex_pool [mkIPRange 10 20]) 15
    = Some (ex_pool [mkIPRange 10 14; mkIPRange 16 20], true)
  ∧ RemoveIP (ex_pool [mkIPRange 10 20]) 10 = Some (ex_pool [mkIPRange 11 20], true)
  ∧ RemoveIP (ex_pool [mkIPRange 10 20]) 20 = Some (ex_pool [mkIPRange 10 19], true).
Proof.
  intros Hv Hrs Hx. split; [|repeat split; reflexivity].
  apply valid_pool_separated in Hv as [Hsep HI3].
  assert (Hnet : IPNet_Contains (SparseSubnet_IPNet fip) ip = true).
  { apply (HI3 R ip); [|assumption]. rewrite Hrs. apply elem_of_app. right. constructor. }
  rewrite Hrs in Hsep.
  destruct (separated_split _ _ _ _ Hsep) as (Hpre & lo' & _ & HR).
  destruct HR as (_ & Hwf & _).
  assert (Hip : is_ip ip) by (eapply range_address_is_ip; eassumption).
  assert (Hc : Contains R ip = true).
  { destruct Hwf as (? & ? & ?). apply Contains_ip; assumption. }
  rewrite RemoveIP_unfold, Hnet, Hrs.
  rewrite remove_ranges_skip; [|assumption|].
  2:{ eapply Forall_before_weaken; [|eassumption]. lia. }
  cbn [remove_ranges]. rewrite Hc. cbn [fst snd].
  rewrite remove_from_range_exact by assumption.
  rewrite (Z.eqb_sym ip (First R)), (Z.eqb_sym ip (Last R)). reflexivity.
Qed.

Lemma RemoveIP_four_cases_witness :
  valid_pool (ex_pool [mkIPRange 10 20; mkIPRange 30 40]) ∧
  IPRanges (ex_pool [mkIPRange 10 20; mkIPRange 30 40])
  = [mkIPRange 10 20] ++ mkIPRange 30 40 :: [] ∧
  First (mkIPRange 30 40) <= 35 <= Last (mkIPRange 30 40) ∧
  RemoveIP (ex_pool [mkIPRange 10 20; mkIPRange 30 40]) 35
  = Some (ex_pool [mkIPRange 10 20; mkIPRange 30 34; mkIPRange 36 40], true).
Proof.
  assert (Hv : valid_pool (ex_pool [mkIPRange 10 20; mkIPRange 30 40]))
    by (apply valid_poolb_sound; vm_compute; reflexivity).
  assert (Hx : First (mkIPRange 30 40) <= 35 <= Last (mkIPRange 30 40))
    by (cbn; lia).
  split; [exact Hv|]. split; [reflexivity|]. split; [exact Hx|].
  exact (proj1 (RemoveIP_four_cases
                  (ex_pool [mkIPRange 10 20; mkIPRange 30 40])
                  [mkIPRange 10 20] (mkIPRange 30 40) [] 35 Hv eq_refl Hx)).
Defined.

(** ** The dotted-decimal text is a text of ranges *)

Module DottedTextFacts.
Import DottedText.

Lemma digit_cases d : 0 <= d <= 9 →
  d = 0 ∨ d = 1 ∨ d = 2 ∨ d = 3 ∨ d = 4 ∨ d = 5 ∨ d = 6 ∨ d = 7 ∨ d = 8 ∨ d = 9.
Proof. lia. Qed.

Lemma digit_value_digit d : 0 <= d <= 9 → digit_value (digit d) = Some d.
Proof.
  intros H. destruct (digit_cases d H) as [->|[->|[->|[->|[->|[->|[->|[->|[->| ->]]]]]]]]];
    reflexivity.
Qed.

Lemma digit_dashless d : 0 <= d <= 9 → Ascii.eqb (digit d) dash = false.
Proof.
  intros H. destruct (digit_cases d H) as [->|[->|[->|[->|[->|[->|[->|[->|[->| ->]]]]]]]]];
    reflexivity.
Qed.

Lemma digit_value_range c d : digit_value c = Some d → 0 <= d <= 9.
Proof.
  unfold digit_value.
  destruct (Z.leb_spec 48 (Z.of_nat (nat_of_ascii c)));
    destruct (Z.leb_spec (Z.of_nat (nat_of_ascii c)) 57); cbn [andb];
    intros [= <-]; lia.
Qed.

Lemma read_digits_stop rest acc : stops rest → read_digits rest acc = (acc, rest).
Proof.
  destruct rest as [|c rest']; cbn; [reflexivity|]. intros ->. reflexivity.
Qed.

Lemma read_digits_nonneg s : ∀ acc n rest,
  0 <= acc → read_digits s acc = (n, rest) → 0 <= n.
Proof.
  induction s as [|c s IH]; intros acc n rest Hacc; cbn [read_digits].
  - intros [= <- _]. assumption.
  - destruct (digit_value c) as [d|] eqn:Hd.
    + apply IH. apply digit_value_range in Hd. lia.
    + intros [= <- _]. assumption.
Qed.

Lemma read_byte_range s n rest : read_byte s = Some (n, rest) → 0 <= n <= 255.
Proof.
  unfold read_byte. destruct s as [|c s']; [discriminate|].
  destruct (digit_value c) as [d|] eqn:Hd; [|discriminate].
  destruct (read_digits (String c s') 0) as [m rest'] eqn:Hr.
  destruct (Z.leb_spec m 255); [|discriminate].
  intros [= <- _]. apply read_digits_nonneg in Hr; lia.
Qed.

Lemma app_cons c s rest : String c s +:+ rest = String c (s +:+ rest).
Proof. reflexivity. Qed.

Lemma app_empty_l rest : EmptyString +:+ rest = rest.
Proof. reflexivity. Qed.

Lemma read_byte_String b rest :
  0 <= b <= 255 → stops rest → read_byte (byte_String b +:+ rest) = Some (b, rest).
Proof.
  intros Hb Hrest. unfold byte_String.
  destruct (Z.ltb_spec b 10); [|destruct (Z.ltb_spec b 100)];
    rewrite !app_cons, app_empty_l; cbn [read_byte read_digits].
  - rewrite digit_value_digit by lia. rewrite read_digits_stop by assumption.
    replace (10 * 0 + b) with b by lia.
    destruct (Z.leb_spec b 255); [reflexivity | lia].
  - rewrite !digit_value_digit by (Z.div_mod_to_equations; lia).
    rewrite read_digits_stop by assumption.
    replace (10 * (10 * 0 + b / 10) + b mod 10) with b
      by (Z.div_mod_to_equations; lia).
    destruct (Z.leb_spec b 255); [reflexivity | lia].
  - rewrite !digit_value_digit by (Z.div_mod_to_equations; lia).
    rewrite read_digits_stop by assumption.
    replace (10 * (10 * (10 * 0 + b / 100) + b / 10 mod 10) + b mod 10) with b
      by (Z.div_mod_to_equations; lia).
    destruct (Z.leb_spec b 255); [reflexivity | lia].
Qed.

Lemma app_empty_r s : s +:+ EmptyString = s.
Proof.
  induction s as [|c s IH]; [reflexivity|]. rewrite app_cons, IH. reflexivity.
Qed.

Lemma ParseIP_String a : is_ip a → ParseIP (IP_String a) = Some a.
Proof.
  intros Ha. unfold is_ip, uint32_modulus in Ha. unfold ParseIP, IP_String.
  assert (Hdot : ∀ s, stops (String dot s)) by (intros s; reflexivity).
  rewrite read_byte_String by (auto; Z.div_mod_to_equations; lia).
  cbn [mbind option_bind expect_dot]. rewrite Ascii.eqb_refl. cbn [mbind option_bind].
  rewrite read_byte_String by (auto; Z.div_mod_to_equations; lia).
  cbn [mbind option_bind expect_dot]. rewrite Ascii.eqb_refl. cbn [mbind option_bind].
  rewrite read_byte_String by (auto; Z.div_mod_to_equations; lia).
  cbn [mbind option_bind expect_dot]. rewrite Ascii.eqb_refl. cbn [mbind option_bind].
  rewrite <- (app_empty_r (byte_String (a mod 256))).
  rewrite read_byte_String by (cbn; auto; Z.div_mod_to_equations; lia).
  cbn [mbind option_bind]. f_equal.
  change (2 ^ 24) with 16777216. change (2 ^ 16) with 65536. change (2 ^ 8) with 256.
  Z.div_mod_to_equations. lia.
Qed.

Lemma ParseIP_is_ip s a : ParseIP s = Some a → is_ip a.
Proof.
  unfold ParseIP. intros H.
  destruct (read_byte s) as [[b3 s1]|] eqn:H3; [|discriminate].
  cbn [mbind option_bind] in H.
  destruct (expect_dot s1) as [s2|]; [|discriminate]. cbn [mbind option_bind] in H.
  destruct (read_byte s2) as [[b2 s3]|] eqn:H2; [|discriminate].
  cbn [mbind option_bind] in H.
  destruct (expect_dot s3) as [s4|]; [|discriminate]. cbn [mbind option_bind] in H.
  destruct (read_byte s4) as [[b1 s5]|] eqn:H1; [|discriminate].
  cbn [mbind option_bind] in H.
  destruct (expect_dot s5) as [s6|]; [|discriminate]. cbn [mbind option_bind] in H.
  destruct (read_byte s6) as [[b0 s7]|] eqn:H0; [|discriminate].
  cbn [mbind option_bind] in H.
  destruct s7; [|discriminate]. injection H as <-.
  apply read_byte_range in H3, H2, H1, H0.
  unfold is_ip, uint32_modulus. lia.
Qed.

Lemma dashless_app s1 s2 : dashless (s1 +:+ s2) = dashless s1 && dashless s2.
Proof.
  induction s1 as [|c s1 IH]; [reflexivity|].
  rewrite app_cons. cbn [dashless]. rewrite IH, andb_assoc. reflexivity.
Qed.

Lemma dashless_byte b : 0 <= b <= 255 → dashless (byte_String b) = true.
Proof.
  intros Hb. unfold byte_String.
  destruct (Z.ltb_spec b 10); [|destruct (Z.ltb_spec b 100)]; cbn [dashless];
    rewrite !digit_dashless by (Z.div_mod_to_equations; lia); reflexivity.
Qed.

Lemma dashless_IP_String a : dashless (IP_String a) = true.
Proof.
  unfold IP_String.
  repeat (rewrite dashless_app; cbn [dashless]).
  rewrite !dashless_byte by (Z.div_mod_to_equations; lia). reflexivity.
Qed.

Lemma split_dash_dashless s : dashless s = true → split_dash s = None.
Proof.
  induction s as [|c s IH]; cbn; [reflexivity|].
  intros H. apply andb_true_iff in H as [Hc Hs].
  destruct (Ascii.eqb c dash); [discriminate|]. rewrite (IH Hs). reflexivity.
Qed.

Lemma split_dash_at s rest :
  dashless s = true → split_dash (s +:+ String dash rest) = Some (s, rest).
Proof.
  induction s as [|c s IH]; rewrite ?app_cons, ?app_empty_l; cbn [split_dash dashless].
  - intros _. rewrite Ascii.eqb_refl. reflexivity.
  - intros H. apply andb_true_iff in H as [Hc Hs].
    destruct (Ascii.eqb c dash); [discriminate|]. rewrite (IH Hs). reflexivity.
Qed.

Lemma Parse_String_of_range r :
  is_ip (First r) → is_ip (Last r) → Parse_range (String_of_range r) = Some r.
Proof.
  intros Hf Hl. destruct r as [f l]. cbn [First Last] in *.
  unfold String_of_range, Parse_range. cbn [First Last].
  destruct (Z.eqb_spec f l) as [->|Hne].
  - rewrite split_dash_dashless by apply dashless_IP_String.
    rewrite ParseIP_String by assumption. reflexivity.
  - rewrite split_dash_at by apply dashless_IP_String.
    rewrite !ParseIP_String by assumption. reflexivity.
Qed.

Lemma Parse_range_is_ip s r : Parse_range s = Some r → is_ip (First r) ∧ is_ip (Last r).
Proof.
  unfold Parse_range. destruct (split_dash s) as [[s1 s2]|].
  - destruct (ParseIP s1) as [a|] eqn:Ha; [|discriminate].
    destruct (ParseIP s2) as [b|] eqn:Hb; [|discriminate].
    intros [= <-]. split; eapply ParseIP_is_ip; eassumption.
  - destruct (ParseIP s) as [a|] eqn:Ha; [|discriminate].
    intros [= <-]. split; eapply ParseIP_is_ip; eassumption.
Qed.

Lemma text_laws : RangeTextLaws text.
Proof.
  split.
  - intros r (Hf & Hl & _). apply Parse_String_of_range; assumption.
  - intros s r H. apply Parse_range_is_ip in H as [Hf Hl].
    apply Parse_String_of_range; assumption.
Qed.

End DottedTextFacts.

(** ** The codec *)

Lemma fipCheck_loop_ranges net suf : ∀ pre,
  fipCheck_loop net (pre ++ suf) (length suf) (length pre)
  = Some (check_ranges net (last pre) suf).
Proof.
  induction suf as [|r rest IH]; intros pre; [reflexivity|].
  cbn [length fipCheck_loop check_ranges].
  rewrite lookup_at. cbn [mbind option_bind].
  destruct (negb (IPNet_Contains net (First r)) || negb (IPNet_Contains net (Last r)));
    [reflexivity|].
  specialize (IH (pre ++ [r])).
  rewrite length_app in IH. cbn [length] in IH.
  replace (length pre + 1)%nat with (S (length pre)) in IH by lia.
  rewrite <- app_assoc in IH. cbn [app] in IH. rewrite last_snoc in IH.
  destruct pre as [|p0 pre0 _] using rev_ind.
  - cbn [length Nat.eqb negb last]. exact IH.
  - rewrite last_snoc.
    assert (Hlen : length (pre0 ++ [p0]) = S (length pre0))
      by (rewrite length_app; cbn; lia).
    rewrite Hlen in *. cbn [Nat.eqb negb].
    replace (S (length pre0) - 1)%nat with (length pre0) by lia.
    rewrite <- app_assoc. cbn [app]. rewrite lookup_at.
    cbn [mbind option_bind].
    destruct (IPToInt (First r) <=? u32 (IPToInt (Last p0) + 1)); [reflexivity|].
    rewrite <- app_assoc in IH. cbn [app] in IH. exact IH.
Qed.

Lemma fipCheck_ranges fip :
  fipCheck fip
  = Some (check_ranges (mkIPNet (Gateway fip) (Mask fip)) None (IPRanges fip)).
Proof.
  unfold fipCheck. apply (fipCheck_loop_ranges _ (IPRanges fip) []).
Qed.

(** The ranges of a valid pool pass [fipCheck]. *)
Lemma check_ranges_separated net rs : ∀ lo prev,
  separated lo rs →
  (∀ p, prev = Some p → is_ip (Last p) ∧ Last p + 1 <= lo) →
  (∀ r, r ∈ rs → endpoints_in net r = true) →
  check_ranges net prev rs = None.
Proof.
  induction rs as [|r rest IH]; intros lo prev Hsep Hprev Hin; [reflexivity|].
  cbn [check_ranges]. ip_facts.
  assert (Hr : endpoints_in net r = true) by (apply Hin; constructor).
  unfold endpoints_in in Hr. apply andb_true_iff in Hr as [-> ->]. cbn [negb orb].
  assert (Hrest : check_ranges net (Some r) rest = None).
  { apply (IH (Last r + 1)); try assumption.
    - intros p [= <-]. split; [assumption | lia].
    - intros r' Hr'. apply Hin. constructor. assumption. }
  destruct prev as [p|]; [|exact Hrest].
  destruct (Hprev p eq_refl) as [Hp Hle].
  unfold IPToInt. rewrite (u32_id (First r)), (u32_id (Last p)) by assumption.
  rewrite (u32_id (Last p + 1)) by ip_lia.
  destruct (Z.leb_spec (First r) (Last p + 1)); [lia | exact Hrest].
Qed.

Section codec.
Context `{T : RangeText}.

Lemma MarshalJSON_IPs fip :
  conf_IPs (MarshalJSON fip) = map IPRange_String (IPRanges fip).
Proof.
  unfold MarshalJSON. cbn [conf_IPs].
  assert (Hgen : ∀ rs acc,
             fold_left (fun ips ipr => ips ++ [IPRange_String ipr]) rs acc
             = acc ++ map IPRange_String rs).
  { induction rs as [|r rs IH]; intros acc; cbn [fold_left map].
    - rewrite app_nil_r. reflexivity.
    - rewrite IH, <- app_assoc. reflexivity. }
  apply (Hgen (IPRanges fip) []).
Qed.

(** When every entry parses, the loop appends the parsed ranges. *)
Lemma parse_ranges_all strs : ∀ rs parsed,
  mapM ParseIPRange strs = Some parsed →
  parse_ranges rs strs = (rs ++ parsed, None).
Proof.
  induction strs as [|str strs IH]; intros rs parsed Hall.
  - cbn in Hall. injection Hall as <-. cbn. rewrite app_nil_r. reflexivity.
  - cbn [mapM] in Hall. cbn [parse_ranges].
    destruct (ParseIPRange str) as [ipr|]; [|discriminate].
    cbn [mbind option_bind] in Hall.
    destruct (mapM ParseIPRange strs) as [parsed'|]; [|discriminate].
    cbn in Hall. injection Hall as <-.
    rewrite (IH _ parsed' eq_refl), <- app_assoc. reflexivity.
Qed.

(** The loop stops at the first entry that does not parse, and names it. *)
Lemma parse_ranges_invalid strs : ∀ rs,
  mapM ParseIPRange strs = None →
  ∃ good bad rest parsed,
    strs = good ++ bad :: rest ∧ mapM ParseIPRange good = Some parsed ∧
    ParseIPRange bad = None ∧
    parse_ranges rs strs = (rs ++ parsed, Some (ErrInvalidIPRange bad)).
Proof.
  induction strs as [|str strs IH]; intros rs Hnone; [discriminate|].
  cbn [mapM] in Hnone. cbn [parse_ranges].
  destruct (ParseIPRange str) as [ipr|] eqn:Hstr.
  - cbn [mbind option_bind] in Hnone.
    destruct (mapM ParseIPRange strs) as [parsed'|] eqn:Hrest; [discriminate|].
    destruct (IH (rs ++ [ipr]) eq_refl) as (good & bad & rest & parsed & -> & Hg & Hb & Hp).
    exists (str :: good), bad, rest, (ipr :: parsed).
    repeat split; try assumption.
    + cbn [mapM]. rewrite Hstr, Hg. reflexivity.
    + rewrite Hp, <- app_assoc. reflexivity.
  - exists [], str, strs, []. rewrite app_nil_r. repeat split; assumption.
Qed.

Lemma parse_ranges_error strs : ∀ rs rs' e,
  parse_ranges rs strs = (rs', Some e) →
  ∃ bad, bad ∈ strs ∧ ParseIPRange bad = None ∧ e = ErrInvalidIPRange bad.
Proof.
  induction strs as [|str strs IH]; intros rs rs' e; cbn [parse_ranges]; [discriminate|].
  destruct (ParseIPRange str) as [ipr|] eqn:Hstr.
  - intros H. destruct (IH _ _ _ H) as (bad & Hin & Hb & He).
    exists bad. repeat split; try assumption. constructor. assumption.
  - intros [= _ <-]. exists str. repeat split; [constructor | assumption].
Qed.

Lemma parse_ranges_ok strs : ∀ rs rs',
  parse_ranges rs strs = (rs', None) →
  ∃ parsed, mapM ParseIPRange strs = Some parsed ∧ rs' = rs ++ parsed.
Proof.
  intros rs rs' H. destruct (mapM ParseIPRange strs) as [parsed|] eqn:Hall.
  - exists parsed. split; [reflexivity|].
    rewrite (parse_ranges_all _ _ _ Hall) in H. congruence.
  - destruct (parse_ranges_invalid _ rs Hall) as (? & ? & ? & ? & _ & _ & _ & Hp).
    congruence.
Qed.

End codec.

Section decode.
Context `{T : RangeText}.

Lemma UnmarshalJSON_present fip conf rsub gw sub :
  conf_RoutableSubnet conf = Some rsub → conf_Gateway conf = Some gw →
  conf_Subnet conf = Some sub →
  UnmarshalJSON fip conf =
    let routable := mkIPNet (IP_Mask (net_IP rsub) (net_Mask rsub)) (net_Mask rsub) in
    let rs := (parse_ranges (IPRanges fip) (conf_IPs conf)).1 in
    let fip3 := mkPool routable rs gw (net_Mask sub) (conf_Vlan conf) in
    match (parse_ranges (IPRanges fip) (conf_IPs conf)).2 with
    | Some e => Some (fip3, Some e)
    | None => Some (fip3, check_ranges (mkIPNet gw (net_Mask sub)) None rs)
    end.
Proof.
  intros H1 H2 H3. unfold UnmarshalJSON. rewrite H1, H2, H3.
  destruct (parse_ranges (IPRanges fip) (conf_IPs conf)) as [rs [e|]];
    cbn [fst snd]; [reflexivity|].
  rewrite fipCheck_ranges. reflexivity.
Qed.

(** C10. Decoding appends: when the required fields are present and every
    entry of [ips] parses, [UnmarshalJSON] leaves in the pool the ranges it
    already had followed by the ranges of the document, and the error it
    returns is the verdict of [fipCheck] on that combined list; the pool
    holds the ranges of the document alone exactly when it had none. *)
Theorem UnmarshalJSON_appends_to_existing fip conf rsub gw sub parsed :
  conf_RoutableSubnet conf = Some rsub → conf_Gateway conf = Some gw →
  conf_Subnet conf = Some sub →
  mapM ParseIPRange (conf_IPs conf) = Some parsed →
  ∃ fip' err,
    UnmarshalJSON fip conf = Some (fip', err) ∧
    IPRanges fip' = IPRanges fip ++ parsed ∧
    fipCheck fip' = Some err ∧
    (IPRanges fip' = parsed ↔ IPRanges fip = []).
Proof.
  intros H1 H2 H3 Hall.
  rewrite (UnmarshalJSON_present _ _ _ _ _ H1 H2 H3).
  rewrite (parse_ranges_all _ _ _ Hall). cbn [fst snd].
  eexists _, _. split; [reflexivity|]. cbn [IPRanges].
  split; [reflexivity|]. split; [apply fipCheck_ranges|].
  split.
  - intros H. apply (app_inv_tail parsed). rewrite H. reflexivity.
  - intros ->. reflexivity.
Qed.

End decode.

Lemma UnmarshalJSON_appends_to_existing_witness :
  conf_RoutableSubnet conf_10_0_0 = Some (mkIPNet 167772417 4294967040) ∧
  conf_Gateway conf_10_0_0 = Some 167772161 ∧
  conf_Subnet conf_10_0_0 = Some (mkIPNet 167772160 4294967040) ∧
  mapM (ParseIPRange (RangeText := DottedText.text)) (conf_IPs conf_10_0_0)
  = Some [mkIPRange 167772169 167772169; mkIPRange 167772180 167772190] ∧
  ∃ fip' err,
    UnmarshalJSON (T := DottedText.text) pool_10_0_0 conf_10_0_0 = Some (fip', err) ∧
    IPRanges fip'
    = IPRanges pool_10_0_0
      ++ [mkIPRange 167772169 167772169; mkIPRange 167772180 167772190] ∧
    fipCheck fip' = Some err ∧
    (IPRanges fip' = [mkIPRange 167772169 167772169; mkIPRange 167772180 167772190]
     ↔ IPRanges pool_10_0_0 = []).
Proof.
  split; [reflexivity|]. split; [reflexivity|]. split; [reflexivity|].
  split; [vm_compute; reflexivity|].
  apply (UnmarshalJSON_appends_to_existing (T := DottedText.text)
           pool_10_0_0 conf_10_0_0 (mkIPNet 167772417 4294967040) 167772161
           (mkIPNet 167772160 4294967040)
           [mkIPRange 167772169 167772169; mkIPRange 167772180 167772190]).
  - reflexivity.
  - reflexivity.
  - reflexivity.
  - vm_compute. reflexivity.
Defined.

Section round_trip.
Context `{T : RangeText} (laws : RangeTextLaws T).

Lemma mapM_parse_String rs :
  Forall wf_range rs → mapM ParseIPRange (map IPRange_String rs) = Some rs.
Proof.
  induction 1 as [|r rs Hr Hrs IH]; [reflexivity|].
  cbn [map mapM]. rewrite (parse_String r Hr). cbn [mbind option_bind].
  rewrite IH. reflexivity.
Qed.

Lemma map_parse_canonical strs : ∀ parsed,
  mapM ParseIPRange strs = Some parsed →
  map ParseIPRange (map IPRange_String parsed) = map ParseIPRange strs.
Proof.
  induction strs as [|str strs IH]; intros parsed Hall.
  - cbn in Hall. injection Hall as <-. reflexivity.
  - cbn [mapM] in Hall.
    destruct (ParseIPRange str) as [ipr|] eqn:Hstr; [|discriminate].
    cbn [mbind option_bind] in Hall.
    destruct (mapM ParseIPRange strs) as [parsed'|]; [|discriminate].
    cbn in Hall. injection Hall as <-.
    cbn [map]. rewrite (parse_canonical _ _ Hstr), Hstr, (IH _ eq_refl). reflexivity.
Qed.

(** Decoding what [MarshalJSON] made of a valid pool, into a pool without
    ranges, succeeds and gives the pool back with its routable subnet
    masked. *)
Lemma UnmarshalJSON_MarshalJSON target fip :
  IPRanges target = [] → valid_pool fip →
  UnmarshalJSON target (MarshalJSON fip)
  = Some (mkPool (mkIPNet (IP_Mask (net_IP (RoutableSubnet fip))
                                   (net_Mask (RoutableSubnet fip)))
                          (net_Mask (RoutableSubnet fip)))
                 (IPRanges fip) (Gateway fip) (Mask fip) (Vlan fip), None).
Proof.
  intros Hempty Hv. pose proof Hv as (Hwf & _ & _ & HI3).
  apply valid_pool_separated in Hv as [Hsep _].
  rewrite (UnmarshalJSON_present _ _ (RoutableSubnet fip) (Gateway fip)
             (SparseSubnet_IPNet fip)) by reflexivity.
  rewrite MarshalJSON_IPs, Hempty.
  rewrite (parse_ranges_all _ _ _ (mapM_parse_String _ Hwf)).
  cbn [fst snd app conf_Vlan MarshalJSON SparseSubnet_IPNet net_Mask].
  rewrite (check_ranges_separated _ _ (-1) None Hsep); [reflexivity|discriminate|].
  intros r Hr. rewrite Forall_forall in Hwf. destruct (Hwf r Hr) as (_ & _ & Hle).
  unfold endpoints_in. apply andb_true_iff.
  split; apply (HI3 r); try assumption; lia.
Qed.

(** Encoding what a document decoded to. *)
Lemma MarshalJSON_UnmarshalJSON target conf fip :
  IPRanges target = [] →
  UnmarshalJSON target conf = Some (fip, None) →
  ∃ rsub sub gw,
    conf_RoutableSubnet conf = Some rsub ∧ conf_Subnet conf = Some sub ∧
    conf_Gateway conf = Some gw ∧
    conf_RoutableSubnet (MarshalJSON fip)
    = Some (mkIPNet (IP_Mask (net_IP rsub) (net_Mask rsub)) (net_Mask rsub)) ∧
    conf_Subnet (MarshalJSON fip) = Some (mkIPNet gw (net_Mask sub)) ∧
    conf_Gateway (MarshalJSON fip) = Some gw ∧
    conf_Vlan (MarshalJSON fip) = conf_Vlan conf ∧
    map ParseIPRange (conf_IPs (MarshalJSON fip)) = map ParseIPRange (conf_IPs conf).
Proof.
  intros Hempty Hdec.
  destruct (conf_RoutableSubnet conf) as [rsub|] eqn:H1;
    [|unfold UnmarshalJSON in Hdec; rewrite H1 in Hdec; discriminate].
  destruct (conf_Gateway conf) as [gw|] eqn:H2;
    [|unfold UnmarshalJSON in Hdec; rewrite H1, H2 in Hdec; discriminate].
  destruct (conf_Subnet conf) as [sub|] eqn:H3;
    [|unfold UnmarshalJSON in Hdec; rewrite H1, H2, H3 in Hdec; discriminate].
  rewrite (UnmarshalJSON_present _ _ _ _ _ H1 H2 H3) in Hdec.
  rewrite Hempty in Hdec.
  destruct (parse_ranges [] (conf_IPs conf)) as [rs [e|]] eqn:Hp;
    cbn [fst snd] in Hdec; [discriminate|].
  apply parse_ranges_ok in Hp as (parsed & Hall & ->). cbn [app] in Hdec.
  injection Hdec as <- _.
  exists rsub, sub, gw. repeat split.
  rewrite MarshalJSON_IPs. cbn [IPRanges].
  apply map_parse_canonical. assumption.
Qed.

(** C8, as amended. Round trip of the codec, decoding into a pool that has
    no ranges yet: decoding the encoded form of a valid pool succeeds and
    yields the same range list, gateway, mask and VLAN (and the routable
    subnet masked with its own mask); and for every document that decodes,
    encoding the decoded pool reproduces the document's gateway, vlan and
    the mask of its subnet, with the gateway as the address of the subnet,
    the routable subnet masked with its own mask, and range texts that parse
    to the ranges the document's texts parse to. *)
Theorem codec_round_trip target :
  IPRanges target = [] →
  (∀ fip, valid_pool fip →
     ∃ fip', UnmarshalJSON target (MarshalJSON fip) = Some (fip', None) ∧
             IPRanges fip' = IPRanges fip ∧ Gateway fip' = Gateway fip ∧
             Mask fip' = Mask fip ∧ Vlan fip' = Vlan fip ∧
             RoutableSubnet fip'
             = mkIPNet (IP_Mask (net_IP (RoutableSubnet fip))
                                (net_Mask (RoutableSubnet fip)))
                       (net_Mask (RoutableSubnet fip))) ∧
  (∀ conf fip, UnmarshalJSON target conf = Some (fip, None) →
     ∃ rsub sub gw,
       conf_RoutableSubnet conf = Some rsub ∧ conf_Subnet conf = Some sub ∧
       conf_Gateway conf = Some gw ∧
       conf_RoutableSubnet (MarshalJSON fip)
       = Some (mkIPNet (IP_Mask (net_IP rsub) (net_Mask rsub)) (net_Mask rsub)) ∧
       conf_Subnet (MarshalJSON fip) = Some (mkIPNet gw (net_Mask sub)) ∧
       conf_Gateway (MarshalJSON fip) = Some gw ∧
       conf_Vlan (MarshalJSON fip) = conf_Vlan conf ∧
       map ParseIPRange (conf_IPs (MarshalJSON fip))
       = map ParseIPRange (conf_IPs conf)).
Proof.
  intros Hempty. split.
  - intros fip Hv. eexists.
    split; [apply UnmarshalJSON_MarshalJSON; assumption|].
    repeat split.
  - intros conf fip. apply MarshalJSON_UnmarshalJSON. assumption.
Qed.

End round_trip.

Lemma codec_round_trip_witness :
  RangeTextLaws DottedText.text ∧
  IPRanges fresh_pool = [] ∧
  valid_pool pool_10_0_0 ∧
  (∃ fip', UnmarshalJSON (T := DottedText.text) fresh_pool
             (MarshalJSON (T := DottedText.text) pool_10_0_0) = Some (fip', None) ∧
           IPRanges fip' = IPRanges pool_10_0_0 ∧ Gateway fip' = Gateway pool_10_0_0 ∧
           Mask fip' = Mask pool_10_0_0 ∧ Vlan fip' = Vlan pool_10_0_0 ∧
           RoutableSubnet fip'
           = mkIPNet (IP_Mask (net_IP (RoutableSubnet pool_10_0_0))
                              (net_Mask (RoutableSubnet pool_10_0_0)))
                     (net_Mask (RoutableSubnet pool_10_0_0))).
Proof.
  split; [exact DottedTextFacts.text_laws|].
  split; [reflexivity|].
  assert (Hv : valid_pool pool_10_0_0)
    by (apply valid_poolb_sound; vm_compute; reflexivity).
  split; [exact Hv|].
  exact (proj1 (codec_round_trip (T := DottedText.text) DottedTextFacts.text_laws
                  fresh_pool eq_refl)
               pool_10_0_0 Hv).
Defined.

Lemma codec_round_trip_subnet_counterexample :
  UnmarshalJSON (T := DottedText.text) fresh_pool conf_other_subnet
  = Some (mkPool net_10_0_1 [mkIPRange 3232235525 3232235525]
                 3232235521 4294967040 0, None)
  ∧ conf_Subnet conf_other_subnet = Some (mkIPNet 167772160 4294967040)
  ∧ conf_Subnet (MarshalJSON (T := DottedText.text)
                   (mkPool net_10_0_1 [mkIPRange 3232235525 3232235525]
                           3232235521 4294967040 0))
    = Some (mkIPNet 3232235521 4294967040)
  ∧ IPNet_Contains (mkIPNet 167772160 4294967040) 167772167 = true
  ∧ IPNet_Contains (mkIPNet 3232235521 4294967040) 167772167 = false.
Proof.
  split; [vm_compute; reflexivity|]. repeat split.
Qed.

(** ** What [fipCheck] accepts *)

Lemma I2_cons a b l : I2 (a :: b :: l) ↔ Last a + 1 < First b ∧ I2 (b :: l).
Proof.
  split.
  - intros H. split.
    + apply (H 0%nat a b); reflexivity.
    + intros i x y Hx Hy. apply (H (S i) x y); assumption.
  - intros [Hab H] i x y Hx Hy. destruct i as [|i].
    + cbn in Hx, Hy. injection Hx as <-. injection Hy as <-. assumption.
    + apply (H i x y); assumption.
Qed.

Lemma I2_short (l : list IPRange) : (length l <= 1)%nat → I2 l.
Proof.
  intros Hlen i a b Ha Hb. apply lookup_lt_Some in Hb. lia.
Qed.

Lemma check_ranges_pass_from net rs : ∀ prev,
  Forall below_top rs → (∀ p, prev = Some p → below_top p) →
  check_ranges net prev rs = None
  ↔ (∀ r, r ∈ rs → endpoints_in net r = true)
    ∧ I2 (match prev with Some p => p :: rs | None => rs end).
Proof.
  induction rs as [|r rest IH]; intros prev Hrs Hprev.
  - cbn [check_ranges]. split; [|reflexivity]. intros _. split.
    + intros r Hr. inversion Hr.
    + apply I2_short. destruct prev; cbn; lia.
  - apply Forall_cons in Hrs as [Hr Hrest].
    cbn [check_ranges].
    assert (Hhead : (∀ r', r' ∈ r :: rest → endpoints_in net r' = true)
                    ↔ endpoints_in net r = true
                      ∧ ∀ r', r' ∈ rest → endpoints_in net r' = true).
    { split.
      - intros H. split; [apply H; constructor|].
        intros r' Hr'. apply H. constructor. assumption.
      - intros [H1 H2] r' Hr'. apply elem_of_cons in Hr' as [->|Hr']; auto. }
    rewrite Hhead. clear Hhead.
    specialize (IH (Some r) Hrest). cbn beta iota in IH.
    assert (Hsome : ∀ p, Some r = Some p → below_top p) by (intros p [= <-]; assumption).
    specialize (IH Hsome). clear Hsome.
    unfold endpoints_in at 1.
    destruct (IPNet_Contains net (First r)), (IPNet_Contains net (Last r));
      cbn [negb orb andb];
      try (split; [discriminate | intros [[Hf _] _]; discriminate]).
    destruct prev as [p|].
    + destruct (Hprev p eq_refl) as (Hpf & Hpl & Hptop). destruct Hr as (Hrf & Hrl & Hrtop).
      unfold IPToInt. rewrite (u32_id (First r)), (u32_id (Last p)) by assumption.
      rewrite (u32_id (Last p + 1)) by (unfold is_ip in *; lia).
      rewrite I2_cons.
      destruct (Z.leb_spec (First r) (Last p + 1)).
      * split; [discriminate|]. intros (_ & Hlt & _). lia.
      * rewrite IH. tauto.
    + rewrite IH. tauto.
Qed.

(** Short of the highest address, [fipCheck] accepts exactly the lists whose
    ranges have both endpoints in the subnet and satisfy I2. *)
Lemma fipCheck_pass fip :
  Forall below_top (IPRanges fip) →
  fipCheck fip = Some None ↔ I3_endpoints fip ∧ I2 (IPRanges fip).
Proof.
  intros Hrs. rewrite fipCheck_ranges.
  pose proof (check_ranges_pass_from (mkIPNet (Gateway fip) (Mask fip))
                (IPRanges fip) None Hrs) as H.
  cbn beta iota in H.
  assert (Hnone : ∀ p : IPRange, None = Some p → below_top p) by discriminate.
  specialize (H Hnone).
  assert (Hend : I3_endpoints fip
                 ↔ ∀ r, r ∈ IPRanges fip
                        → endpoints_in (mkIPNet (Gateway fip) (Mask fip)) r = true).
  { unfold I3_endpoints, endpoints_in, SparseSubnet_IPNet.
    split; intros Hall r Hr; specialize (Hall r Hr).
    - apply andb_true_iff. exact Hall.
    - apply andb_true_iff in Hall. exact Hall. }
  rewrite Hend. rewrite <- H. split; [intros [= ->]; reflexivity | intros ->; reflexivity].
Qed.

(** What [UnmarshalJSON] accepts, short of the highest address: a document
    decodes into a pool without ranges exactly when its three required
    fields are present, every entry of [ips] parses, every parsed range has
    both endpoints in the subnet of the gateway and the mask, and every
    range starts more than one address above the end of the one before. *)
Lemma UnmarshalJSON_accepts_iff `{T : RangeText} target conf :
  IPRanges target = [] →
  (∀ str r, str ∈ conf_IPs conf → ParseIPRange str = Some r → below_top r) →
  (∃ fip, UnmarshalJSON target conf = Some (fip, None))
  ↔ ∃ rsub gw sub parsed,
      conf_RoutableSubnet conf = Some rsub ∧ conf_Gateway conf = Some gw ∧
      conf_Subnet conf = Some sub ∧
      mapM ParseIPRange (conf_IPs conf) = Some parsed ∧
      (∀ r, r ∈ parsed → endpoints_in (mkIPNet gw (net_Mask sub)) r = true) ∧
      I2 parsed.
Proof.
  intros Hempty Htop.
  assert (Hparsed : ∀ parsed, mapM ParseIPRange (conf_IPs conf) = Some parsed →
                              Forall below_top parsed).
  { intros parsed Hall. apply Forall_forall. intros r Hr.
    rewrite mapM_Some in Hall.
    apply list_elem_of_lookup in Hr as [k Hk].
    destruct (Forall2_lookup_r _ _ _ _ _ Hall Hk) as (str & Hstr & Hp).
    apply (Htop str r); [|assumption]. apply list_elem_of_lookup. eauto. }
  split.
  - intros [fip Hdec].
    destruct (conf_RoutableSubnet conf) as [rsub|] eqn:H1;
      [|unfold UnmarshalJSON in Hdec; rewrite H1 in Hdec; discriminate].
    destruct (conf_Gateway conf) as [gw|] eqn:H2;
      [|unfold UnmarshalJSON in Hdec; rewrite H1, H2 in Hdec; discriminate].
    destruct (conf_Subnet conf) as [sub|] eqn:H3;
      [|unfold UnmarshalJSON in Hdec; rewrite H1, H2, H3 in Hdec; discriminate].
    rewrite (UnmarshalJSON_present _ _ _ _ _ H1 H2 H3), Hempty in Hdec.
    destruct (parse_ranges [] (conf_IPs conf)) as [rs [e|]] eqn:Hp;
      cbn [fst snd] in Hdec; [discriminate|].
    apply parse_ranges_ok in Hp as (parsed & Hall & ->). cbn [app] in Hdec.
    injection Hdec as _ Hcheck.
    apply (check_ranges_pass_from _ _ None (Hparsed parsed Hall)) in Hcheck;
      [|discriminate].
    exists rsub, gw, sub, parsed. tauto.
  - intros (rsub & gw & sub & parsed & H1 & H2 & H3 & Hall & Hend & HI2).
    rewrite (UnmarshalJSON_present _ _ _ _ _ H1 H2 H3), Hempty.
    rewrite (parse_ranges_all _ _ _ Hall). cbn [fst snd app].
    eexists. f_equal. f_equal.
    apply (check_ranges_pass_from _ _ None (Hparsed parsed Hall)); [discriminate|].
    split; assumption.
Qed.

(** C7, at the input where the code departs from it. The document declares
    255.255.255.255 and then 255.255.255.3 in the subnet 255.255.255.0/24:
    the second range starts below the first, so [First_1 <= Last_0 + 1], yet
    [UnmarshalJSON] returns no error, because [fipCheck] computes
    [Last_0 + 1] in [uint32], where it is 0; the pool it leaves breaks I1. *)
Theorem UnmarshalJSON_accepts_wrapped_order :
  UnmarshalJSON (T := DottedText.text) fresh_pool conf_wrapped_order
  = Some (mkPool net_10_0_1
                 [mkIPRange 4294967295 4294967295; mkIPRange 4294967043 4294967043]
                 4294967041 4294967040 0, None)
  ∧ First (mkIPRange 4294967043 4294967043)
    <= Last (mkIPRange 4294967295 4294967295) + 1
  ∧ u32 (IPToInt (Last (mkIPRange 4294967295 4294967295)) + 1) = 0
  ∧ ¬ I1 [mkIPRange 4294967295 4294967295; mkIPRange 4294967043 4294967043].
Proof.
  split; [vm_compute; reflexivity|].
  split; [cbn; lia|].
  split; [reflexivity|].
  intros H. specialize (H 0%nat _ _ eq_refl eq_refl). cbn in H. lia.
Qed.

(** ** The ordering of pools *)

(** The first address that [FirstAndLastIP] gives is the lowest address of
    the subnet, when the mask is a CIDR prefix. *)
Lemma FirstAndLastIP_first_least n :
  is_cidr_mask (net_Mask n) → is_ip (net_IP n) →
  IPNet_Contains n (FirstAndLastIP n).1 = true
  ∧ ∀ x, is_ip x → IPNet_Contains n x = true → (FirstAndLastIP n).1 <= x.
Proof.
  intros (p & Hp & Hm) Hip. destruct n as [ip m]. cbn [net_IP net_Mask] in *. subst m.
  unfold FirstAndLastIP, IPNet_Contains, IPToInt. cbn [fst net_IP net_Mask].
  assert (Hpos : 0 < 2 ^ (32 - p)) by (apply Z.pow_pos_nonneg; lia).
  assert (Hland : is_ip (Z.land ip (cidr_mask p))).
  { rewrite land_cidr_mask by assumption. unfold is_ip in *.
    pose proof (Z.mul_div_le ip (2 ^ (32 - p)) Hpos).
    assert (0 <= ip / 2 ^ (32 - p)) by (apply Z.div_pos; lia). nia. }
  rewrite (u32_id _ Hland). split.
  - apply Z.eqb_eq. rewrite <- Z.land_assoc, Z.land_diag. reflexivity.
  - intros x Hx Hc. apply Z.eqb_eq in Hc. rewrite Hc.
    rewrite land_cidr_mask by assumption. apply Z.mul_div_le. assumption.
Qed.

Lemma Less_lookup (s : FloatingIPSlice) i j si sj :
  s !! i = Some si → s !! j = Some sj →
  Less s i j = Some (first_address si <? first_address sj).
Proof.
  intros Hi Hj. unfold Less, first_address. rewrite Hi, Hj. cbn [mbind option_bind].
  destruct (FirstAndLastIP (RoutableSubnet si)), (FirstAndLastIP (RoutableSubnet sj)).
  reflexivity.
Qed.

(** C9. [Less(i, j)] is true exactly when the first address of the routable
    subnet of pool [i] is numerically below that of pool [j]; two pools with
    equal first addresses are less than each other in neither order; and
    sorting the pools of 10.0.1.0/24 and 10.0.2.0/24 puts the former first,
    whichever order they come in. *)
Theorem Less_orders_by_first_address (s : FloatingIPSlice) i j si sj :
  s !! i = Some si → s !! j = Some sj →
  (Less s i j = Some true ↔ first_address si < first_address sj)
  ∧ (Less s i j = Some false ↔ first_address sj <= first_address si)
  ∧ (first_address si = first_address sj →
     Less s i j = Some false ∧ Less s j i = Some false)
  ∧ Sort [pool_routable_1; pool_routable_2] = Some [pool_routable_1; pool_routable_2]
  ∧ Sort [pool_routable_2; pool_routable_1] = Some [pool_routable_1; pool_routable_2].
Proof.
  intros Hi Hj.
  rewrite (Less_lookup s i j si sj Hi Hj), (Less_lookup s j i sj si Hj Hi).
  repeat split; try reflexivity.
  - intros [= H]. apply Z.ltb_lt. assumption.
  - intros H. f_equal. apply Z.ltb_lt. assumption.
  - intros [= H]. apply Z.ltb_ge. assumption.
  - intros H. f_equal. apply Z.ltb_ge. assumption.
  - f_equal. apply Z.ltb_ge. lia.
  - f_equal. apply Z.ltb_ge. lia.
Qed.

Lemma Less_orders_by_first_address_witness :
  [pool_routable_2; pool_routable_1] !! 1%nat = Some pool_routable_1 ∧
  [pool_routable_2; pool_routable_1] !! 0%nat = Some pool_routable_2 ∧
  first_address pool_routable_1 = 167772416 ∧
  first_address pool_routable_2 = 167772672 ∧
  Less [pool_routable_2; pool_routable_1] 1 0 = Some true.
Proof.
  split; [reflexivity|]. split; [reflexivity|].
  split; [reflexivity|]. split; [reflexivity|].
  apply (proj1 (Less_orders_by_first_address
                  [pool_routable_2; pool_routable_1] 1 0
                  pool_routable_1 pool_routable_2 eq_refl eq_refl)).
  vm_compute. reflexivity.
Defined.

(** * Further properties of the code *)

(** ** [Minus] *)

(** X1. [Minus] never overflows: on two IPv4 addresses it is their
    mathematical difference, which lies strictly between [-2^32] and [2^32];
    so it changes sign when its arguments are swapped and is zero only on
    equal addresses. *)
Theorem Minus_is_the_difference a b :
  is_ip a → is_ip b →
  Minus a b = a - b
  ∧ - uint32_modulus < Minus a b < uint32_modulus
  ∧ Minus a b = - Minus b a
  ∧ (Minus a b = 0 ↔ a = b).
Proof.
  intros Ha Hb. rewrite (Minus_ip a b Ha Hb), (Minus_ip b a Hb Ha).
  unfold is_ip in *. repeat split; lia.
Qed.

Lemma Minus_is_the_difference_witness :
  is_ip 0 ∧ is_ip 4294967295 ∧ Minus 0 4294967295 = -4294967295.
Proof.
  assert (H0 : is_ip 0) by (unfold is_ip, uint32_modulus; lia).
  assert (H1 : is_ip 4294967295) by (unfold is_ip, uint32_modulus; lia).
  split; [exact H0|]. split; [exact H1|].
  exact (proj1 (Minus_is_the_difference 0 4294967295 H0 H1)).
Defined.

(** ** [InsertIP] and [RemoveIP] on any pool *)

(** X2. Whatever the pool, valid or not, and whatever the address,
    [InsertIP] and [RemoveIP] return (no index is out of range); they change
    no field of the pool but [IPRanges]; and a call that answers false
    leaves the pool exactly as it was. *)
Theorem InsertIP_RemoveIP_never_panic fip ip :
  (∃ fip' ok, InsertIP fip ip = Some (fip', ok) ∧
     RoutableSubnet fip' = RoutableSubnet fip ∧ Gateway fip' = Gateway fip ∧
     Mask fip' = Mask fip ∧ Vlan fip' = Vlan fip ∧
     (ok = false → fip' = fip)) ∧
  (∃ fip' ok, RemoveIP fip ip = Some (fip', ok) ∧
     RoutableSubnet fip' = RoutableSubnet fip ∧ Gateway fip' = Gateway fip ∧
     Mask fip' = Mask fip ∧ Vlan fip' = Vlan fip ∧
     (ok = false → fip' = fip)).
Proof.
  split.
  - rewrite InsertIP_unfold.
    destruct (IPNet_Contains (SparseSubnet_IPNet fip) ip).
    + eexists _, _. split; [reflexivity|]. repeat split.
      intros Hok. rewrite insert_ranges_refused by assumption.
      apply with_ranges_same.
    + exists fip, false. repeat split.
  - rewrite RemoveIP_unfold.
    destruct (IPNet_Contains (SparseSubnet_IPNet fip) ip).
    + eexists _, _. split; [reflexivity|]. repeat split.
      intros Hok. rewrite remove_ranges_refused by assumption.
      apply with_ranges_same.
    + exists fip, false. repeat split.
Qed.

(** ** [tryMerge] *)

Lemma split_at_index {A} (l : list A) (n : nat) :
  (n < length l)%nat → ∃ pre suf, l = pre ++ suf ∧ length pre = n ∧ suf ≠ [].
Proof.
  intros Hn. exists (take n l), (drop n l). repeat split.
  - symmetry. apply take_drop.
  - rewrite length_take. lia.
  - intros H. apply (f_equal length) in H. rewrite length_drop in H. cbn in H. lia.
Qed.

Lemma merge_head_length rs :
  length (merge_head rs) = length rs ∨ S (length (merge_head rs)) = length rs.
Proof.
  destruct rs as [|a [|b rest]]; cbn [merge_head]; auto.
  destruct (Minus (First b) (Last a) =? 1); cbn; auto.
Qed.

Lemma merge_head_same_set rs x :
  Forall wf_range rs → is_ip x →
  pool_Contains (merge_head rs) x = pool_Contains rs x.
Proof.
  intros Hwf Hx. destruct rs as [|[f l] rest]; [reflexivity|].
  apply Forall_cons in Hwf as [(Hf & Hl & Hle) Hrest]. cbn [First Last] in *.
  apply (merge_head_cover (mkIPRange f l) rest l x); assumption.
Qed.

(** X3. The bounds of [tryMerge]: with an index below the length of the
    list (negative ones included) it returns, the list it leaves has the
    same length or one range less, and on well-formed ranges it holds the
    same addresses; with an index at or beyond the length it indexes out of
    range. *)
Theorem tryMerge_bounds rs (i : Z) :
  Forall wf_range rs →
  (i < Z.of_nat (length rs) →
     ∃ rs', tryMerge rs i = Some rs' ∧
            (length rs' = length rs ∨ S (length rs') = length rs) ∧
            ∀ x, is_ip x → pool_Contains rs' x = pool_Contains rs x) ∧
  (Z.of_nat (length rs) <= i → tryMerge rs i = None).
Proof.
  intros Hwf. split.
  - intros Hi. destruct (Z.lt_ge_cases i 0) as [Hneg|Hpos].
    + exists rs. rewrite tryMerge_negative by assumption. auto.
    + destruct (split_at_index rs (Z.to_nat i)) as (pre & suf & -> & Hlen & Hne); [lia|].
      replace i with (Z.of_nat (length pre)) by lia.
      rewrite tryMerge_at by assumption.
      exists (pre ++ merge_head suf). split; [reflexivity|].
      apply Forall_app in Hwf as [_ Hsuf]. split.
      * rewrite !length_app. destruct (merge_head_length suf); lia.
      * intros x Hx. rewrite !pool_Contains_app, merge_head_same_set by assumption.
        reflexivity.
  - intros Hi. unfold tryMerge.
    destruct (Z.ltb_spec i 0); [lia|].
    destruct (Z.eqb_spec (i + 1) (Z.of_nat (length rs))); [lia|]. cbn [orb].
    rewrite (lookup_ge_None_2 rs (Z.to_nat i)) by lia. reflexivity.
Qed.

Lemma tryMerge_bounds_witness :
  Forall wf_range [mkIPRange 10 20; mkIPRange 21 40] ∧
  tryMerge [mkIPRange 10 20; mkIPRange 21 40] 0 = Some [mkIPRange 10 40] ∧
  tryMerge [mkIPRange 10 20; mkIPRange 21 40] 2 = None.
Proof.
  assert (Hwf : Forall wf_range [mkIPRange 10 20; mkIPRange 21 40]).
  { repeat constructor; cbn; unfold uint32_modulus; lia. }
  split; [exact Hwf|]. split; [reflexivity|].
  apply (proj2 (tryMerge_bounds [mkIPRange 10 20; mkIPRange 21 40] 2 Hwf)).
  cbn. lia.
Defined.

(** ** Release, then reserve *)

Lemma IPRange_eta r : mkIPRange (First r) (Last r) = r.
Proof. destruct r. reflexivity. Qed.

(** Reserving what was just released rebuilds the list. *)
Ltac wf_lia := unfold wf_range in *; ip_lia.

Lemma remove_insert_ranges rs : ∀ lo ip,
  is_ip ip → separated lo rs → pool_Contains rs ip = false →
  remove_ranges (insert_ranges rs ip).1 ip = (rs, true).
Proof.
  induction rs as [|r rest IH]; intros lo ip Hip Hsep Hout.
  - cbn [insert_ranges fst remove_ranges].
    assert (Hc : Contains (IPtoIPRange ip) ip = true)
      by (apply Contains_ip; unfold IPtoIPRange; cbn [First Last]; first [assumption | wf_lia]).
    rewrite Hc. unfold remove_from_range, IPtoIPRange, IP_Equal. cbn [First Last].
    rewrite Z.eqb_refl. reflexivity.
  - cbn [pool_Contains existsb] in Hout. apply orb_false_iff in Hout as [Hc Hrest].
    fold (pool_Contains rest ip) in Hrest.
    cbn [insert_ranges]. rewrite Hc. ip_facts.
    assert (Hr : wf_range r) by (unfold wf_range; auto).
    destruct (Minus (First r) ip >? 1) eqn:Hgt.
    { cbn [fst remove_ranges].
      assert (Hs : Contains (IPtoIPRange ip) ip = true)
        by (apply Contains_ip; unfold IPtoIPRange; cbn [First Last]; first [assumption | wf_lia]).
      rewrite Hs. unfold remove_from_range, IPtoIPRange, IP_Equal. cbn [First Last].
      rewrite Z.eqb_refl. reflexivity. }
    destruct (Minus (First r) ip =? 1) eqn:Hlow.
    { cbn [fst remove_ranges].
      rewrite Minus_ip in Hlow by assumption. apply Z.eqb_eq in Hlow.
      assert (Hs : Contains (mkIPRange ip (Last r)) ip = true)
        by (apply Contains_ip; unfold IPtoIPRange; cbn [First Last]; first [assumption | wf_lia]).
      rewrite Hs, remove_from_range_exact; try assumption;
        [|wf_lia].
      cbn [First Last]. rewrite Z.eqb_refl.
      destruct (Z.eqb_spec ip (Last r)); [lia|].
      cbn [app]. replace (ip + 1) with (First r) by lia.
      rewrite IPRange_eta. reflexivity. }
    destruct (Minus (Last r) ip =? -1) eqn:Hhigh.
    { cbn [fst].
      rewrite Minus_ip in Hhigh by assumption. apply Z.eqb_eq in Hhigh.
      destruct rest as [|b rest']; cbn [merge_head First Last].
      - cbn [remove_ranges].
        assert (Hs : Contains (mkIPRange (First r) ip) ip = true)
          by (apply Contains_ip; unfold IPtoIPRange; cbn [First Last]; first [assumption | wf_lia]).
        rewrite Hs, remove_from_range_exact; try assumption;
          [|wf_lia].
        cbn [First Last]. rewrite Z.eqb_refl.
        destruct (Z.eqb_spec (First r) ip); [lia|].
        cbn [app]. replace (ip - 1) with (Last r) by lia.
        rewrite IPRange_eta. reflexivity.
      - ip_facts. rewrite Minus_ip by assumption.
        destruct (Z.eqb_spec (First b - ip) 1) as [Hadj|Hgap]; cbn [remove_ranges].
        + assert (Hs : Contains (mkIPRange (First r) (Last b)) ip = true)
            by (apply Contains_ip; unfold IPtoIPRange; cbn [First Last]; first [assumption | wf_lia]).
          rewrite Hs, remove_from_range_exact; try assumption;
            [|wf_lia].
          cbn [First Last].
          destruct (Z.eqb_spec (First r) (Last b)); [lia|].
          destruct (Z.eqb_spec (First r) ip); [lia|].
          destruct (Z.eqb_spec (Last b) ip); [lia|].
          cbn [app]. replace (ip - 1) with (Last r) by lia.
          replace (ip + 1) with (First b) by lia.
          rewrite !IPRange_eta. reflexivity.
        + assert (Hs : Contains (mkIPRange (First r) ip) ip = true)
            by (apply Contains_ip; unfold IPtoIPRange; cbn [First Last]; first [assumption | wf_lia]).
          rewrite Hs, remove_from_range_exact; try assumption;
            [|wf_lia].
          cbn [First Last]. rewrite Z.eqb_refl.
          destruct (Z.eqb_spec (First r) ip); [lia|].
          cbn [app]. replace (ip - 1) with (Last r) by lia.
          rewrite IPRange_eta. reflexivity. }
    specialize (IH (Last r + 1) ip Hip H1 Hrest).
    destruct (insert_ranges rest ip) as [rest' ok]. cbn [fst] in *.
    cbn [remove_ranges]. rewrite Hc, IH. reflexivity.
Qed.

(** X4. Releasing an address that was not available and reserving it again
    restores the list of ranges exactly, whether the release made a new
    range, extended one, or merged two. *)
Theorem InsertIP_then_RemoveIP_restores fip ip :
  valid_pool fip → is_ip ip →
  IPNet_Contains (SparseSubnet_IPNet fip) ip = true →
  pool_Contains (IPRanges fip) ip = false →
  ∃ fip1, InsertIP fip ip = Some (fip1, true) ∧ RemoveIP fip1 ip = Some (fip, true).
Proof.
  intros Hv Hip Hnet Hout. apply valid_pool_separated in Hv as [Hsep _].
  exists (with_ranges fip (insert_ranges (IPRanges fip) ip).1). split.
  - rewrite InsertIP_unfold, Hnet, (insert_ranges_ok _ (-1)), Hout by assumption.
    reflexivity.
  - rewrite RemoveIP_unfold.
    change (SparseSubnet_IPNet (with_ranges fip (insert_ranges (IPRanges fip) ip).1))
      with (SparseSubnet_IPNet fip).
    rewrite Hnet. cbn [with_ranges IPRanges].
    rewrite (remove_insert_ranges _ (-1)) by assumption.
    cbn [fst snd]. destruct fip. reflexivity.
Qed.

Lemma InsertIP_then_RemoveIP_restores_witness :
  valid_pool (ex_pool [mkIPRange 10 20; mkIPRange 22 40]) ∧ is_ip 21 ∧
  InsertIP (ex_pool [mkIPRange 10 20; mkIPRange 22 40]) 21
  = Some (ex_pool [mkIPRange 10 40], true) ∧
  ∃ fip1, InsertIP (ex_pool [mkIPRange 10 20; mkIPRange 22 40]) 21 = Some (fip1, true)
          ∧ RemoveIP fip1 21 = Some (ex_pool [mkIPRange 10 20; mkIPRange 22 40], true).
Proof.
  assert (Hv : valid_pool (ex_pool [mkIPRange 10 20; mkIPRange 22 40]))
    by (apply valid_poolb_sound; vm_compute; reflexivity).
  assert (Hip : is_ip 21) by (unfold is_ip, uint32_modulus; lia).
  split; [exact Hv|]. split; [exact Hip|]. split; [reflexivity|].
  exact (InsertIP_then_RemoveIP_restores _ 21 Hv Hip eq_refl eq_refl).
Defined.

(** ** The same call twice *)

(** X5. Double release and double reservation are refused: after an
    [InsertIP] that answered true, a second [InsertIP] of the same address
    answers false, and after a [RemoveIP] that answered true, a second
    [RemoveIP] of it answers false; either way the second call leaves the
    pool as the first one made it. *)
Theorem second_call_is_refused fip ip :
  valid_pool fip → is_ip ip →
  (∀ fip1, InsertIP fip ip = Some (fip1, true) → InsertIP fip1 ip = Some (fip1, false)) ∧
  (∀ fip1, RemoveIP fip ip = Some (fip1, true) → RemoveIP fip1 ip = Some (fip1, false)).
Proof.
  intros Hv Hip. apply valid_pool_separated in Hv as [Hsep _]. split.
  - intros fip1. rewrite InsertIP_unfold.
    destruct (IPNet_Contains (SparseSubnet_IPNet fip) ip) eqn:Hnet; [|discriminate].
    intros [= <- Hok].
    assert (Hsep1 : separated (-1) (insert_ranges (IPRanges fip) ip).1).
    { apply insert_ranges_separated; try assumption. unfold is_ip in Hip. lia. }
    assert (Hin : pool_Contains (insert_ranges (IPRanges fip) ip).1 ip = true).
    { rewrite (insert_ranges_cover _ (-1)) by assumption.
      rewrite Z.eqb_refl. apply orb_true_r. }
    rewrite InsertIP_unfold.
    change (SparseSubnet_IPNet (with_ranges fip (insert_ranges (IPRanges fip) ip).1))
      with (SparseSubnet_IPNet fip).
    rewrite Hnet. cbn [with_ranges IPRanges].
    assert (Hno : (insert_ranges (insert_ranges (IPRanges fip) ip).1 ip).2 = false)
      by (rewrite (insert_ranges_ok _ (-1)), Hin by assumption; reflexivity).
    rewrite Hno, (insert_ranges_refused _ _ Hno). reflexivity.
  - intros fip1. rewrite RemoveIP_unfold.
    destruct (IPNet_Contains (SparseSubnet_IPNet fip) ip) eqn:Hnet; [|discriminate].
    intros [= <- Hok].
    assert (Hout : pool_Contains (remove_ranges (IPRanges fip) ip).1 ip = false).
    { rewrite (remove_ranges_cover _ (-1)) by assumption.
      rewrite Z.eqb_refl. apply andb_false_r. }
    rewrite RemoveIP_unfold.
    change (SparseSubnet_IPNet (with_ranges fip (remove_ranges (IPRanges fip) ip).1))
      with (SparseSubnet_IPNet fip).
    rewrite Hnet. cbn [with_ranges IPRanges].
    assert (Hno : (remove_ranges (remove_ranges (IPRanges fip) ip).1 ip).2 = false)
      by (rewrite remove_ranges_ok, Hout; reflexivity).
    rewrite Hno, (remove_ranges_refused _ _ Hno). reflexivity.
Qed.

Lemma second_call_is_refused_witness :
  valid_pool (ex_pool [mkIPRange 10 20; mkIPRange 30 40]) ∧ is_ip 25 ∧
  InsertIP (ex_pool [mkIPRange 10 20; mkIPRange 30 40]) 25
  = Some (ex_pool [mkIPRange 10 20; mkIPRange 25 25; mkIPRange 30 40], true) ∧
  InsertIP (ex_pool [mkIPRange 10 20; mkIPRange 25 25; mkIPRange 30 40]) 25
  = Some (ex_pool [mkIPRange 10 20; mkIPRange 25 25; mkIPRange 30 40], false).
Proof.
  assert (Hv : valid_pool (ex_pool [mkIPRange 10 20; mkIPRange 30 40]))
    by (apply valid_poolb_sound; vm_compute; reflexivity).
  assert (Hip : is_ip 25) by (unfold is_ip, uint32_modulus; lia).
  split; [exact Hv|]. split; [exact Hip|]. split; [reflexivity|].
  apply (proj1 (second_call_is_refused _ 25 Hv Hip)). reflexivity.
Defined.

(** ** Counting addresses *)

Lemma pool_size_app l1 l2 : pool_size (l1 ++ l2) = pool_size l1 + pool_size l2.
Proof. induction l1 as [|r l1 IH]; cbn [app pool_size]; lia. Qed.

Lemma merge_head_size r rest ip :
  is_ip ip → Forall wf_range rest →
  pool_size (merge_head (mkIPRange (First r) ip :: rest))
  = pool_size (mkIPRange (First r) ip :: rest).
Proof.
  intros Hip Hwf. destruct rest as [|b rest']; cbn [merge_head First Last]; [reflexivity|].
  apply Forall_cons in Hwf as [(Hf & Hl & _) _].
  rewrite Minus_ip by assumption.
  destruct (Z.eqb_spec (First b - ip) 1); [|reflexivity].
  cbn [pool_size]. unfold range_size. cbn [First Last]. lia.
Qed.

Lemma insert_ranges_size rs : ∀ lo ip,
  is_ip ip → separated lo rs →
  pool_size (insert_ranges rs ip).1
  = pool_size rs + (if (insert_ranges rs ip).2 then 1 else 0).
Proof.
  induction rs as [|r rest IH]; intros lo ip Hip Hsep.
  - cbn. unfold range_size. cbn. lia.
  - cbn [insert_ranges]. ip_facts.
    destruct (Contains r ip); [cbn [fst snd]; lia|].
    destruct (Minus (First r) ip >? 1).
    { cbn [fst snd pool_size]. unfold range_size at 1. cbn [IPtoIPRange First Last]. lia. }
    destruct (Minus (First r) ip =? 1) eqn:Hlow.
    { rewrite Minus_ip in Hlow by assumption. apply Z.eqb_eq in Hlow.
      cbn [fst snd pool_size]. unfold range_size. cbn [First Last]. lia. }
    destruct (Minus (Last r) ip =? -1) eqn:Hhigh.
    { rewrite Minus_ip in Hhigh by assumption. apply Z.eqb_eq in Hhigh.
      cbn [fst snd]. rewrite merge_head_size; [|assumption|eapply separated_wf; eassumption].
      cbn [pool_size]. unfold range_size. cbn [First Last]. lia. }
    specialize (IH (Last r + 1) ip Hip H1).
    destruct (insert_ranges rest ip) as [rest' ok]. cbn [fst snd pool_size] in *. lia.
Qed.

Lemma remove_ranges_size rs : ∀ lo ip,
  is_ip ip → separated lo rs →
  pool_size (remove_ranges rs ip).1
  = pool_size rs - (if (remove_ranges rs ip).2 then 1 else 0).
Proof.
  induction rs as [|r rest IH]; intros lo ip Hip Hsep; [reflexivity|].
  cbn [remove_ranges]. ip_facts.
  destruct (Contains r ip) eqn:Hc.
  - cbn [fst snd]. rewrite remove_from_range_exact by (unfold wf_range; auto).
    apply Contains_ip in Hc; try assumption.
    rewrite pool_size_app. cbn [pool_size].
    destruct (Z.eqb_spec (First r) (Last r));
      [|destruct (Z.eqb_spec (First r) ip); [|destruct (Z.eqb_spec (Last r) ip)]];
      cbn [pool_size]; unfold range_size; cbn [First Last]; lia.
  - specialize (IH (Last r + 1) ip Hip H1).
    destruct (remove_ranges rest ip) as [rest' ok]. cbn [fst snd pool_size] in *. lia.
Qed.

(** X6. No address is lost or made up: on a valid pool, an [InsertIP] that
    answers true raises the number of available addresses by exactly one, a
    [RemoveIP] that answers true lowers it by exactly one, and a call that
    answers false leaves it as it was. *)
Theorem InsertIP_RemoveIP_count fip ip :
  valid_pool fip → is_ip ip →
  (∃ fip' ok, InsertIP fip ip = Some (fip', ok) ∧
     pool_size (IPRanges fip')
     = pool_size (IPRanges fip) + (if ok then 1 else 0)) ∧
  (∃ fip' ok, RemoveIP fip ip = Some (fip', ok) ∧
     pool_size (IPRanges fip')
     = pool_size (IPRanges fip) - (if ok then 1 else 0)).
Proof.
  intros Hv Hip. apply valid_pool_separated in Hv as [Hsep _]. split.
  - rewrite InsertIP_unfold.
    destruct (IPNet_Contains (SparseSubnet_IPNet fip) ip).
    + eexists _, _. split; [reflexivity|]. cbn [with_ranges IPRanges].
      apply (insert_ranges_size _ (-1)); assumption.
    + exists fip, false. split; [reflexivity | lia].
  - rewrite RemoveIP_unfold.
    destruct (IPNet_Contains (SparseSubnet_IPNet fip) ip).
    + eexists _, _. split; [reflexivity|]. cbn [with_ranges IPRanges].
      apply (remove_ranges_size _ (-1)); assumption.
    + exists fip, false. split; [reflexivity | lia].
Qed.

Lemma InsertIP_RemoveIP_count_witness :
  valid_pool (ex_pool [mkIPRange 10 20; mkIPRange 22 40]) ∧ is_ip 21 ∧
  pool_size (IPRanges (ex_pool [mkIPRange 10 20; mkIPRange 22 40])) = 30 ∧
  (∃ fip' ok, InsertIP (ex_pool [mkIPRange 10 20; mkIPRange 22 40]) 21 = Some (fip', ok) ∧
     pool_size (IPRanges fip')
     = pool_size (IPRanges (ex_pool [mkIPRange 10 20; mkIPRange 22 40]))
       + (if ok then 1 else 0)).
Proof.
  assert (Hv : valid_pool (ex_pool [mkIPRange 10 20; mkIPRange 22 40]))
    by (apply valid_poolb_sound; vm_compute; reflexivity).
  assert (Hip : is_ip 21) by (unfold is_ip, uint32_modulus; lia).
  split; [exact Hv|]. split; [exact Hip|]. split; [reflexivity|].
  exact (proj1 (InsertIP_RemoveIP_count _ 21 Hv Hip)).
Defined.

(** ** The list of ranges is a canonical form *)

Lemma head_is_least lo r t x :
  separated lo (r :: t) → is_ip x → pool_Contains (r :: t) x = true → First r <= x.
Proof.
  intros (_ & (Hf & Hl & Hle) & Ht) Hx Hin.
  cbn [pool_Contains existsb] in Hin. apply orb_true_iff in Hin as [Hin|Hin].
  - apply Contains_ip in Hin; try assumption. lia.
  - pose proof (separated_above _ _ _ Ht Hx Hin). lia.
Qed.

Lemma head_is_covered lo r t x :
  separated lo (r :: t) → First r <= x <= Last r → pool_Contains (r :: t) x = true.
Proof.
  intros (_ & (Hf & Hl & Hle) & _) Hx. cbn [pool_Contains existsb].
  apply orb_true_iff. left. apply Contains_ip; try assumption.
  unfold is_ip in *. lia.
Qed.

Lemma after_head_is_free lo r t :
  separated lo (r :: t) → is_ip (Last r + 1) → pool_Contains (r :: t) (Last r + 1) = false.
Proof.
  intros (_ & (Hf & Hl & Hle) & Ht) Hx. cbn [pool_Contains existsb].
  apply orb_false_iff. split.
  - destruct (Contains r (Last r + 1)) eqn:E; [|reflexivity].
    apply Contains_ip in E; try assumption. lia.
  - apply (separated_below t (Last r + 1)); try assumption. lia.
Qed.

(** The last address of the first range is decided by the set. *)
Lemma head_last_le lo1 lo2 r1 t1 r2 t2 :
  separated lo1 (r1 :: t1) → separated lo2 (r2 :: t2) →
  (∀ x, is_ip x → pool_Contains (r1 :: t1) x = pool_Contains (r2 :: t2) x) →
  First r1 = First r2 → Last r1 <= Last r2.
Proof.
  intros H1 H2 Hsame Hfirst.
  destruct (Z.le_gt_cases (Last r1) (Last r2)) as [Hle|Hgt]; [assumption|exfalso].
  pose proof H1 as (_ & (Hf1 & Hl1 & Hle1) & _).
  pose proof H2 as (_ & (Hf2 & Hl2 & Hle2) & _).
  assert (Hx : is_ip (Last r2 + 1)) by (unfold is_ip in *; lia).
  pose proof (after_head_is_free _ _ _ H2 Hx) as Hfree.
  rewrite <- (Hsame _ Hx) in Hfree.
  rewrite (head_is_covered _ _ _ _ H1) in Hfree by lia. discriminate.
Qed.

Lemma separated_canonical rs1 : ∀ rs2 lo1 lo2,
  separated lo1 rs1 → separated lo2 rs2 →
  (∀ x, is_ip x → pool_Contains rs1 x = pool_Contains rs2 x) →
  rs1 = rs2.
Proof.
  induction rs1 as [|r1 t1 IH]; intros rs2 lo1 lo2 H1 H2 Hsame.
  - destruct rs2 as [|r2 t2]; [reflexivity|exfalso].
    pose proof H2 as (_ & (Hf2 & Hl2 & Hle2) & _).
    specialize (Hsame _ Hf2).
    rewrite (head_is_covered _ _ _ _ H2) in Hsame by lia. discriminate.
  - destruct rs2 as [|r2 t2].
    { exfalso. pose proof H1 as (_ & (Hf1 & Hl1 & Hle1) & _).
      specialize (Hsame _ Hf1).
      rewrite (head_is_covered _ _ _ _ H1) in Hsame by lia. discriminate. }
    pose proof H1 as (_ & (Hf1 & Hl1 & Hle1) & Ht1).
    pose proof H2 as (_ & (Hf2 & Hl2 & Hle2) & Ht2).
    assert (Hfirst : First r1 = First r2).
    { assert (First r1 <= First r2).
      { apply (head_is_least _ _ _ _ H1 Hf2). rewrite (Hsame _ Hf2).
        apply (head_is_covered _ _ _ _ H2). lia. }
      assert (First r2 <= First r1).
      { apply (head_is_least _ _ _ _ H2 Hf1). rewrite <- (Hsame _ Hf1).
        apply (head_is_covered _ _ _ _ H1). lia. }
      lia. }
    assert (Hlast : Last r1 = Last r2).
    { pose proof (head_last_le _ _ _ _ _ _ H1 H2 Hsame Hfirst).
      assert (Hsym : ∀ x, is_ip x →
                pool_Contains (r2 :: t2) x = pool_Contains (r1 :: t1) x)
        by (intros x Hx; symmetry; apply Hsame; assumption).
      pose proof (head_last_le _ _ _ _ _ _ H2 H1 Hsym (eq_sym Hfirst)). lia. }
    assert (Hr : r1 = r2).
    { destruct r1, r2. cbn [First Last] in *. congruence. }
    subst r2. f_equal.
    apply (IH t2 (Last r1 + 1) (Last r1 + 1)); try assumption.
    intros x Hx. specialize (Hsame x Hx). cbn [pool_Contains existsb] in Hsame.
    fold (pool_Contains t1 x) (pool_Contains t2 x) in Hsame.
    destruct (Contains r1 x) eqn:Hc; [|exact Hsame].
    apply Contains_ip in Hc; try assumption.
    rewrite (separated_below t1 (Last r1 + 1)), (separated_below t2 (Last r1 + 1));
      first [assumption | lia | reflexivity].
Qed.

(** X7. The range list is a canonical form of the available set: two valid
    pools whose [Contains] agree on every address have the same list of
    ranges. *)
Theorem same_addresses_same_ranges fip1 fip2 :
  valid_pool fip1 → valid_pool fip2 →
  (∀ x, is_ip x → pool_Contains (IPRanges fip1) x = pool_Contains (IPRanges fip2) x) →
  IPRanges fip1 = IPRanges fip2.
Proof.
  intros H1 H2 Hsame.
  apply valid_pool_separated in H1 as [H1 _]. apply valid_pool_separated in H2 as [H2 _].
  eapply separated_canonical; eassumption.
Qed.

Lemma same_addresses_same_ranges_witness :
  valid_pool (ex_pool [mkIPRange 10 20]) ∧
  valid_pool (mkPool net_10_0_1 [mkIPRange 10 20] 1 4294967040 9) ∧
  IPRanges (ex_pool [mkIPRange 10 20])
  = IPRanges (mkPool net_10_0_1 [mkIPRange 10 20] 1 4294967040 9).
Proof.
  assert (Hv1 : valid_pool (ex_pool [mkIPRange 10 20]))
    by (apply valid_poolb_sound; vm_compute; reflexivity).
  assert (Hv2 : valid_pool (mkPool net_10_0_1 [mkIPRange 10 20] 1 4294967040 9))
    by (apply valid_poolb_sound; vm_compute; reflexivity).
  split; [exact Hv1|]. split; [exact Hv2|].
  apply (same_addresses_same_ranges _ _ Hv1 Hv2). intros x Hx. reflexivity.
Defined.

(** ** Calls commute *)

Lemma with_ranges_twice fip rs1 rs2 :
  with_ranges (with_ranges fip rs1) rs2 = with_ranges fip rs2.
Proof. reflexivity. Qed.

(** What one call does to the list and to the set it holds. *)
Lemma apply_op_effect fip o :
  separated (-1) (IPRanges fip) → is_ip (op_ip o) →
  ∃ rs' ok, apply_op fip o = Some (with_ranges fip rs', ok) ∧
            separated (-1) rs' ∧
            ∀ x, is_ip x →
              pool_Contains rs' x
              = op_effect (SparseSubnet_IPNet fip) o x (pool_Contains (IPRanges fip) x).
Proof.
  intros Hsep Hip. unfold op_effect.
  destruct o as [ip|ip]; cbn [apply_op op_ip] in *.
  - rewrite InsertIP_unfold.
    destruct (IPNet_Contains (SparseSubnet_IPNet fip) ip).
    + eexists _, _. split; [reflexivity|]. split.
      * apply insert_ranges_separated; try assumption. unfold is_ip in Hip. lia.
      * intros x Hx. apply (insert_ranges_cover _ (-1)); assumption.
    + exists (IPRanges fip), false. rewrite with_ranges_same. auto.
  - rewrite RemoveIP_unfold.
    destruct (IPNet_Contains (SparseSubnet_IPNet fip) ip).
    + eexists _, _. split; [reflexivity|]. split.
      * apply remove_ranges_separated; assumption.
      * intros x Hx. apply (remove_ranges_cover _ (-1)); assumption.
    + exists (IPRanges fip), false. rewrite with_ranges_same. auto.
Qed.

Lemma two_ops_effect fip o1 o2 :
  separated (-1) (IPRanges fip) → is_ip (op_ip o1) → is_ip (op_ip o2) →
  ∃ rs', run_ops fip [o1; o2] = Some (with_ranges fip rs') ∧
         separated (-1) rs' ∧
         ∀ x, is_ip x →
           pool_Contains rs' x
           = op_effect (SparseSubnet_IPNet fip) o2 x
               (op_effect (SparseSubnet_IPNet fip) o1 x (pool_Contains (IPRanges fip) x)).
Proof.
  intros Hsep H1 H2.
  destruct (apply_op_effect fip o1 Hsep H1) as (rs1 & ok1 & E1 & Hsep1 & Hc1).
  destruct (apply_op_effect (with_ranges fip rs1) o2 Hsep1 H2)
    as (rs2 & ok2 & E2 & Hsep2 & Hc2).
  exists rs2. split; [|split; [assumption|]].
  - cbn [run_ops]. rewrite E1. cbn [mbind option_bind]. rewrite E2.
    cbn [mbind option_bind]. reflexivity.
  - intros x Hx. rewrite (Hc2 x Hx). cbn [with_ranges IPRanges].
    rewrite (Hc1 x Hx). reflexivity.
Qed.

Lemma two_ops_commute fip o1 o2 :
  separated (-1) (IPRanges fip) → is_ip (op_ip o1) → is_ip (op_ip o2) →
  (∀ x c, op_effect (SparseSubnet_IPNet fip) o2 x (op_effect (SparseSubnet_IPNet fip) o1 x c)
          = op_effect (SparseSubnet_IPNet fip) o1 x (op_effect (SparseSubnet_IPNet fip) o2 x c)) →
  ∃ fip', run_ops fip [o1; o2] = Some fip' ∧ run_ops fip [o2; o1] = Some fip'.
Proof.
  intros Hsep H1 H2 Hcomm.
  destruct (two_ops_effect fip o1 o2 Hsep H1 H2) as (rs & E & Hs & Hc).
  destruct (two_ops_effect fip o2 o1 Hsep H2 H1) as (rs' & E' & Hs' & Hc').
  exists (with_ranges fip rs). split; [assumption|].
  rewrite E'. do 2 f_equal.
  apply (separated_canonical rs' rs (-1) (-1)); try assumption.
  intros x Hx. rewrite (Hc x Hx), (Hc' x Hx). symmetry. apply Hcomm.
Qed.

(** X8. The order of two calls does not matter: on a valid pool, two
    releases, two reservations, or a release and a reservation of different
    addresses leave the same pool in either order. *)
Theorem calls_commute fip a b :
  valid_pool fip → is_ip a → is_ip b →
  (∃ fip', run_ops fip [OpInsert a; OpInsert b] = Some fip' ∧
           run_ops fip [OpInsert b; OpInsert a] = Some fip') ∧
  (∃ fip', run_ops fip [OpRemove a; OpRemove b] = Some fip' ∧
           run_ops fip [OpRemove b; OpRemove a] = Some fip') ∧
  (a ≠ b →
   ∃ fip', run_ops fip [OpInsert a; OpRemove b] = Some fip' ∧
           run_ops fip [OpRemove b; OpInsert a] = Some fip').
Proof.
  intros Hv Ha Hb. apply valid_pool_separated in Hv as [Hsep _].
  split; [|split; [|intros Hne]]; apply two_ops_commute; try assumption;
    intros x c; unfold op_effect; cbn [op_ip];
    destruct (IPNet_Contains (SparseSubnet_IPNet fip) a),
             (IPNet_Contains (SparseSubnet_IPNet fip) b); try reflexivity;
    destruct c, (Z.eqb_spec x a), (Z.eqb_spec x b); try reflexivity; congruence.
Qed.

Lemma calls_commute_witness :
  valid_pool (ex_pool [mkIPRange 10 20; mkIPRange 24 40]) ∧ is_ip 21 ∧ is_ip 23 ∧
  run_ops (ex_pool [mkIPRange 10 20; mkIPRange 24 40]) [OpInsert 21; OpInsert 23]
  = Some (ex_pool [mkIPRange 10 21; mkIPRange 23 40]) ∧
  ∃ fip', run_ops (ex_pool [mkIPRange 10 20; mkIPRange 24 40]) [OpInsert 21; OpInsert 23]
          = Some fip' ∧
          run_ops (ex_pool [mkIPRange 10 20; mkIPRange 24 40]) [OpInsert 23; OpInsert 21]
          = Some fip'.
Proof.
  assert (Hv : valid_pool (ex_pool [mkIPRange 10 20; mkIPRange 24 40]))
    by (apply valid_poolb_sound; vm_compute; reflexivity).
  assert (H21 : is_ip 21) by (unfold is_ip, uint32_modulus; lia).
  assert (H23 : is_ip 23) by (unfold is_ip, uint32_modulus; lia).
  split; [exact Hv|]. split; [exact H21|]. split; [exact H23|]. split; [reflexivity|].
  exact (proj1 (calls_commute _ 21 23 Hv H21 H23)).
Defined.

(** ** [Contains] *)

(** X9. What [Contains] answers on a valid pool: true exactly when one of
    the ranges spans the address, and then the address is in the subnet of
    the pool and no other range spans it. *)
Theorem Contains_finds_the_one_range fip ip :
  valid_pool fip → is_ip ip →
  (pool_Contains (IPRanges fip) ip = true ↔
     ∃ r, r ∈ IPRanges fip ∧ First r <= ip <= Last r) ∧
  (pool_Contains (IPRanges fip) ip = true →
     IPNet_Contains (SparseSubnet_IPNet fip) ip = true ∧
     ∃ (i : nat) r, IPRanges fip !! i = Some r ∧ First r <= ip <= Last r ∧
       ∀ (j : nat) r', IPRanges fip !! j = Some r' → First r' <= ip <= Last r' → j = i).
Proof.
  intros Hv Hip. pose proof Hv as (Hwf & _ & _ & HI3). split.
  - apply pool_Contains_spec; assumption.
  - intros Hin. apply pool_Contains_spec in Hin as (r & Hr & Hx); try assumption.
    split; [apply (HI3 r ip); assumption|].
    apply list_elem_of_lookup in Hr as [i Hi].
    exists i, r. repeat split; try assumption; try lia.
    intros j r' Hj Hx'.
    destruct (Nat.lt_trichotomy j i) as [Hlt|[Heq|Hgt]]; [exfalso|assumption|exfalso].
    + pose proof (valid_pool_pairwise fip j i r' r Hv Hlt Hj Hi). lia.
    + pose proof (valid_pool_pairwise fip i j r r' Hv Hgt Hi Hj). lia.
Qed.

Lemma Contains_finds_the_one_range_witness :
  valid_pool (ex_pool [mkIPRange 10 20; mkIPRange 30 40]) ∧ is_ip 35 ∧
  (pool_Contains (IPRanges (ex_pool [mkIPRange 10 20; mkIPRange 30 40])) 35 = true ↔
     ∃ r, r ∈ IPRanges (ex_pool [mkIPRange 10 20; mkIPRange 30 40])
          ∧ First r <= 35 <= Last r).
Proof.
  assert (Hv : valid_pool (ex_pool [mkIPRange 10 20; mkIPRange 30 40]))
    by (apply valid_poolb_sound; vm_compute; reflexivity).
  assert (Hip : is_ip 35) by (unfold is_ip, uint32_modulus; lia).
  split; [exact Hv|]. split; [exact Hip|].
  exact (proj1 (Contains_finds_the_one_range _ 35 Hv Hip)).
Defined.

(** ** [fipCheck] and the invariants *)

Lemma fipCheck_valid fip : valid_pool fip → fipCheck fip = Some None.
Proof.
  intros Hv. pose proof Hv as (Hwf & _ & _ & HI3).
  apply valid_pool_separated in Hv as [Hsep _].
  rewrite fipCheck_ranges. f_equal.
  apply (check_ranges_separated _ _ (-1) None Hsep); [discriminate|].
  intros r Hr. rewrite Forall_forall in Hwf. destruct (Hwf r Hr) as (_ & _ & Hle).
  unfold endpoints_in. apply andb_true_iff.
  split; apply (HI3 r); try assumption; lia.
Qed.

Lemma fipCheck_passed_valid fip :
  is_cidr_mask (Mask fip) → is_ip (Gateway fip) →
  Forall wf_range (IPRanges fip) → Forall below_top (IPRanges fip) →
  fipCheck fip = Some None → valid_pool fip.
Proof.
  intros Hm Hgw Hwf Htop Hcheck.
  apply fipCheck_pass in Hcheck as [Hend HI2]; [|assumption].
  pose proof (I2_separated _ Hwf HI2) as Hsep.
  repeat split; try assumption.
  - eapply separated_I1; eassumption.
  - apply I3_endpoints_I3; assumption.
Qed.

(** X10. [fipCheck] and the invariants: it accepts every valid pool; and a
    pool it accepts is valid, when the mask is a CIDR prefix, the gateway an
    IPv4 address, every range has [First <= Last], and none ends at the
    highest address. *)
Theorem fipCheck_decides_validity fip :
  (valid_pool fip → fipCheck fip = Some None) ∧
  (is_cidr_mask (Mask fip) → is_ip (Gateway fip) →
   Forall wf_range (IPRanges fip) → Forall below_top (IPRanges fip) →
   fipCheck fip = Some None → valid_pool fip).
Proof.
  split; [apply fipCheck_valid | apply fipCheck_passed_valid].
Qed.

Lemma fipCheck_decides_validity_witness :
  valid_pool pool_10_0_0 ∧ fipCheck pool_10_0_0 = Some None.
Proof.
  assert (Hv : valid_pool pool_10_0_0)
    by (apply valid_poolb_sound; vm_compute; reflexivity).
  split; [exact Hv|].
  exact (proj1 (fipCheck_decides_validity pool_10_0_0) Hv).
Defined.

(** The error [UnmarshalJSON] returns after the loop over [ips] is the
    verdict of [fipCheck] on the pool it returns. *)
Lemma UnmarshalJSON_checked `{T : RangeText} target conf fip :
  UnmarshalJSON target conf = Some (fip, None) → fipCheck fip = Some None.
Proof.
  unfold UnmarshalJSON.
  destruct (conf_RoutableSubnet conf) as [rsub|]; [|discriminate].
  destruct (conf_Gateway conf) as [gw|]; [|discriminate].
  destruct (conf_Subnet conf) as [sub|]; [|discriminate].
  destruct (parse_ranges (IPRanges target) (conf_IPs conf)) as [rs [e|]]; [discriminate|].
  match goal with |- context [fipCheck ?p] => destruct (fipCheck p) as [[e|]|] eqn:E end;
    cbn [mbind option_bind]; try discriminate.
  intros [= <-]. exact E.
Qed.

(** X11. A document that decodes yields a valid pool: when [UnmarshalJSON]
    returns no error, the pool it leaves satisfies I1, I2 and I3, provided
    its mask is a CIDR prefix, its gateway an IPv4 address, and its ranges
    have [First <= Last] and do not end at the highest address. *)
Theorem UnmarshalJSON_yields_valid_pool `{T : RangeText} target conf fip :
  UnmarshalJSON target conf = Some (fip, None) →
  is_cidr_mask (Mask fip) → is_ip (Gateway fip) →
  Forall wf_range (IPRanges fip) → Forall below_top (IPRanges fip) →
  valid_pool fip.
Proof.
  intros Hdec Hm Hgw Hwf Htop.
  apply fipCheck_passed_valid; try assumption.
  eapply UnmarshalJSON_checked; eassumption.
Qed.

Lemma UnmarshalJSON_yields_valid_pool_witness :
  UnmarshalJSON (T := DottedText.text) fresh_pool conf_10_0_0
  = Some (mkPool (mkIPNet 167772416 4294967040)
                 [mkIPRange 167772169 167772169; mkIPRange 167772180 167772190]
                 167772161 4294967040 7, None) ∧
  valid_pool (mkPool (mkIPNet 167772416 4294967040)
                     [mkIPRange 167772169 167772169; mkIPRange 167772180 167772190]
                     167772161 4294967040 7).
Proof.
  assert (Hdec : UnmarshalJSON (T := DottedText.text) fresh_pool conf_10_0_0
                 = Some (mkPool (mkIPNet 167772416 4294967040)
                           [mkIPRange 167772169 167772169; mkIPRange 167772180 167772190]
                           167772161 4294967040 7, None))
    by (vm_compute; reflexivity).
  split; [exact Hdec|].
  apply (UnmarshalJSON_yields_valid_pool (T := DottedText.text) fresh_pool conf_10_0_0 _ Hdec).
  - apply is_cidr_maskb_spec. vm_compute. reflexivity.
  - unfold is_ip, uint32_modulus. cbn. lia.
  - repeat constructor; cbn; unfold uint32_modulus; lia.
  - repeat constructor; cbn; unfold uint32_modulus; lia.
Defined.

(** ** The error [fipCheck] returns *)

(** The range the check of a range compares it with: the one before it in
    the list, or the one handed over from outside. *)
Lemma check_ranges_app net l1 : ∀ prev l2,
  check_ranges net prev (l1 ++ l2)
  = match check_ranges net prev l1 with
    | Some e => Some e
    | None => check_ranges net (match last l1 with Some p => Some p | None => prev end) l2
    end.
Proof.
  induction l1 as [|r l1 IH]; intros prev l2; [reflexivity|].
  cbn [app check_ranges].
  destruct (negb (IPNet_Contains net (First r)) || negb (IPNet_Contains net (Last r)));
    [reflexivity|].
  assert (Hlast : match last (r :: l1) with Some p => Some p | None => prev end
                  = match last l1 with Some p => Some p | None => Some r end).
  { destruct l1 as [|r' l1']; [reflexivity|]. cbn [last].
    destruct (last (r' :: l1')) eqn:E; [reflexivity|].
    apply last_None in E. discriminate. }
  rewrite Hlast.
  destruct prev as [p|].
  - destruct (IPToInt (First r) <=? u32 (IPToInt (Last p) + 1)); [reflexivity|]. apply IH.
  - apply IH.
Qed.

Lemma check_ranges_first_error net l : ∀ prev e,
  check_ranges net prev l = Some e →
  ∃ pre r post,
    l = pre ++ r :: post ∧ check_ranges net prev pre = None ∧
    ((endpoints_in net r = false ∧ e = ErrNotInSubnet r net) ∨
     (endpoints_in net r = true ∧
      ∃ p, match last pre with Some p => Some p | None => prev end = Some p ∧
           e = ErrMergeOrOrder p r ∧
           IPToInt (First r) <= u32 (IPToInt (Last p) + 1))).
Proof.
  induction l as [|r0 rest IH]; intros prev e; [discriminate|].
  cbn [check_ranges].
  destruct (IPNet_Contains net (First r0)) eqn:Hf;
    [destruct (IPNet_Contains net (Last r0)) eqn:Hl|]; cbn [negb orb].
  2,3: intros [= <-]; exists [], r0, rest; split; [reflexivity|]; split; [reflexivity|];
       left; split; [unfold endpoints_in; rewrite Hf, ?Hl; reflexivity | reflexivity].
  assert (Hin : endpoints_in net r0 = true) by (unfold endpoints_in; rewrite Hf, Hl; reflexivity).
  assert (Hstep : ∀ e, check_ranges net (Some r0) rest = Some e →
            (match prev with
             | Some p => (IPToInt (First r0) <=? u32 (IPToInt (Last p) + 1)) = false
             | None => True end) →
            ∃ pre r post,
              r0 :: rest = pre ++ r :: post ∧ check_ranges net prev pre = None ∧
              ((endpoints_in net r = false ∧ e = ErrNotInSubnet r net) ∨
               (endpoints_in net r = true ∧
                ∃ p, match last pre with Some p => Some p | None => prev end = Some p ∧
                     e = ErrMergeOrOrder p r ∧
                     IPToInt (First r) <= u32 (IPToInt (Last p) + 1)))).
  { intros e' He' Hprev.
    destruct (IH _ _ He') as (pre & r & post & -> & Hpre & Hcase).
    exists (r0 :: pre), r, post. split; [reflexivity|]. split.
    - cbn [check_ranges]. rewrite Hf, Hl. cbn [negb orb].
      destruct prev as [p|]; [rewrite Hprev|]; exact Hpre.
    - destruct Hcase as [Hcase|(Hr & p & Hp & He & Hle)]; [left; exact Hcase|].
      right. split; [assumption|]. exists p. split; [|split; assumption].
      destruct pre as [|r' pre']; [exact Hp|].
      cbn [last] in *. destruct (last (r' :: pre')) eqn:E; [exact Hp|].
      apply last_None in E. discriminate. }
  destruct prev as [p|].
  - destruct (Z.leb_spec (IPToInt (First r0)) (u32 (IPToInt (Last p) + 1))) as [Hle|Hgt].
    + intros [= <-]. exists [], r0, rest. split; [reflexivity|]. split; [reflexivity|].
      right. split; [assumption|]. exists p. auto.
    + intros He. apply Hstep; [assumption | reflexivity].
  - intros He. apply Hstep; [assumption | exact I].
Qed.

(** X12. The error of [fipCheck] names the first offender: when it returns
    an error, the ranges before some range pass the check on their own, and
    that range either has an endpoint outside the subnet of the gateway and
    the mask, which the out-of-subnet error names with it, or has both
    endpoints in it and starts at or below the [uint32] successor of the
    last address of the range before it, and the order error names the
    two. *)
Theorem fipCheck_names_first_offender fip e :
  fipCheck fip = Some (Some e) →
  ∃ pre r post,
    IPRanges fip = pre ++ r :: post ∧
    fipCheck (with_ranges fip pre) = Some None ∧
    ((endpoints_in (mkIPNet (Gateway fip) (Mask fip)) r = false ∧
      e = ErrNotInSubnet r (mkIPNet (Gateway fip) (Mask fip))) ∨
     (endpoints_in (mkIPNet (Gateway fip) (Mask fip)) r = true ∧
      ∃ p, last pre = Some p ∧ e = ErrMergeOrOrder p r ∧
           IPToInt (First r) <= u32 (IPToInt (Last p) + 1))).
Proof.
  rewrite fipCheck_ranges. intros [= He].
  destruct (check_ranges_first_error _ _ _ _ He) as (pre & r & post & Hl & Hpre & Hcase).
  exists pre, r, post. split; [assumption|]. split.
  - rewrite fipCheck_ranges. cbn [with_ranges Gateway Mask IPRanges]. rewrite Hpre.
    reflexivity.
  - destruct Hcase as [Hcase|(Hr & p & Hp & Hrest)]; [left; exact Hcase|].
    right. split; [assumption|]. exists p. split; [|assumption].
    destruct (last pre); [assumption | discriminate].
Qed.

Lemma fipCheck_names_first_offender_witness :
  fipCheck (ex_pool [mkIPRange 10 20; mkIPRange 21 30; mkIPRange 300 301])
  = Some (Some (ErrMergeOrOrder (mkIPRange 10 20) (mkIPRange 21 30))) ∧
  ∃ pre r post,
    IPRanges (ex_pool [mkIPRange 10 20; mkIPRange 21 30; mkIPRange 300 301])
    = pre ++ r :: post ∧
    fipCheck (with_ranges (ex_pool [mkIPRange 10 20; mkIPRange 21 30; mkIPRange 300 301]) pre)
    = Some None ∧
    ((endpoints_in (mkIPNet 1 4294967040) r = false ∧
      ErrMergeOrOrder (mkIPRange 10 20) (mkIPRange 21 30)
      = ErrNotInSubnet r (mkIPNet 1 4294967040)) ∨
     (endpoints_in (mkIPNet 1 4294967040) r = true ∧
      ∃ p, last pre = Some p ∧
           ErrMergeOrOrder (mkIPRange 10 20) (mkIPRange 21 30) = ErrMergeOrOrder p r ∧
           IPToInt (First r) <= u32 (IPToInt (Last p) + 1))).
Proof.
  assert (He : fipCheck (ex_pool [mkIPRange 10 20; mkIPRange 21 30; mkIPRange 300 301])
               = Some (Some (ErrMergeOrOrder (mkIPRange 10 20) (mkIPRange 21 30))))
    by (vm_compute; reflexivity).
  split; [exact He|].
  exact (fipCheck_names_first_offender _ _ He).
Defined.

(** X13. [fipCheck] never compares the two endpoints of one range: a list
    of a single range passes exactly when both endpoints are in the subnet,
    also when [First] is above [Last]; and such a reversed range holds no
    address. *)
Theorem fipCheck_ignores_endpoint_order fip r :
  IPRanges fip = [r] →
  (fipCheck fip = Some None
   ↔ IPNet_Contains (mkIPNet (Gateway fip) (Mask fip)) (First r) = true
     ∧ IPNet_Contains (mkIPNet (Gateway fip) (Mask fip)) (Last r) = true)
  ∧ (is_ip (First r) → is_ip (Last r) → Last r < First r →
     ∀ x, is_ip x → pool_Contains (IPRanges fip) x = false).
Proof.
  intros Hrs. split.
  - rewrite fipCheck_ranges, Hrs. cbn [check_ranges].
    destruct (IPNet_Contains _ (First r)), (IPNet_Contains _ (Last r)); cbn [negb orb];
      split; try tauto; try discriminate; intros [? ?]; discriminate.
  - intros Hf Hl Hrev x Hx. rewrite Hrs. cbn [pool_Contains existsb].
    rewrite orb_false_r.
    destruct (Contains r x) eqn:E; [|reflexivity].
    apply Contains_ip in E; try assumption. lia.
Qed.

Lemma fipCheck_ignores_endpoint_order_witness :
  IPRanges (ex_pool [mkIPRange 5 3]) = [mkIPRange 5 3] ∧
  fipCheck (ex_pool [mkIPRange 5 3]) = Some None.
Proof.
  split; [reflexivity|].
  apply (proj1 (fipCheck_ignores_endpoint_order (ex_pool [mkIPRange 5 3])
                  (mkIPRange 5 3) eq_refl)).
  split; reflexivity.
Defined.

(** ** What a failed decode leaves behind *)

Lemma parse_ranges_stops `{T : RangeText} good : ∀ rs parsed bad rest,
  mapM ParseIPRange good = Some parsed → ParseIPRange bad = None →
  parse_ranges rs (good ++ bad :: rest) = (rs ++ parsed, Some (ErrInvalidIPRange bad)).
Proof.
  induction good as [|str good IH]; intros rs parsed bad rest Hgood Hbad.
  - cbn in Hgood. injection Hgood as <-. cbn [app parse_ranges].
    rewrite Hbad, app_nil_r. reflexivity.
  - cbn [mapM] in Hgood. cbn [app parse_ranges].
    destruct (ParseIPRange str) as [ipr|]; [|discriminate].
    cbn [mbind option_bind] in Hgood.
    destruct (mapM ParseIPRange good) as [parsed'|]; [|discriminate].
    cbn in Hgood. injection Hgood as <-.
    rewrite (IH _ parsed' bad rest eq_refl Hbad), <- app_assoc. reflexivity.
Qed.

(** X14. An entry of [ips] that does not parse stops the decoding where it
    stands: the error names that entry, the entries after it are not looked
    at, [fipCheck] is not run, and the pool is left half-loaded, with the
    routable subnet, gateway, mask and vlan of the document and with the
    ranges of the entries before the bad one appended to those it had. *)
Theorem UnmarshalJSON_stops_at_invalid_entry `{T : RangeText}
    fip conf rsub gw sub good bad rest parsed :
  conf_RoutableSubnet conf = Some rsub → conf_Gateway conf = Some gw →
  conf_Subnet conf = Some sub →
  conf_IPs conf = good ++ bad :: rest →
  mapM ParseIPRange good = Some parsed → ParseIPRange bad = None →
  UnmarshalJSON fip conf
  = Some (mkPool (mkIPNet (IP_Mask (net_IP rsub) (net_Mask rsub)) (net_Mask rsub))
                 (IPRanges fip ++ parsed) gw (net_Mask sub) (conf_Vlan conf),
          Some (ErrInvalidIPRange bad)).
Proof.
  intros H1 H2 H3 Hips Hgood Hbad.
  rewrite (UnmarshalJSON_present _ _ _ _ _ H1 H2 H3), Hips.
  rewrite (parse_ranges_stops _ _ _ _ _ Hgood Hbad). reflexivity.
Qed.

Lemma UnmarshalJSON_stops_at_invalid_entry_witness :
  UnmarshalJSON (T := DottedText.text) pool_10_0_0
    (mkConf (Some net_10_0_1) ["10.0.0.9"; "10.0.0.300"; "10.0.0.1"]%string
            (Some (mkIPNet 167772160 4294967040)) (Some 167772161) 3)
  = Some (mkPool (mkIPNet 167772416 4294967040)
                 [mkIPRange 167772162 167772165; mkIPRange 167772169 167772169]
                 167772161 4294967040 3,
          Some (ErrInvalidIPRange "10.0.0.300")).
Proof.
  apply (UnmarshalJSON_stops_at_invalid_entry (T := DottedText.text) pool_10_0_0
           (mkConf (Some net_10_0_1) ["10.0.0.9"; "10.0.0.300"; "10.0.0.1"]%string
                   (Some (mkIPNet 167772160 4294967040)) (Some 167772161) 3)
           net_10_0_1 167772161 (mkIPNet 167772160 4294967040)
           ["10.0.0.9"%string] "10.0.0.300"%string ["10.0.0.1"%string]
           [mkIPRange 167772169 167772169]);
    vm_compute; reflexivity.
Defined.

(** ** Decoding twice *)

Lemma separated_head_le_last lo l f p :
  separated lo l → head l = Some f → last l = Some p → First f <= Last p.
Proof.
  intros Hsep Hf Hp. destruct l as [|r t]; [discriminate|].
  injection Hf as ->. destruct Hsep as (_ & (_ & _ & Hle) & Ht).
  destruct t as [|r' t'].
  - cbn in Hp. injection Hp as <-. assumption.
  - assert (Hin : p ∈ r' :: t').
    { change (last (f :: r' :: t')) with (last (r' :: t')) in Hp.
      apply last_Some in Hp as [l' ->]. apply elem_of_app. right. constructor. }
    pose proof (separated_first_above _ _ _ Ht Hin) as Hab.
    assert (Hwf : Forall wf_range (r' :: t')) by (eapply separated_wf; eassumption).
    rewrite Forall_forall in Hwf. destruct (Hwf p Hin) as (_ & _ & Hpl). lia.
Qed.

(** X15. Decoding is not repeatable on one pool: when a document with at
    least one range has decoded into a pool without ranges, decoding it
    again into the pool it produced appends its ranges a second time and
    fails with the order error that names the last range and the first
    (for ranges with [First <= Last] that do not end at the highest
    address). *)
Theorem UnmarshalJSON_twice_fails `{T : RangeText} target conf fip first_r last_r :
  IPRanges target = [] →
  UnmarshalJSON target conf = Some (fip, None) →
  Forall wf_range (IPRanges fip) → Forall below_top (IPRanges fip) →
  head (IPRanges fip) = Some first_r → last (IPRanges fip) = Some last_r →
  ∃ fip2, UnmarshalJSON fip conf = Some (fip2, Some (ErrMergeOrOrder last_r first_r))
          ∧ IPRanges fip2 = IPRanges fip ++ IPRanges fip.
Proof.
  intros Hempty Hdec Hwf Htop Hhead Hlast.
  destruct (conf_RoutableSubnet conf) as [rsub|] eqn:H1;
    [|unfold UnmarshalJSON in Hdec; rewrite H1 in Hdec; discriminate].
  destruct (conf_Gateway conf) as [gw|] eqn:H2;
    [|unfold UnmarshalJSON in Hdec; rewrite H1, H2 in Hdec; discriminate].
  destruct (conf_Subnet conf) as [sub|] eqn:H3;
    [|unfold UnmarshalJSON in Hdec; rewrite H1, H2, H3 in Hdec; discriminate].
  rewrite (UnmarshalJSON_present _ _ _ _ _ H1 H2 H3), Hempty in Hdec.
  destruct (parse_ranges [] (conf_IPs conf)) as [rs [e|]] eqn:Hp;
    cbn [fst snd] in Hdec; [discriminate|].
  apply parse_ranges_ok in Hp as (parsed & Hall & ->). cbn [app] in Hdec.
  injection Hdec as <- Hcheck. cbn [IPRanges] in *.
  assert (Hagain : check_ranges (mkIPNet gw (net_Mask sub)) None (parsed ++ parsed)
                   = Some (ErrMergeOrOrder last_r first_r)).
  { rewrite check_ranges_app, Hcheck, Hlast.
    destruct parsed as [|r t]; [discriminate|]. injection Hhead as ->.
    cbn [check_ranges].
    assert (Hpass : check_ranges (mkIPNet gw (net_Mask sub)) None [first_r] = None).
    { change (first_r :: t) with ([first_r] ++ t) in Hcheck.
      rewrite check_ranges_app in Hcheck.
      destruct (check_ranges (mkIPNet gw (net_Mask sub)) None [first_r]); [discriminate|].
      reflexivity. }
    cbn [check_ranges] in Hpass.
    destruct (negb (IPNet_Contains (mkIPNet gw (net_Mask sub)) (First first_r))
              || negb (IPNet_Contains (mkIPNet gw (net_Mask sub)) (Last first_r)));
      [discriminate|].
    assert (Hsep : separated (-1) (first_r :: t)).
    { apply I2_separated; [assumption|].
      apply (check_ranges_pass_from _ _ None Htop) in Hcheck as [_ HI2];
        [assumption|discriminate]. }
    pose proof (separated_head_le_last _ _ _ _ Hsep eq_refl Hlast) as Hle.
    assert (Hlr : below_top last_r).
    { rewrite Forall_forall in Htop. apply Htop.
      apply last_Some in Hlast as [l' ->]. apply elem_of_app. right. constructor. }
    destruct Hlr as (_ & Hl & Hlt).
    apply Forall_cons in Hwf as [(Hf & _ & _) _].
    unfold IPToInt. rewrite (u32_id (First first_r)), (u32_id (Last last_r)) by assumption.
    rewrite (u32_id (Last last_r + 1)) by (unfold is_ip in *; lia).
    destruct (Z.leb_spec (First first_r) (Last last_r + 1)); [reflexivity | lia]. }
  rewrite (UnmarshalJSON_present _ _ _ _ _ H1 H2 H3). cbn [IPRanges].
  rewrite (parse_ranges_all _ _ _ Hall). cbn [fst snd]. rewrite Hagain.
  eexists. split; reflexivity.
Qed.

Lemma UnmarshalJSON_twice_fails_witness :
  UnmarshalJSON (T := DottedText.text) fresh_pool conf_10_0_0
  = Some (mkPool (mkIPNet 167772416 4294967040)
                 [mkIPRange 167772169 167772169; mkIPRange 167772180 167772190]
                 167772161 4294967040 7, None) ∧
  ∃ fip2,
    UnmarshalJSON (T := DottedText.text)
      (mkPool (mkIPNet 167772416 4294967040)
              [mkIPRange 167772169 167772169; mkIPRange 167772180 167772190]
              167772161 4294967040 7) conf_10_0_0
    = Some (fip2, Some (ErrMergeOrOrder (mkIPRange 167772180 167772190)
                                        (mkIPRange 167772169 167772169)))
    ∧ IPRanges fip2
      = [mkIPRange 167772169 167772169; mkIPRange 167772180 167772190]
        ++ [mkIPRange 167772169 167772169; mkIPRange 167772180 167772190].
Proof.
  assert (Hdec : UnmarshalJSON (T := DottedText.text) fresh_pool conf_10_0_0
                 = Some (mkPool (mkIPNet 167772416 4294967040)
                           [mkIPRange 167772169 167772169; mkIPRange 167772180 167772190]
                           167772161 4294967040 7, None))
    by (vm_compute; reflexivity).
  split; [exact Hdec|].
  apply (UnmarshalJSON_twice_fails (T := DottedText.text) fresh_pool conf_10_0_0 _
           (mkIPRange 167772169 167772169) (mkIPRange 167772180 167772190)
           eq_refl Hdec).
  - repeat constructor; cbn; unfold uint32_modulus; lia.
  - repeat constructor; cbn; unfold uint32_modulus; lia.
  - reflexivity.
  - reflexivity.
Defined.

(** ** [Len], [Swap] and [Less] as a sort interface *)

Lemma Less_in_range (s : FloatingIPSlice) (i j : nat) :
  (i < Len s)%nat → (j < Len s)%nat →
  ∃ si sj, s !! i = Some si ∧ s !! j = Some sj ∧
           Less s i j = Some (first_address si <? first_address sj).
Proof.
  intros Hi Hj. unfold Len in *.
  destruct (lookup_lt_is_Some_2 s i Hi) as [si Hsi].
  destruct (lookup_lt_is_Some_2 s j Hj) as [sj Hsj].
  exists si, sj. repeat split; try assumption. apply Less_lookup; assumption.
Qed.

(** X16. [Less] is the strict weak order [sort.Sort] needs: on indices
    below [Len], no pool is less than itself, two pools are never less than
    each other, less-than is transitive, and so is being less in neither
    direction. *)
Theorem Less_is_a_strict_weak_order (s : FloatingIPSlice) (i j k : nat) :
  (i < Len s)%nat → (j < Len s)%nat → (k < Len s)%nat →
  Less s i i = Some false
  ∧ (Less s i j = Some true → Less s j i = Some false)
  ∧ (Less s i j = Some true → Less s j k = Some true → Less s i k = Some true)
  ∧ (Less s i j = Some false → Less s j i = Some false →
     Less s j k = Some false → Less s k j = Some false →
     Less s i k = Some false ∧ Less s k i = Some false).
Proof.
  intros Hi Hj Hk.
  destruct (Less_in_range s i j Hi Hj) as (si & sj & Hsi & Hsj & Eij).
  destruct (Less_in_range s j k Hj Hk) as (sj' & sk & Hsj' & Hsk & Ejk).
  assert (sj' = sj) as -> by congruence.
  rewrite Eij, Ejk.
  rewrite (Less_lookup s i i si si Hsi Hsi), (Less_lookup s j i sj si Hsj Hsi),
    (Less_lookup s i k si sk Hsi Hsk), (Less_lookup s k j sk sj Hsk Hsj),
    (Less_lookup s k i sk si Hsk Hsi).
  repeat split.
  - f_equal. apply Z.ltb_irrefl.
  - intros [= H]. f_equal. apply Z.ltb_lt in H. apply Z.ltb_ge. lia.
  - intros [= H1] [= H2]. f_equal. apply Z.ltb_lt in H1, H2. apply Z.ltb_lt. lia.
  - f_equal. injection H as H. injection H0 as H0. injection H1 as H1. injection H2 as H2.
    apply Z.ltb_ge in H, H0, H1, H2. apply Z.ltb_ge. lia.
  - f_equal. injection H as H. injection H0 as H0. injection H1 as H1. injection H2 as H2.
    apply Z.ltb_ge in H, H0, H1, H2. apply Z.ltb_ge. lia.
Qed.

Lemma Less_is_a_strict_weak_order_witness :
  (0 < Len [pool_routable_2; pool_routable_1])%nat ∧
  (1 < Len [pool_routable_2; pool_routable_1])%nat ∧
  Less [pool_routable_2; pool_routable_1] 1 0 = Some true ∧
  Less [pool_routable_2; pool_routable_1] 0 1 = Some false.
Proof.
  assert (H0 : (0 < Len [pool_routable_2; pool_routable_1])%nat) by (cbn; lia).
  assert (H1 : (1 < Len [pool_routable_2; pool_routable_1])%nat) by (cbn; lia).
  split; [exact H0|]. split; [exact H1|]. split; [reflexivity|].
  apply (proj1 (proj2 (Less_is_a_strict_weak_order
                         [pool_routable_2; pool_routable_1] 1 0 0 H1 H0 H0))).
  reflexivity.
Defined.

(** X17. [Swap] exchanges two pools and nothing else: with both indices
    below [Len] it returns a slice of the same length that holds at each of
    the two indices what the other held and at every other index what was
    there, and swapping again gives the slice back; with an index at or
    beyond [Len] it indexes out of range, and so does [Less]. *)
Theorem Swap_exchanges (s : FloatingIPSlice) (i j : nat) :
  ((i < Len s)%nat → (j < Len s)%nat →
     ∃ s', Swap s i j = Some s' ∧ Len s' = Len s ∧
           s' !! i = s !! j ∧ s' !! j = s !! i ∧
           (∀ k : nat, k ≠ i → k ≠ j → s' !! k = s !! k) ∧
           Swap s' i j = Some s) ∧
  ((Len s <= i)%nat ∨ (Len s <= j)%nat → Swap s i j = None ∧ Less s i j = None).
Proof.
  unfold Len, Swap, Less, FloatingIPSlice in *. split.
  - intros Hi Hj.
    destruct (lookup_lt_is_Some_2 s i Hi) as [si Hsi].
    destruct (lookup_lt_is_Some_2 s j Hj) as [sj Hsj].
    assert (Hlen : length (<[j:=si]> (<[i:=sj]> s)) = length s)
      by (rewrite !length_insert; reflexivity).
    assert (Hat_j : (<[j:=si]> (<[i:=sj]> s)) !! j = Some si).
    { apply list_lookup_insert_eq. rewrite length_insert. assumption. }
    assert (Hat_i : (<[j:=si]> (<[i:=sj]> s)) !! i = Some sj).
    { destruct (Nat.eq_dec i j) as [->|Hne].
      - rewrite Hat_j. congruence.
      - rewrite list_lookup_insert_ne by congruence.
        apply list_lookup_insert_eq. assumption. }
    exists (<[j:=si]> (<[i:=sj]> s)). rewrite Hsi, Hsj.
    cbn [mbind option_bind]. split; [reflexivity|]. split; [assumption|].
    split; [congruence|]. split; [congruence|]. split.
    + intros k Hki Hkj. rewrite !list_lookup_insert_ne by congruence. reflexivity.
    + rewrite Hat_i, Hat_j. cbn [mbind option_bind]. f_equal.
      apply list_eq. intros k.
      destruct (Nat.eq_dec k j) as [->|Hkj].
      * rewrite list_lookup_insert_eq by (rewrite !length_insert; assumption).
        congruence.
      * rewrite list_lookup_insert_ne by congruence.
        destruct (Nat.eq_dec k i) as [->|Hki].
        -- rewrite list_lookup_insert_eq by (rewrite !length_insert; assumption).
           congruence.
        -- rewrite !list_lookup_insert_ne by congruence. reflexivity.
  - intros Hout.
    destruct Hout as [Hi|Hj].
    + rewrite (lookup_ge_None_2 s i Hi). split; reflexivity.
    + rewrite (lookup_ge_None_2 s j Hj).
      destruct (s !! i); split; reflexivity.
Qed.

Lemma Swap_exchanges_witness :
  (0 < Len [pool_routable_2; pool_routable_1])%nat ∧
  (1 < Len [pool_routable_2; pool_routable_1])%nat ∧
  Swap [pool_routable_2; pool_routable_1] 0 1 = Some [pool_routable_1; pool_routable_2] ∧
  Swap [pool_routable_2; pool_routable_1] 0 2 = None.
Proof.
  split; [cbn; lia|]. split; [cbn; lia|]. split; [reflexivity|].
  apply (proj1 (proj2 (Swap_exchanges [pool_routable_2; pool_routable_1] 0 2)
                  (or_intror (le_n 2)))).
Defined.

(** ** The number of ranges *)

Lemma insert_ranges_length rs ip :
  (length rs <= S (length (insert_ranges rs ip).1))%nat
  ∧ (length (insert_ranges rs ip).1 <= S (length rs))%nat.
Proof.
  induction rs as [|r rest IH]; cbn [insert_ranges]; [cbn; lia|].
  destruct (Contains r ip); [cbn; lia|].
  destruct (Minus (First r) ip >? 1); [cbn; lia|].
  destruct (Minus (First r) ip =? 1); [cbn; lia|].
  destruct (Minus (Last r) ip =? -1).
  - cbn [fst]. pose proof (merge_head_length (mkIPRange (First r) ip :: rest)) as H.
    cbn [length] in *. lia.
  - destruct (insert_ranges rest ip) as [rest' ok]. cbn [fst length] in *. lia.
Qed.

Lemma remove_ranges_length rs ip :
  (length rs <= S (length (remove_ranges rs ip).1))%nat
  ∧ (length (remove_ranges rs ip).1 <= S (length rs))%nat.
Proof.
  induction rs as [|r rest IH]; cbn [remove_ranges]; [cbn; lia|].
  destruct (Contains r ip).
  - cbn [fst]. rewrite length_app. unfold remove_from_range.
    destruct (IP_Equal (First r) (Last r)); [cbn; lia|].
    destruct (IP_Equal (First r) ip); [cbn; lia|].
    destruct (IP_Equal (Last r) ip); cbn; lia.
  - destruct (remove_ranges rest ip) as [rest' ok]. cbn [fst length] in *. lia.
Qed.

(** X18. One call changes the number of ranges by at most one, whatever
    the pool: [InsertIP] adds a range, keeps the count (extension or
    refusal) or drops one (merge); [RemoveIP] drops a range, keeps the
    count or adds one (split). *)
Theorem InsertIP_RemoveIP_range_count fip ip :
  (∃ fip' ok, InsertIP fip ip = Some (fip', ok) ∧
     (length (IPRanges fip) <= S (length (IPRanges fip')))%nat ∧
     (length (IPRanges fip') <= S (length (IPRanges fip)))%nat) ∧
  (∃ fip' ok, RemoveIP fip ip = Some (fip', ok) ∧
     (length (IPRanges fip) <= S (length (IPRanges fip')))%nat ∧
     (length (IPRanges fip') <= S (length (IPRanges fip)))%nat).
Proof.
  split.
  - rewrite InsertIP_unfold.
    destruct (IPNet_Contains (SparseSubnet_IPNet fip) ip).
    + eexists _, _. split; [reflexivity|]. cbn [with_ranges IPRanges].
      apply insert_ranges_length.
    + exists fip, false. split; [reflexivity | lia].
  - rewrite RemoveIP_unfold.
    destruct (IPNet_Contains (SparseSubnet_IPNet fip) ip).
    + eexists _, _. split; [reflexivity|]. cbn [with_ranges IPRanges].
      apply remove_ranges_length.
    + exists fip, false. split; [reflexivity | lia].
Qed.

(** ** Runs of calls *)

(** What a run of calls does to the list and to the set it holds. *)
Lemma run_ops_effect ops : ∀ fip,
  separated (-1) (IPRanges fip) → Forall (fun o => is_ip (op_ip o)) ops →
  ∃ rs', run_ops fip ops = Some (with_ranges fip rs') ∧
         separated (-1) rs' ∧
         ∀ x, is_ip x →
           pool_Contains rs' x
           = fold_left (fun c o => op_effect (SparseSubnet_IPNet fip) o x c) ops
                       (pool_Contains (IPRanges fip) x).
Proof.
  induction ops as [|o ops IH]; intros fip Hsep Hops.
  - exists (IPRanges fip). rewrite with_ranges_same. cbn. auto.
  - apply Forall_cons in Hops as [Ho Hops].
    destruct (apply_op_effect fip o Hsep Ho) as (rs1 & ok & E1 & Hsep1 & Hc1).
    destruct (IH (with_ranges fip rs1) Hsep1 Hops) as (rs' & E & Hsep' & Hc).
    exists rs'. split; [|split; [assumption|]].
    + cbn [run_ops]. rewrite E1. cbn [mbind option_bind]. rewrite E. reflexivity.
    + intros x Hx. rewrite (Hc x Hx). cbn [with_ranges IPRanges fold_left].
      rewrite (Hc1 x Hx). reflexivity.
Qed.

Lemma inserts_effect net ips x : ∀ c,
  fold_left (fun c o => op_effect net o x c) (map OpInsert ips) c
  = c || existsb (fun a => IPNet_Contains net a && (x =? a)) ips.
Proof.
  induction ips as [|a ips IH]; intros c; cbn [map fold_left existsb].
  - rewrite orb_false_r. reflexivity.
  - rewrite IH. unfold op_effect. cbn [op_ip].
    destruct (IPNet_Contains net a); cbn [andb orb]; [|reflexivity].
    rewrite orb_assoc. reflexivity.
Qed.

Lemma removes_effect net ips x : ∀ c,
  fold_left (fun c o => op_effect net o x c) (map OpRemove ips) c
  = c && negb (existsb (fun a => IPNet_Contains net a && (x =? a)) ips).
Proof.
  induction ips as [|a ips IH]; intros c; cbn [map fold_left existsb].
  - rewrite andb_true_r. reflexivity.
  - rewrite IH. unfold op_effect. cbn [op_ip].
    destruct (IPNet_Contains net a); cbn [andb orb]; [|reflexivity].
    rewrite negb_orb, andb_assoc. reflexivity.
Qed.

Lemma existsb_same_set (f : Z → bool) (l1 l2 : list Z) :
  (∀ a, a ∈ l1 ↔ a ∈ l2) → existsb f l1 = existsb f l2.
Proof.
  intros Hsame. apply eq_true_iff_eq. rewrite !existsb_exists.
  split; intros (a & Hin & Hf); exists a; split; try assumption;
    apply list_elem_of_In; apply list_elem_of_In in Hin; apply Hsame; assumption.
Qed.

Lemma ops_is_ip (mk : Z → Op) ips :
  (∀ a, op_ip (mk a) = a) → Forall is_ip ips →
  Forall (fun o => is_ip (op_ip o)) (map mk ips).
Proof.
  intros Hmk Hips. apply Forall_map. eapply Forall_impl; [exact Hips|].
  intros a Ha. cbn. rewrite Hmk. assumption.
Qed.

(** X19. A run of releases, or a run of reservations, leaves a pool that
    depends only on the set of addresses named, not on their order or on
    repetitions: two runs over the same set of addresses end in the same
    pool. *)
Theorem runs_depend_on_the_set fip ips1 ips2 :
  valid_pool fip → Forall is_ip ips1 → Forall is_ip ips2 →
  (∀ a, a ∈ ips1 ↔ a ∈ ips2) →
  (∃ fip', run_ops fip (map OpInsert ips1) = Some fip' ∧
           run_ops fip (map OpInsert ips2) = Some fip') ∧
  (∃ fip', run_ops fip (map OpRemove ips1) = Some fip' ∧
           run_ops fip (map OpRemove ips2) = Some fip').
Proof.
  intros Hv H1 H2 Hsame. apply valid_pool_separated in Hv as [Hsep _]. split.
  - destruct (run_ops_effect _ fip Hsep (ops_is_ip OpInsert ips1 (fun a => eq_refl) H1))
      as (rs1 & E1 & S1 & C1).
    destruct (run_ops_effect _ fip Hsep (ops_is_ip OpInsert ips2 (fun a => eq_refl) H2))
      as (rs2 & E2 & S2 & C2).
    exists (with_ranges fip rs1). split; [assumption|]. rewrite E2. do 2 f_equal.
    apply (separated_canonical rs2 rs1 (-1) (-1)); try assumption.
    intros x Hx. rewrite (C1 x Hx), (C2 x Hx), !inserts_effect.
    f_equal. apply existsb_same_set. intros a. symmetry. apply Hsame.
  - destruct (run_ops_effect _ fip Hsep (ops_is_ip OpRemove ips1 (fun a => eq_refl) H1))
      as (rs1 & E1 & S1 & C1).
    destruct (run_ops_effect _ fip Hsep (ops_is_ip OpRemove ips2 (fun a => eq_refl) H2))
      as (rs2 & E2 & S2 & C2).
    exists (with_ranges fip rs1). split; [assumption|]. rewrite E2. do 2 f_equal.
    apply (separated_canonical rs2 rs1 (-1) (-1)); try assumption.
    intros x Hx. rewrite (C1 x Hx), (C2 x Hx), !removes_effect.
    do 2 f_equal. apply existsb_same_set. intros a. symmetry. apply Hsame.
Qed.

Lemma runs_depend_on_the_set_witness :
  valid_pool (ex_pool [mkIPRange 10 20]) ∧
  run_ops (ex_pool [mkIPRange 10 20]) (map OpInsert [22; 21; 23])
  = Some (ex_pool [mkIPRange 10 23]) ∧
  ∃ fip', run_ops (ex_pool [mkIPRange 10 20]) (map OpInsert [22; 21; 23]) = Some fip' ∧
          run_ops (ex_pool [mkIPRange 10 20]) (map OpInsert [21; 23; 22; 21]) = Some fip'.
Proof.
  assert (Hv : valid_pool (ex_pool [mkIPRange 10 20]))
    by (apply valid_poolb_sound; vm_compute; reflexivity).
  assert (H1 : Forall is_ip [22; 21; 23])
    by (repeat constructor; unfold uint32_modulus; lia).
  assert (H2 : Forall is_ip [21; 23; 22; 21])
    by (repeat constructor; unfold uint32_modulus; lia).
  assert (H3 : ∀ a : Z, a ∈ [22; 21; 23] ↔ a ∈ [21; 23; 22; 21])
    by (intros a; rewrite !elem_of_cons, !elem_of_nil; tauto).
  split; [exact Hv|]. split; [reflexivity|].
  exact (proj1 (runs_depend_on_the_set (ex_pool [mkIPRange 10 20])
                  [22; 21; 23] [21; 23; 22; 21] Hv H1 H2 H3)).
Defined.

(** X20. Releases merge back into one range, and reservations drain one:
    releasing, in any order, exactly the addresses from [a] to [b] of the
    subnet into a pool without ranges leaves the single range [a, b]; and
    reserving exactly those addresses from a pool that holds the single
    range [a, b] leaves no range. *)
Theorem interval_fills_and_drains fip a b ips :
  is_ip a → is_ip b → a <= b →
  (∀ x, a <= x <= b → IPNet_Contains (SparseSubnet_IPNet fip) x = true) →
  (∀ x, x ∈ ips ↔ a <= x <= b) →
  (IPRanges fip = [] →
     run_ops fip (map OpInsert ips) = Some (with_ranges fip [mkIPRange a b])) ∧
  (IPRanges fip = [mkIPRange a b] →
     run_ops fip (map OpRemove ips) = Some (with_ranges fip [])).
Proof.
  intros Ha Hb Hab Hnet Hips.
  assert (Hall : Forall is_ip ips).
  { apply Forall_forall. intros x Hx. apply Hips in Hx. unfold is_ip in *. lia. }
  assert (Hex : ∀ x, existsb (fun a0 => IPNet_Contains (SparseSubnet_IPNet fip) a0
                                        && (x =? a0)) ips
                     = (a <=? x) && (x <=? b)).
  { intros x. apply eq_true_iff_eq.
    rewrite existsb_exists, andb_true_iff, !Z.leb_le. split.
    - intros (y & Hin & Hy). apply andb_true_iff in Hy as [_ Hy].
      apply Z.eqb_eq in Hy as ->. apply list_elem_of_In in Hin. apply Hips in Hin. lia.
    - intros Hx. exists x. split; [apply list_elem_of_In, Hips; lia|].
      rewrite (Hnet x) by lia. rewrite Z.eqb_refl. reflexivity. }
  assert (Hone : separated (-1) [mkIPRange a b]).
  { cbn. unfold wf_range. cbn. unfold is_ip in *. repeat split; lia. }
  assert (Hcov : ∀ x, is_ip x →
             pool_Contains [mkIPRange a b] x = (a <=? x) && (x <=? b)).
  { intros x Hx. cbn [pool_Contains existsb]. rewrite orb_false_r.
    unfold Contains, IPToInt. cbn [First Last]. rewrite !u32_id by assumption.
    reflexivity. }
  split; intros Hrs.
  - assert (Hsep : separated (-1) (IPRanges fip)) by (rewrite Hrs; exact I).
    destruct (run_ops_effect _ fip Hsep (ops_is_ip OpInsert ips (fun a => eq_refl) Hall))
      as (rs & E & S & C).
    rewrite E. do 2 f_equal.
    apply (separated_canonical rs _ (-1) (-1)); try assumption.
    intros x Hx. rewrite (C x Hx), inserts_effect, Hrs, Hex, (Hcov x Hx). reflexivity.
  - assert (Hsep : separated (-1) (IPRanges fip)) by (rewrite Hrs; exact Hone).
    destruct (run_ops_effect _ fip Hsep (ops_is_ip OpRemove ips (fun a => eq_refl) Hall))
      as (rs & E & S & C).
    rewrite E. do 2 f_equal.
    apply (separated_canonical rs [] (-1) (-1)); try assumption; [exact I|].
    intros x Hx. rewrite (C x Hx), removes_effect, Hrs, Hex, (Hcov x Hx).
    cbn [pool_Contains existsb]. apply andb_negb_r.
Qed.

Lemma interval_fills_and_drains_witness :
  run_ops (ex_pool []) (map OpInsert [12; 10; 11]) = Some (ex_pool [mkIPRange 10 12]) ∧
  run_ops (ex_pool [mkIPRange 10 12]) (map OpRemove [12; 10; 11]) = Some (ex_pool []).
Proof.
  assert (H10 : is_ip 10) by (unfold is_ip, uint32_modulus; lia).
  assert (H12 : is_ip 12) by (unfold is_ip, uint32_modulus; lia).
  assert (H1 : is_ip 1) by (unfold is_ip, uint32_modulus; lia).
  assert (Hle : 10 <= 12) by lia.
  assert (Hin : ∀ x, x ∈ [12; 10; 11] ↔ 10 <= x <= 12).
  { intros x. rewrite !elem_of_cons, elem_of_nil. lia. }
  assert (Hnet : ∀ x, 10 <= x <= 12 →
                      IPNet_Contains (mkIPNet 1 4294967040) x = true).
  { intros x Hx.
    apply (IPNet_Contains_between 1 4294967040 10 12 x); try assumption; try reflexivity.
    apply is_cidr_maskb_spec. vm_compute. reflexivity. }
  split.
  - exact (proj1 (interval_fills_and_drains (ex_pool []) 10 12 [12; 10; 11]
                    H10 H12 Hle Hnet Hin) eq_refl).
  - exact (proj2 (interval_fills_and_drains (ex_pool [mkIPRange 10 12]) 10 12 [12; 10; 11]
                    H10 H12 Hle Hnet Hin) eq_refl).
Defined.
